(** * happy-cli, Codex bridge: permission handler, elicitation codec,
      runner resolver and abort-restart guard.

    Shallow embedding of
      - [cli/src/utils/BasePermissionHandler.ts]
      - [cli/src/codex/utils/permissionHandler.ts]
      - [cli/src/codex/utils/elicitation.ts] and [cli/src/codex/runner.ts]
      - [cli/src/codex/codexMcpClient.ts] (subcommand selection of [connect])
      - [applyAbortRestart] of [cli/src/codex/runCodex.ts]

    Conventions.  JavaScript strings are [string]: text held as UTF-8,
    of which the code inspects ASCII characters only, apart from the line
    terminators.  JavaScript numbers that the code uses as integers are
    [Z], optional fields are [option].  JavaScript objects used as
    dictionaries are [gmap string _] of their own properties, with the
    members inherited from [Object.prototype] spelt out where the code
    reads a key that may name one; the [Map] of timers, which is never
    iterated, is a [gmap] too; the [Map] of pending requests, which
    [reset()] iterates, is a list of entries in insertion order.
    [Date.now()] is an argument [now], read once per
    call.  [session.updateAgentState] applies its argument at once, as the
    session of the tests does.  Logger calls are not modelled. *)

From stdpp Require Import base option list strings gmap fin_maps pretty.
From Stdlib Require Import ZArith Lia Ascii.

Open Scope string_scope.
Open Scope list_scope.
Open Scope Z_scope.

(** ** Runner resolver ([runner.ts]) *)

Module Runner.

Record CodexRunner := {
  command : string;
  args : list string;
  label : string
}.

Record McpCommand := {
  mcp_command : string;
  mcp_args : list string
}.

Definition CODEX_MCP_SUBCOMMAND : string := "mcp-server".

(** [buildCodexRunner(spec)]; [if (spec)] is JavaScript truthiness, so the
    empty string counts as absent. *)
Definition buildCodexRunner (spec : option string) : CodexRunner :=
  match spec with
  | Some s =>
      if String.eqb s "" then
        {| command := "codex"; args := []; label := "codex" |}
      else
        {| command := "npx"; args := ["-y"; s]; label := s |}
  | None => {| command := "codex"; args := []; label := "codex" |}
  end.

Definition buildCodexMcpCommand (runner : CodexRunner) : McpCommand :=
  {| mcp_command := command runner;
     mcp_args := args runner ++ [CODEX_MCP_SUBCOMMAND] |}.

End Runner.

(** ** Elicitation codec and version negotiation ([elicitation.ts]) *)

Module Elicitation.

Inductive ElicitationAction := accept | decline | cancel.

Inductive PermissionDecision :=
  | approved
  | approved_for_session
  | approved_execpolicy_amendment
  | denied
  | abort.

#[export] Instance PermissionDecision_eq_dec : EqDecision PermissionDecision.
Proof. solve_decision. Defined.

(** [{ decision; execPolicyAmendment?: { command: string[] } }]: the
    optional object has the single field [command], so it is the list. *)
Record PermissionResult := {
  decision : PermissionDecision;
  execPolicyAmendment : option (list string)
}.

(** [ReviewDecision]: a decision string, or the object
    [{approved_execpolicy_amendment: {proposed_execpolicy_amendment}}]. *)
Inductive ReviewDecision :=
  | ReviewTag (d : PermissionDecision)
  | ReviewAmendment (proposed_execpolicy_amendment : list string).

Inductive ElicitationResponseStyle := style_decision | style_both.

Record CodexVersionInfo := {
  raw : option string;
  parsed : bool;
  major : Z;
  minor : Z;
  patch : Z;
  prereleaseTag : option string;
  prereleaseNum : option Z
}.

Record CodexVersionTarget := {
  target_major : Z;
  target_minor : Z;
  target_patch : Z;
  target_prereleaseTag : option string;
  target_prereleaseNum : option Z
}.

Definition ELICITATION_DECISION_MAX_VERSION : CodexVersionTarget :=
  {| target_major := 0; target_minor := 77; target_patch := 0;
     target_prereleaseTag := None; target_prereleaseNum := None |}.

Record ElicitationResponse := {
  resp_action : ElicitationAction;
  resp_decision : option ReviewDecision;
  resp_content : option unit   (* [content: {}] when present *)
}.

Definition buildElicitationResponse (style : ElicitationResponseStyle)
    (action : ElicitationAction) (d : ReviewDecision) : ElicitationResponse :=
  match style with
  | style_decision =>
      {| resp_action := action; resp_decision := Some d; resp_content := None |}
  | style_both =>
      {| resp_action := action; resp_decision := Some d; resp_content := Some tt |}
  end.

Definition isExecpolicyAmendmentDecision (d : ReviewDecision) : bool :=
  match d with ReviewAmendment _ => true | ReviewTag _ => false end.

Definition mapDecisionToAction (d : ReviewDecision) : ElicitationAction :=
  match d with
  | ReviewTag approved | ReviewTag approved_for_session => accept
  | ReviewAmendment _ => accept
  | ReviewTag abort => cancel
  | _ => decline
  end.

(** [x?.command?.length] as a condition: present and of non-zero length. *)
Definition has_command (a : option (list string)) : bool :=
  match a with
  | Some (_ :: _) => true
  | _ => false
  end.

Definition mapPermissionResultToDecision (result : PermissionResult)
    : ReviewDecision :=
  match decision result with
  | approved_execpolicy_amendment =>
      if has_command (execPolicyAmendment result) then
        ReviewAmendment (default [] (execPolicyAmendment result))
      else ReviewTag approved
  | d => ReviewTag d
  end.

(** JavaScript truthiness of an optional string: [undefined] and the empty
    string are falsy. *)
Definition truthy (s : option string) : bool :=
  match s with
  | Some t => negb (String.eqb t "")
  | None => false
  end.

Section Versions.

(** [String.prototype.localeCompare]: the collation order of the runtime's
    locale, which the program takes from its environment. *)
Variable localeCompare : string -> string -> Z.

Definition compareVersions (info : CodexVersionInfo)
    (target : CodexVersionTarget) : Z :=
  if negb (major info =? target_major target) then
    major info - target_major target
  else if negb (minor info =? target_minor target) then
    minor info - target_minor target
  else if negb (patch info =? target_patch target) then
    patch info - target_patch target
  else
    let infoTag := prereleaseTag info in
    let targetTag := target_prereleaseTag target in
    if negb (truthy infoTag) && negb (truthy targetTag) then 0
    else if negb (truthy infoTag) && truthy targetTag then 1
    else if truthy infoTag && negb (truthy targetTag) then -1
    else if negb (truthy infoTag) || negb (truthy targetTag) then 0
    else if negb (bool_decide (infoTag = targetTag)) then
      localeCompare (default "" infoTag) (default "" targetTag)
    else
      let infoNum := default 0 (prereleaseNum info) in
      let targetNum := default 0 (target_prereleaseNum target) in
      infoNum - targetNum.

Definition isVersionAtMost (info : CodexVersionInfo)
    (target : CodexVersionTarget) : bool :=
  if negb (parsed info) then false
  else compareVersions info target <=? 0.

Definition getElicitationResponseStyle (info : CodexVersionInfo)
    (override : option string) : ElicitationResponseStyle :=
  if bool_decide (override = Some "decision") then style_decision
  else if bool_decide (override = Some "both") then style_both
  else if negb (parsed info) then style_both
  else if isVersionAtMost info ELICITATION_DECISION_MAX_VERSION
       then style_decision else style_both.

End Versions.

End Elicitation.

(** ** Permission bridge ([BasePermissionHandler.ts], [permissionHandler.ts]) *)

Module Permission.
Import Elicitation.

(** Opaque tool input ([unknown]); the handler stores it and never looks
    inside. *)
Definition Input := string.

(** [id: string | number]. *)
Inductive RequestId :=
  | IdString (s : string)
  | IdNumber (n : Z).


(** Decimal rendering of an integer, which is what [String(n)] gives for
    a safe integer; beyond that range [String] rounds and, from 1e21 on,
    writes an exponent. *)
Definition decimal (n : Z) : string := pretty n.

Definition normalizeRequestId (id : RequestId) : string :=
  match id with
  | IdString s => s
  | IdNumber n => decimal n
  end.


Record PermissionResponse := {
  id : RequestId;
  resp_approved : bool;
  resp_decision : option PermissionDecision;
  resp_execPolicyAmendment : option (list string)
}.

(** What a consumer-supplied callback does when it is called: return,
    throw, or call [reset()] on the handler again before going on. *)
Inductive Script :=
  | Return
  | Throw
  | CallReset (k : Script).

(** [handle] names the completion handle (the [resolve]/[reject] pair of one
    promise); [on_resolve] and [on_reject] are the behaviours of the two
    functions. *)
Record PendingRequest := {
  handle : nat;
  on_resolve : Script;
  on_reject : Script;
  toolName : string;
  input : Input
}.

Inductive Status := status_approved | status_denied | status_canceled.

(** An entry of [agentState.requests]. *)
Record RequestEntry := {
  tool : string;
  arguments : Input;
  createdAt : Z
}.

(** An entry of [agentState.completedRequests].  The first three fields
    are copied from the request by [...request]; they are missing when the
    value spread has no enumerable properties of its own. *)
Record CompletedEntry := {
  c_tool : option string;
  c_arguments : option Input;
  c_createdAt : option Z;
  completedAt : Z;
  status : Status;
  c_decision : option PermissionDecision;
  reason : option string
}.

(** [requests_field] is the optional member [requests]; a missing
    [completedRequests] is only ever spread, so it is kept as the empty
    object. *)
Record AgentState := {
  requests_field : option (gmap string RequestEntry);
  completedRequests : gmap string CompletedEntry
}.

(** [currentState.requests || {}], which is also what
    [...currentState.requests] spreads. *)
Definition requests (currentState : AgentState) : gmap string RequestEntry :=
  default ∅ (requests_field currentState).

(** The member names every plain object inherits from [Object.prototype].
    Reading one of them from an object that has no own property of that
    name gives a function or, for [__proto__], the prototype itself: a
    truthy value without enumerable properties of its own. *)
Definition object_prototype_members : list string :=
  ["constructor"; "__defineGetter__"; "__defineSetter__"; "hasOwnProperty";
   "__lookupGetter__"; "__lookupSetter__"; "isPrototypeOf";
   "propertyIsEnumerable"; "toString"; "valueOf"; "__proto__";
   "toLocaleString"].

(** What [currentState.requests?.[requestId]] finds. *)
Inductive Found :=
  | Own (request : RequestEntry)
  | Inherited
  | Missing.

Definition find_request (requestId : string) (currentState : AgentState)
    : Found :=
  match requests_field currentState with
  | None => Missing
  | Some object =>
      match object !! requestId with
      | Some request => Own request
      | None =>
          if bool_decide (requestId ∈ object_prototype_members)
          then Inherited else Missing
      end
  end.

(** [PermissionMode] is declared in [@/api/types]; the handler
    distinguishes these four values and treats every other like
    ['default']. *)
Inductive PermissionMode :=
  | mode_default
  | mode_read_only
  | mode_safe_yolo
  | mode_yolo
  | mode_other (name : string).

#[export] Instance PermissionMode_eq_dec : EqDecision PermissionMode.
Proof. solve_decision. Defined.

(** A JavaScript [Map] with string keys: the entries in insertion order,
    no key twice.  [map_set] on a key that is present keeps its place. *)
Fixpoint map_get {V} (k : string) (m : list (string * V)) : option V :=
  match m with
  | [] => None
  | (k', v) :: m' => if decide (k' = k) then Some v else map_get k m'
  end.

Fixpoint map_set {V} (k : string) (v : V) (m : list (string * V))
    : list (string * V) :=
  match m with
  | [] => [(k, v)]
  | (k', v') :: m' =>
      if decide (k' = k) then (k, v) :: m' else (k', v') :: map_set k v m'
  end.

Fixpoint map_delete {V} (k : string) (m : list (string * V))
    : list (string * V) :=
  match m with
  | [] => []
  | (k', v) :: m' =>
      if decide (k' = k) then map_delete k m' else (k', v) :: map_delete k m'
  end.

(** Calls that leave the handler. *)
Inductive Event :=
  | EvResolve (h : nat) (r : PermissionResult)
  | EvReject (h : nat) (message : string)
  | EvSetTimeout (timer : nat) (requestId : string) (toolName : string)
  | EvClearTimeout (timer : nat).

(** The handler object together with the agent state of its session.
    [nextHandle] and [nextTimer] give fresh names to promises and timers. *)
Record State := {
  pendingRequests : list (string * PendingRequest);
  pendingWarningTimers : gmap string nat;
  isResetting : bool;
  currentPermissionMode : PermissionMode;
  agentState : AgentState;
  events : list Event;
  nextHandle : nat;
  nextTimer : nat
}.

Definition set_pendingRequests (m : list (string * PendingRequest)) (st : State) :=
  {| pendingRequests := m;
     pendingWarningTimers := pendingWarningTimers st;
     isResetting := isResetting st;
     currentPermissionMode := currentPermissionMode st;
     agentState := agentState st;
     events := events st;
     nextHandle := nextHandle st;
     nextTimer := nextTimer st |}.

Definition set_pendingWarningTimers (m : gmap string nat) (st : State) :=
  {| pendingRequests := pendingRequests st;
     pendingWarningTimers := m;
     isResetting := isResetting st;
     currentPermissionMode := currentPermissionMode st;
     agentState := agentState st;
     events := events st;
     nextHandle := nextHandle st;
     nextTimer := nextTimer st |}.

Definition set_isResetting (b : bool) (st : State) :=
  {| pendingRequests := pendingRequests st;
     pendingWarningTimers := pendingWarningTimers st;
     isResetting := b;
     currentPermissionMode := currentPermissionMode st;
     agentState := agentState st;
     events := events st;
     nextHandle := nextHandle st;
     nextTimer := nextTimer st |}.

Definition set_currentPermissionMode (m : PermissionMode) (st : State) :=
  {| pendingRequests := pendingRequests st;
     pendingWarningTimers := pendingWarningTimers st;
     isResetting := isResetting st;
     currentPermissionMode := m;
     agentState := agentState st;
     events := events st;
     nextHandle := nextHandle st;
     nextTimer := nextTimer st |}.

(** [session.updateAgentState(fn)]: the session applies [fn] to its agent
    state. *)
Definition updateAgentState (fn : AgentState -> AgentState) (st : State) :=
  {| pendingRequests := pendingRequests st;
     pendingWarningTimers := pendingWarningTimers st;
     isResetting := isResetting st;
     currentPermissionMode := currentPermissionMode st;
     agentState := fn (agentState st);
     events := events st;
     nextHandle := nextHandle st;
     nextTimer := nextTimer st |}.

Definition emit (e : Event) (st : State) :=
  {| pendingRequests := pendingRequests st;
     pendingWarningTimers := pendingWarningTimers st;
     isResetting := isResetting st;
     currentPermissionMode := currentPermissionMode st;
     agentState := agentState st;
     events := events st ++ [e];
     nextHandle := nextHandle st;
     nextTimer := nextTimer st |}.

Definition fresh_handle (st : State) : nat * State :=
  (nextHandle st,
   {| pendingRequests := pendingRequests st;
      pendingWarningTimers := pendingWarningTimers st;
      isResetting := isResetting st;
      currentPermissionMode := currentPermissionMode st;
      agentState := agentState st;
      events := events st;
      nextHandle := S (nextHandle st);
      nextTimer := nextTimer st |}).

Definition fresh_timer (st : State) : nat * State :=
  (nextTimer st,
   {| pendingRequests := pendingRequests st;
      pendingWarningTimers := pendingWarningTimers st;
      isResetting := isResetting st;
      currentPermissionMode := currentPermissionMode st;
      agentState := agentState st;
      events := events st;
      nextHandle := nextHandle st;
      nextTimer := S (nextTimer st) |}).

(** *** Timers

    The callback of a warning timer only writes to the log, so a timer is
    its registration ([EvSetTimeout]) and its clearing ([EvClearTimeout]). *)

Definition schedulePendingWarning (requestId toolName : string) (st : State)
    : State :=
  match pendingWarningTimers st !! requestId with
  | Some _ => st
  | None =>
      let '(timer, st1) := fresh_timer st in
      let st2 := emit (EvSetTimeout timer requestId toolName) st1 in
      set_pendingWarningTimers (<[requestId := timer]> (pendingWarningTimers st2)) st2
  end.

Definition clearPendingWarning (requestId : string) (st : State) : State :=
  let st1 :=
    match pendingWarningTimers st !! requestId with
    | Some timer => emit (EvClearTimeout timer) st
    | None => st
    end in
  set_pendingWarningTimers (delete requestId (pendingWarningTimers st1)) st1.

Definition registerPendingRequest (requestId : string) (pending : PendingRequest)
    (st : State) : State :=
  let st1 := set_pendingRequests (map_set requestId pending (pendingRequests st)) st in
  schedulePendingWarning requestId (toolName pending) st1.

Definition addPendingRequestToState (now : Z) (toolCallId : RequestId)
    (toolName : string) (input : Input) (st : State) : State :=
  let requestId := normalizeRequestId toolCallId in
  updateAgentState (fun currentState =>
    {| requests_field :=
         Some (<[requestId := {| tool := toolName; arguments := input;
                                 createdAt := now |}]>
                 (requests currentState));
       completedRequests := completedRequests currentState |}) st.

(** *** The [permission] RPC handler *)

(** The decision computed from a response (the immediately-invoked function
    that initialises [result]). *)
Definition result_of_response (response : PermissionResponse) : PermissionResult :=
  if resp_approved response then
    let wantsExecpolicyAmendment :=
      bool_decide (resp_decision response = Some approved_execpolicy_amendment)
      && has_command (resp_execPolicyAmendment response) in
    if wantsExecpolicyAmendment then
      {| decision := approved_execpolicy_amendment;
         execPolicyAmendment := resp_execPolicyAmendment response |}
    else
      {| decision :=
           if bool_decide (resp_decision response = Some approved_for_session)
           then approved_for_session else approved;
         execPolicyAmendment := None |}
  else
    {| decision :=
         if bool_decide (resp_decision response = Some denied)
         then denied else abort;
       execPolicyAmendment := None |}.

Definition complete_request (now : Z) (request : RequestEntry) (st : Status)
    (d : option PermissionDecision) (why : option string) : CompletedEntry :=
  {| c_tool := Some (tool request);
     c_arguments := Some (arguments request);
     c_createdAt := Some (createdAt request);
     completedAt := now;
     status := st;
     c_decision := d;
     reason := why |}.

(** [{ ...request, completedAt, status, decision }] for a [request] that
    was inherited: nothing is copied from it. *)
Definition complete_inherited (now : Z) (st : Status)
    (d : option PermissionDecision) : CompletedEntry :=
  {| c_tool := None;
     c_arguments := None;
     c_createdAt := None;
     completedAt := now;
     status := st;
     c_decision := d;
     reason := None |}.

(** The state transformer that moves [requestId] to [completedRequests].
    The rest pattern [{ [requestId]: _, ...remainingRequests }] keeps the
    own properties other than [requestId]. *)
Definition move_to_completed (now : Z) (requestId : string)
    (response : PermissionResponse) (result : PermissionResult)
    (currentState : AgentState) : AgentState :=
  let st := if resp_approved response then status_approved else status_denied in
  match find_request requestId currentState with
  | Missing => currentState
  | Own request =>
      {| requests_field := Some (delete requestId (requests currentState));
         completedRequests :=
           <[requestId :=
               complete_request now request st (Some (decision result)) None]>
             (completedRequests currentState) |}
  | Inherited =>
      {| requests_field := Some (delete requestId (requests currentState));
         completedRequests :=
           <[requestId := complete_inherited now st (Some (decision result))]>
             (completedRequests currentState) |}
  end.

(** Running a callback.  [reset] is the handler's own [reset()], which the
    callback may call; the boolean tells whether the callback threw. *)
Fixpoint run_script (reset : State -> option State) (s : Script) (st : State)
    : option (State * bool) :=
  match s with
  | Return => Some (st, false)
  | Throw => Some (st, true)
  | CallReset k =>
      match reset st with
      | Some st' => run_script reset k st'
      | None => None
      end
  end.

Fixpoint for_each {A : Type} (body : A -> State -> option State) (l : list A)
    (st : State) : option State :=
  match l with
  | [] => Some st
  | x :: l' =>
      match body x st with
      | Some st' => for_each body l' st'
      | None => None
      end
  end.

(** *** [reset()] *)

(** One turn of the rejection loop; the [try]/[catch] around [reject]
    drops the exception. *)
Definition reject_pending (reset : State -> option State)
    (entry : string * PendingRequest) (st : State) : option State :=
  let st1 := clearPendingWarning entry.1 st in
  let st2 := emit (EvReject (handle entry.2) "Session reset") st1 in
  match run_script reset (on_reject entry.2) st2 with
  | Some (st3, _) => Some st3
  | None => None
  end.

(** The state transformer that cancels every in-flight request. *)
Definition cancel_all (now : Z) (currentState : AgentState) : AgentState :=
  let pendingRequests := requests currentState in
  let completedRequests :=
    fold_left
      (fun completed (entry : string * RequestEntry) =>
         <[entry.1 :=
             complete_request now entry.2 status_canceled None
               (Some "Session reset")]> completed)
      (map_to_list pendingRequests)
      (completedRequests currentState) in
  {| requests_field := Some ∅; completedRequests := completedRequests |}.

(** [depth] bounds how deep calls of [reset()] from inside callbacks may
    nest; [None] means the bound was reached. *)
Fixpoint reset (depth : nat) (now : Z) (st : State) : option State :=
  match depth with
  | O => None
  | S depth' =>
      if isResetting st then Some st
      else
        let st1 := set_isResetting true st in
        let pendingSnapshot := pendingRequests st1 in
        let st2 := set_pendingRequests [] st1 in
        match for_each (reject_pending (reset depth' now)) pendingSnapshot st2 with
        | Some st3 =>
            let st4 := updateAgentState (cancel_all now) st3 in
            Some (set_isResetting false st4)
        | None => None
        end
  end.

(** The handler registered for ['permission'].  The boolean of the result
    tells whether the handler ended with an exception. *)
Definition permission_rpc (depth : nat) (now : Z) (response : PermissionResponse)
    (st : State) : option (State * bool) :=
  let requestId := normalizeRequestId (id response) in
  match map_get requestId (pendingRequests st) with
  | None => Some (st, false)
  | Some pending =>
      let st1 := set_pendingRequests (map_delete requestId (pendingRequests st)) st in
      let st2 := clearPendingWarning requestId st1 in
      let result := result_of_response response in
      let st3 := emit (EvResolve (handle pending) result) st2 in
      match run_script (reset depth now) (on_resolve pending) st3 with
      | Some (st4, false) =>
          Some (updateAgentState (move_to_completed now requestId response result) st4,
                false)
      | Some (st4, true) => Some (st4, true)
      | None => None
      end
  end.

(** [updateSession(newSession)]: from now on the handler works on the agent
    state of the new session, [a]; registering the RPC handler on the new
    session leaves the handler object as it is. *)
Definition updateSession (a : AgentState) (st : State) : State :=
  updateAgentState (fun _ => a) st.

(** *** [CodexPermissionHandler] *)

Definition setPermissionMode (mode : PermissionMode) (st : State) : State :=
  if bool_decide (currentPermissionMode st = mode) then st
  else set_currentPermissionMode mode st.

(** [toLowerCase] on ASCII text. *)
Definition lower_ascii (c : ascii) : ascii :=
  let n := nat_of_ascii c in
  if ((65 <=? n) && (n <=? 90))%nat then ascii_of_nat (n + 32) else c.

Fixpoint toLowerCase (s : string) : string :=
  match s with
  | EmptyString => EmptyString
  | String c r => String (lower_ascii c) (toLowerCase r)
  end.

(** [s.includes(t)]. *)
Fixpoint includes (s t : string) : bool :=
  String.prefix t s ||
  match s with
  | EmptyString => false
  | String _ r => includes r t
  end.

Definition alwaysAutoApproveNames : list string :=
  ["change_title"; "happy__change_title"; "GeminiReasoning"; "CodexReasoning";
   "think"; "save_memory"].

Definition alwaysAutoApproveIds : list string := ["change_title"; "save_memory"].

Definition writeTools : list string :=
  ["write"; "edit"; "create"; "delete"; "patch"; "fs-edit"].

Definition shouldAutoApprove (toolName toolCallId : string) (_input : Input)
    (st : State) : bool :=
  if existsb (fun name => includes (toLowerCase toolName) (toLowerCase name))
       alwaysAutoApproveNames then true
  else if existsb (fun id => includes (toLowerCase toolCallId) (toLowerCase id))
       alwaysAutoApproveIds then true
  else
    match currentPermissionMode st with
    | mode_yolo => true
    | mode_safe_yolo => true
    | mode_read_only =>
        let isWriteTool :=
          existsb (fun wt => includes (toLowerCase toolName) wt) writeTools in
        negb isWriteTool
    | _ => false
    end.

(** What the promise returned by [handleToolCall] is when the call
    returns: already fulfilled, or waiting on completion handle [h]. *)
Inductive CallResult :=
  | Fulfilled (r : PermissionResult)
  | Awaiting (h : nat).

Definition handleToolCall (now : Z) (toolCallId : RequestId) (toolName : string)
    (input : Input) (st : State) : State * CallResult :=
  let requestId := normalizeRequestId toolCallId in
  if shouldAutoApprove toolName requestId input st then
    let decision :=
      if bool_decide (currentPermissionMode st = mode_yolo)
      then approved_for_session else approved in
    let st1 :=
      updateAgentState (fun currentState =>
        {| requests_field := requests_field currentState;
           completedRequests :=
             <[requestId :=
                 {| c_tool := Some toolName;
                    c_arguments := Some input;
                    c_createdAt := Some now;
                    completedAt := now;
                    status := status_approved;
                    c_decision := Some decision;
                    reason := None |}]>
               (completedRequests currentState) |}) st in
    (st1, Fulfilled {| decision := decision; execPolicyAmendment := None |})
  else
    let '(h, st1) := fresh_handle st in
    let st2 :=
      registerPendingRequest requestId
        {| handle := h; on_resolve := Return; on_reject := Return;
           toolName := toolName; input := input |} st1 in
    let st3 := addPendingRequestToState now (IdString requestId) toolName input st2 in
    (st3, Awaiting h).

(** Reading the calls back from the event list: the handles rejected, with
    the error message, and the timers cleared. *)
Definition rejected (e : Event) : option (nat * string) :=
  match e with
  | EvReject h message => Some (h, message)
  | _ => None
  end.

Definition cleared (e : Event) : option nat :=
  match e with
  | EvClearTimeout timer => Some timer
  | _ => None
  end.


(** A new handler on a session whose agent state is [a]. *)
Definition new_handler (a : AgentState) : State :=
  {| pendingRequests := [];
     pendingWarningTimers := ∅;
     isResetting := false;
     currentPermissionMode := mode_default;
     agentState := a;
     events := [];
     nextHandle := 0;
     nextTimer := 0 |}.

(** The states a handler goes through when its methods are called one
    after the other. *)
Inductive reachable : State -> Prop :=
  | reach_new a : reachable (new_handler a)
  | reach_updateSession st a :
      reachable st -> reachable (updateSession a st)
  | reach_setPermissionMode st mode :
      reachable st -> reachable (setPermissionMode mode st)
  | reach_handleToolCall st now toolCallId toolName input :
      reachable st ->
      reachable (handleToolCall now toolCallId toolName input st).1
  | reach_permission_rpc st depth now response st' threw :
      reachable st ->
      permission_rpc depth now response st = Some (st', threw) ->
      reachable st'
  | reach_reset st depth now st' :
      reachable st ->
      reset depth now st = Some st' ->
      reachable st'.

(** The invariant of the reachable states: no reset is running, the
    pending table has no key twice, and every pending entry is settled by a
    promise and has a warning timer. *)
Definition consistent (st : State) : Prop :=
  isResetting st = false
  ∧ NoDup (pendingRequests st).*1
  ∧ ∀ id pending,
      map_get id (pendingRequests st) = Some pending →
      on_resolve pending = Return
      ∧ on_reject pending = Return
      ∧ is_Some (pendingWarningTimers st !! id).

End Permission.

(** ** Subcommand selection of the MCP client ([codexMcpClient.ts]) *)

Module McpClient.
Import Runner.

Definition is_digit (c : ascii) : bool :=
  let n := nat_of_ascii c in ((48 <=? n) && (n <=? 57))%nat.

(** [\s] on ASCII text: tab, line feed, vertical tab, form feed, carriage
    return and space. *)
Definition is_space (c : ascii) : bool :=
  let n := nat_of_ascii c in (((9 <=? n) && (n <=? 13)) || (n =? 32))%nat.

Fixpoint take_while (p : ascii -> bool) (s : string) : string :=
  match s with
  | String c r => if p c then String c (take_while p r) else EmptyString
  | EmptyString => EmptyString
  end.

Fixpoint drop_while (p : ascii -> bool) (s : string) : string :=
  match s with
  | String c r => if p c then drop_while p r else s
  | EmptyString => EmptyString
  end.

Fixpoint strip_prefix (p s : string) : option string :=
  match p, s with
  | EmptyString, _ => Some s
  | String a p', String b s' =>
      if Ascii.eqb a b then strip_prefix p' s' else None
  | String _ _, EmptyString => None
  end.

(** One or more characters satisfying [p] (a greedy [+]): the run and the
    rest. *)
Definition some_of (p : ascii -> bool) (s : string) : option (string * string) :=
  match take_while p s with
  | EmptyString => None
  | run => Some (run, drop_while p s)
  end.

(** The regular expression
    [codex-cli\s+(\d+\.\d+\.\d+(?:-alpha\.\d+)?)] matched at the start of
    [s]; the result is capture group 1. *)
Definition match_version_here (s : string) : option string :=
  r0 ← strip_prefix "codex-cli" s;
  '(_, r1) ← some_of is_space r0;
  '(a, r2) ← some_of is_digit r1;
  r3 ← strip_prefix "." r2;
  '(b, r4) ← some_of is_digit r3;
  r5 ← strip_prefix "." r4;
  '(c, r6) ← some_of is_digit r5;
  let base := a +:+ "." +:+ b +:+ "." +:+ c in
  match strip_prefix "-alpha." r6 ≫= some_of is_digit with
  | Some (d, _) => Some (base +:+ "-alpha." +:+ d)
  | None => Some base
  end.

(** [version.match(re)]: the leftmost match. *)
Fixpoint match_version (s : string) : option string :=
  match match_version_here s with
  | Some g => Some g
  | None =>
      match s with
      | String _ r => match_version r
      | EmptyString => None
      end
  end.

(** [s.split(/[-.]/)]. *)
Fixpoint split_dash_dot (s : string) : list string :=
  match s with
  | EmptyString => [EmptyString]
  | String c r =>
      if Ascii.eqb c "-" || Ascii.eqb c "." then EmptyString :: split_dash_dot r
      else
        match split_dash_dot r with
        | piece :: pieces => String c piece :: pieces
        | [] => [String c EmptyString]
        end
  end.

Definition digit_value (c : ascii) : Z := Z.of_nat (nat_of_ascii c - 48).

Fixpoint digits_value (acc : Z) (s : string) : Z :=
  match s with
  | EmptyString => acc
  | String c r => digits_value (10 * acc + digit_value c) r
  end.

Definition all_digits (s : string) : bool :=
  String.eqb (take_while is_digit s) s.

(** [Number(piece)] on the pieces of a version string: the value of a run
    of digits, [None] (NaN) for a word such as [alpha]. *)
Definition Number (piece : string) : option Z :=
  match piece with
  | EmptyString => Some 0
  | _ => if all_digits piece then Some (digits_value 0 piece) else None
  end.

(** [parseInt(s)]: the value of the leading digits, NaN without any. *)
Definition parseInt (s : option string) : option Z :=
  match s with
  | Some t =>
      match take_while is_digit t with
      | EmptyString => None
      | run => Some (digits_value 0 run)
      end
  | None => None
  end.

(** The text after the first occurrence of [sep], which is
    [s.split(sep)[1]] when [sep] occurs once. *)
Fixpoint after_first (sep s : string) : option string :=
  match strip_prefix sep s with
  | Some r => Some r
  | None =>
      match s with
      | String _ r => after_first sep r
      | EmptyString => None
      end
  end.

(** Comparisons with a number that may be NaN are false on NaN. *)
Definition num_gt (a : option Z) (k : Z) : bool :=
  match a with Some x => k <? x | None => false end.

Definition num_ge (a : option Z) (k : Z) : bool :=
  match a with Some x => k <=? x | None => false end.

Definition num_eq (a : option Z) (k : Z) : bool :=
  match a with Some x => x =? k | None => false end.

(** [s.trim()] on ASCII text. *)
Definition trim (s : string) : string :=
  let t := drop_while is_space s in
  String.rev (drop_while is_space (String.rev t)).

(** [getCodexMcpCommand()].  [execOutput] is what
    [execSync('codex --version')] returned, [None] when it threw. *)
Definition getCodexMcpCommand (execOutput : option string) : option string :=
  match execOutput with
  | None => None
  | Some out =>
      let version := trim out in
      match match_version version with
      | None => None
      | Some versionStr =>
          let parts := Number <$> split_dash_dot versionStr in
          let major := mjoin (parts !! 0%nat) in
          let minor := mjoin (parts !! 1%nat) in
          let patch := mjoin (parts !! 2%nat) in
          if num_gt major 0 || num_gt minor 43 then Some "mcp-server"
          else if num_eq minor 43 && num_eq patch 0 then
            if Permission.includes versionStr "-alpha." then
              let alphaNum := parseInt (after_first "-alpha." versionStr) in
              if num_ge alphaNum 5 then Some "mcp-server" else Some "mcp"
            else Some "mcp-server"
          else Some "mcp"
      end
  end.

(** The transport that [connect()] creates on a client that is not yet
    connected; [None] when it throws ["Codex CLI not found or not
    executable"]. *)
Definition connect (execOutput : option string) : option McpCommand :=
  match getCodexMcpCommand execOutput with
  | None => None
  | Some mcpCommand =>
      Some {| mcp_command := "codex"; mcp_args := [mcpCommand] |}
  end.

End McpClient.

(** ** Abort-restart guard ([applyAbortRestart], [runCodex.ts]) *)

Module AbortRestart.

(** The queued user message; [mode] is opaque here. *)
Record Message := {
  message : string;
  mode : string;
  isolate : bool;
  hash : string
}.

Record AbortRestartState := {
  wasCreated : bool;
  currentModeHash : option string;
  thinking : bool
}.

(** A call of one of the six callbacks of [AbortRestartCallbacks]. *)
Inductive Call :=
  | clearSession
  | resetPermissions
  | abortReasoning
  | resetDiff
  | keepAlive (thinking : bool) (source : string)
  | addStatus (message : string).

#[export] Instance Call_eq_dec : EqDecision Call.
Proof. solve_decision. Defined.

Record Restart := {
  pending : Message;
  restart_wasCreated : bool;
  restart_currentModeHash : option string;
  restart_thinking : bool
}.

(** [s.repeat(n)]. *)
Fixpoint repeat_string (s : string) (n : nat) : string :=
  match n with
  | O => EmptyString
  | S n' => s +:+ repeat_string s n'
  end.

(** The function as listed in the implementation plan of the guard
    (Task 2, Step 1).  The calls made on the callbacks are returned in the
    order in which they are made. *)
Definition applyAbortRestart (message : Message) (state : AbortRestartState)
    : list Call * Restart :=
  ([ addStatus (repeat_string "═" 40);
     addStatus "Starting new Codex session (after abort)...";
     clearSession;
     resetPermissions;
     abortReasoning;
     resetDiff;
     keepAlive false "remote" ],
   {| pending := message;
      restart_wasCreated := false;
      restart_currentModeHash := None;
      restart_thinking := false |}).

(** How often the callback [c] of [callbacks] was called. *)
Definition same_callback (c d : Call) : bool :=
  match c, d with
  | clearSession, clearSession
  | resetPermissions, resetPermissions
  | abortReasoning, abortReasoning
  | resetDiff, resetDiff
  | keepAlive _ _, keepAlive _ _
  | addStatus _, addStatus _ => true
  | _, _ => false
  end.

Definition times_called (c : Call) (trace : list Call) : nat :=
  length (filter (fun d => same_callback c d = true) trace).

End AbortRestart.

(** ** Inputs of the repository's tests *)

Module Fixtures.
Import Elicitation Permission AbortRestart.

(** The parsed versions 0.77.0 and 0.78.0 of [elicitation.test.ts]. *)
Definition version_0_77_0 : CodexVersionInfo :=
  {| raw := Some "codex-cli 0.77.0"; parsed := true;
     major := 0; minor := 77; patch := 0;
     prereleaseTag := None; prereleaseNum := None |}.

Definition version_0_78_0 : CodexVersionInfo :=
  {| raw := Some "codex-cli 0.78.0"; parsed := true;
     major := 0; minor := 78; patch := 0;
     prereleaseTag := None; prereleaseNum := None |}.

(** A collation that orders nothing; the fixtures above carry no tag. *)
Definition no_collation (a b : string) : Z := 0.

(** Prereleases of 0.77.0: an info side and a target side. *)
Definition version_0_77_0_alpha_1 : CodexVersionInfo :=
  {| raw := Some "codex-cli 0.77.0-alpha.1"; parsed := true;
     major := 0; minor := 77; patch := 0;
     prereleaseTag := Some "alpha"; prereleaseNum := Some 1 |}.

Definition version_0_77_0_Beta_1 : CodexVersionInfo :=
  {| raw := Some "codex-cli 0.77.0-Beta.1"; parsed := true;
     major := 0; minor := 77; patch := 0;
     prereleaseTag := Some "Beta"; prereleaseNum := Some 1 |}.

Definition target_0_77_0_alpha_1 : CodexVersionTarget :=
  {| target_major := 0; target_minor := 77; target_patch := 0;
     target_prereleaseTag := Some "alpha"; target_prereleaseNum := Some 1 |}.

Definition target_0_77_0_beta_2 : CodexVersionTarget :=
  {| target_major := 0; target_minor := 77; target_patch := 0;
     target_prereleaseTag := Some "beta"; target_prereleaseNum := Some 2 |}.

(** The message and state of [abortRestart.test.ts]. *)
Definition test_message : Message :=
  {| message := "hello"; mode := "default"; isolate := false;
     hash := "mode-hash" |}.

Definition test_restart_state : AbortRestartState :=
  {| wasCreated := true; currentModeHash := Some "old"; thinking := true |}.

(** [new CodexPermissionHandler(new TestSession())]
    ([BasePermissionHandler.test.ts]). *)
Definition test_handler : State :=
  new_handler {| requests_field := None; completedRequests := ∅ |}.

(** A handler with three pending requests: one made by [handleToolCall],
    one whose [reject] throws, one whose [reject] calls [reset()] twice and
    then throws. *)
Definition handler_with_callbacks : State :=
  let st1 := (handleToolCall 1 (IdString "a") "CodexBash" "ls" test_handler).1 in
  let st2 :=
    addPendingRequestToState 2 (IdString "b") "CodexPatch" "{}"
      (registerPendingRequest "b"
         {| handle := 7; on_resolve := Return; on_reject := Throw;
            toolName := "CodexPatch"; input := "{}" |} st1) in
  addPendingRequestToState 3 (IdString "c") "CodexBash" "pwd"
    (registerPendingRequest "c"
       {| handle := 8; on_resolve := Return;
          on_reject := CallReset (CallReset Throw);
          toolName := "CodexBash"; input := "pwd" |} st2).

(** The second test of [BasePermissionHandler.test.ts]: the request
    ['exec-1'] for [CodexBash] and the response that approves it with an
    amendment. *)
Definition handler_awaiting_exec_1 : State :=
  (handleToolCall 10 (IdString "exec-1") "CodexBash" "yarn dev" test_handler).1.

Definition amendment_response : PermissionResponse :=
  {| id := IdString "exec-1";
     resp_approved := true;
     resp_decision := Some approved_execpolicy_amendment;
     resp_execPolicyAmendment := Some ["yarn"; "dev"] |}.


End Fixtures.

(** ** Package specs on the command line ([runner.ts]) *)

Module RunnerArgs.
Import Runner McpClient.

(** The line terminators, which [.] does not match: LF, CR, U+2028 and
    U+2029.  Text is held as UTF-8, where the last two are three bytes
    each. *)
Definition line_terminators : list string :=
  [String (ascii_of_nat 10) EmptyString;
   String (ascii_of_nat 13) EmptyString;
   String (ascii_of_nat 226)
     (String (ascii_of_nat 128) (String (ascii_of_nat 168) EmptyString));
   String (ascii_of_nat 226)
     (String (ascii_of_nat 128) (String (ascii_of_nat 169) EmptyString))].

(** [.*$]: from here to the end of the input no line terminator
    begins. *)
Fixpoint dots (s : string) : bool :=
  match s with
  | EmptyString => true
  | String _ r =>
      negb (existsb (fun t => String.prefix t s) line_terminators) && dots r
  end.

Fixpoint all_chars (p : ascii -> bool) (s : string) : bool :=
  match s with
  | EmptyString => true
  | String c r => p c && all_chars p r
  end.

(** [/^@openai\/codex@.+$/.test(value)]: the prefix, then one or more
    characters up to the end of the input, none of them a line
    terminator. *)
Definition is_codex_spec (value : string) : bool :=
  match strip_prefix "@openai/codex@" value with
  | Some rest =>
      negb (String.eqb rest "") && dots rest
  | None => false
  end.

Definition parseCodexPackageSpec (value : option string) : option string :=
  match value with
  | None => None
  | Some v =>
      if String.eqb v "" then None
      else if is_codex_spec v then Some v else None
  end.

Record Consumed := {
  spec : option string;
  rest_args : list string
}.

(** [consumeCodexPackageSpec(args)]; [!candidate] is JavaScript
    falsiness, so an empty candidate counts as none. *)
Definition consumeCodexPackageSpec (args : list string) : Consumed :=
  match args with
  | [] => {| spec := None; rest_args := args |}
  | first :: rest =>
      match parseCodexPackageSpec (Some first) with
      | Some candidate =>
          if String.eqb candidate "" then {| spec := None; rest_args := args |}
          else {| spec := Some candidate; rest_args := rest |}
      | None => {| spec := None; rest_args := args |}
      end
  end.

End RunnerArgs.

(** ** Version parsing ([parseCodexVersion], [elicitation.ts]) *)

Module VersionParser.
Import Elicitation McpClient.

(** [[a-z]] under the [i] flag, on ASCII text. *)
Definition is_letter (c : ascii) : bool :=
  let n := nat_of_ascii c in
  (((65 <=? n) && (n <=? 90)) || ((97 <=? n) && (n <=? 122)))%nat.

(** [[a-z]] without the flag. *)
Definition is_lower_letter (c : ascii) : bool :=
  let n := nat_of_ascii c in ((97 <=? n) && (n <=? 122))%nat.

(** [\w]. *)
Definition is_word (c : ascii) : bool :=
  is_letter c || is_digit c || Ascii.eqb c "_".

(** A literal matched under the [i] flag; [p] is given in lower case. *)
Fixpoint strip_prefix_ci (p s : string) : option string :=
  match p, s with
  | EmptyString, _ => Some s
  | String a p', String b s' =>
      if Ascii.eqb a (Permission.lower_ascii b) then strip_prefix_ci p' s'
      else None
  | String _ _, EmptyString => None
  end.

(** The capture groups 1 to 5. *)
Record Captures := {
  group1 : string;
  group2 : string;
  group3 : string;
  group4 : option string;
  group5 : option string
}.

(** [(\d+)\.(\d+)\.(\d+)] at the start of [s]: the three runs and the
    rest. *)
Definition match_triple (s : string) : option (string * string * string * string) :=
  '(a, r1) ← some_of is_digit s;
  r2 ← strip_prefix "." r1;
  '(b, r3) ← some_of is_digit r2;
  r4 ← strip_prefix "." r3;
  '(c, r5) ← some_of is_digit r4;
  Some (a, b, c, r5).

(** [-([a-z]+)\.(\d+)] at the start of [s]: tag, number and the rest. *)
Definition match_prerelease (letter : ascii -> bool) (s : string)
    : option (string * string * string) :=
  r1 ← strip_prefix "-" s;
  '(tag, r2) ← some_of letter r1;
  r3 ← strip_prefix "." r2;
  '(num, r4) ← some_of is_digit r3;
  Some (tag, num, r4).

Definition captures (t : string * string * string)
    (pre : option (string * string)) : Captures :=
  {| group1 := t.1.1; group2 := t.1.2; group3 := t.2;
     group4 := fst <$> pre; group5 := snd <$> pre |}.

(** The first expression,
    [(?:codex(?:-cli)?)\s+v?(\d+)\.(\d+)\.(\d+)(?:-([a-z]+)\.(\d+))?]
    with flag [i], matched at the start of [s]. *)
Definition match_named_here (s : string) : option Captures :=
  r0 ← strip_prefix_ci "codex" s;
  let r1 := default r0 (strip_prefix_ci "-cli" r0) in
  '(_, r2) ← some_of is_space r1;
  let r3 := default r2 (strip_prefix_ci "v" r2) in
  '(a, b, c, r4) ← match_triple r3;
  match match_prerelease is_letter r4 with
  | Some (tag, num, _) => Some (captures (a, b, c) (Some (tag, num)))
  | None => Some (captures (a, b, c) None)
  end.

Fixpoint match_named (s : string) : option Captures :=
  match match_named_here s with
  | Some m => Some m
  | None =>
      match s with
      | String _ r => match_named r
      | EmptyString => None
      end
  end.

(** [\b] after a digit: the end of the input or a character that is not
    a word character. *)
Definition at_boundary (s : string) : bool :=
  match s with
  | EmptyString => true
  | String c _ => negb (is_word c)
  end.

(** The second expression,
    [\b(\d+)\.(\d+)\.(\d+)(?:-([a-z]+)\.(\d+))?\b], matched at the start
    of [s]; [after_word] tells whether the character before is a word
    character.  When the prerelease part matches but is not followed by a
    boundary, the match ends before it, where the hyphen gives the
    boundary. *)
Definition match_bare_here (after_word : bool) (s : string) : option Captures :=
  if after_word then None
  else
    '(a, b, c, r) ← match_triple s;
    match match_prerelease is_lower_letter r with
    | Some (tag, num, r') =>
        if at_boundary r' then Some (captures (a, b, c) (Some (tag, num)))
        else Some (captures (a, b, c) None)
    | None =>
        if at_boundary r then Some (captures (a, b, c) None) else None
    end.

Fixpoint match_bare (after_word : bool) (s : string) : option Captures :=
  match match_bare_here after_word s with
  | Some m => Some m
  | None =>
      match s with
      | String c r => match_bare (is_word c) r
      | EmptyString => None
      end
  end.

Definition unparsed (raw : option string) : CodexVersionInfo :=
  {| raw := raw; parsed := false; major := 0; minor := 0; patch := 0;
     prereleaseTag := None; prereleaseNum := None |}.

(** [Number.MAX_SAFE_INTEGER], 2^53 - 1: up to it [Number] of a run of
    digits is the value of the digits, beyond it the nearest double. *)
Definition MAX_SAFE_INTEGER : N := 9007199254740991.

(** [Number] is applied to runs of digits only. *)
Definition parseCodexVersion (raw : option string) : CodexVersionInfo :=
  match raw with
  | None => unparsed raw
  | Some text =>
      if String.eqb text "" then unparsed raw
      else
        match default (match_bare false text) (Some <$> match_named text) with
        | None => unparsed raw
        | Some m =>
            {| raw := raw;
               parsed := true;
               major := digits_value 0 (group1 m);
               minor := digits_value 0 (group2 m);
               patch := digits_value 0 (group3 m);
               prereleaseTag := group4 m;
               prereleaseNum :=
                 match group5 m with
                 | Some num =>
                     if String.eqb num "" then None
                     else Some (digits_value 0 num)
                 | None => None
                 end |}
        end
  end.

End VersionParser.

(** ** The order of prerelease tags *)

Module Collation.
Import Permission.

Definition sign (c : comparison) : Z :=
  match c with
  | Lt => -1
  | Eq => 0
  | Gt => 1
  end.

(** Lexical string order: the order of the code units, which is what [<]
    gives on strings. *)
Definition lexical_order (a b : string) : comparison := String.compare a b.

(** The first level of the collation: the letters, whatever their case;
    a proper prefix comes first. *)
Fixpoint compare_letters (a b : string) : comparison :=
  match a, b with
  | EmptyString, EmptyString => Eq
  | EmptyString, String _ _ => Lt
  | String _ _, EmptyString => Gt
  | String x a', String y b' =>
      match Ascii.compare (lower_ascii x) (lower_ascii y) with
      | Eq => compare_letters a' b'
      | c => c
      end
  end.

(** The level consulted when the letters agree: at the first place where
    the case differs the lower-case letter comes first. *)
Fixpoint compare_case (a b : string) : comparison :=
  match a, b with
  | String x a', String y b' =>
      match Ascii.compare y x with
      | Eq => compare_case a' b'
      | c => c
      end
  | _, _ => Eq
  end.

(** [a.localeCompare(b)] on prerelease tags, which are runs of ASCII
    letters, under the root collation of ICU: the collation of the
    runtime when its locale is English, the default.  The result is -1, 0
    or 1. *)
Definition localeCompare (a b : string) : Z :=
  match compare_letters a b with
  | Eq => sign (compare_case a b)
  | c => sign c
  end.

End Collation.

(** ** Settled promises ([BasePermissionHandler.ts]) *)

Module Promises.
Import Elicitation Permission.

(** How the promise behind a handle ended: the value it was resolved
    with, or the message of the error it was rejected with. *)
Inductive Outcome :=
  | Resolved (r : PermissionResult)
  | Rejected (message : string).

Definition settles (e : Event) : option (nat * Outcome) :=
  match e with
  | EvResolve h r => Some (h, Resolved r)
  | EvReject h message => Some (h, Rejected message)
  | _ => None
  end.

(** The calls of [resolve] and [reject], in order. *)
Definition settlements (evs : list Event) : list (nat * Outcome) :=
  omap settles evs.

Fixpoint first_outcome (h : nat) (l : list (nat * Outcome)) : option Outcome :=
  match l with
  | [] => None
  | (h', o) :: l' => if decide (h' = h) then Some o else first_outcome h l'
  end.

(** A promise takes the first call of its [resolve] or [reject]; [None]
    while neither was called. *)
Definition await (h : nat) (evs : list Event) : option Outcome :=
  first_outcome h (settlements evs).

Definition pending_handles (st : State) : list nat :=
  (fun entry : string * PendingRequest => handle entry.2) <$> pendingRequests st.

Definition settled_handles (evs : list Event) : list nat :=
  (settlements evs).*1.

(** A second invariant of the reachable states: the handles in the
    pending table are distinct, issued and not settled; no handle is
    settled twice; every warning timer belongs to a pending request. *)
Definition well_tracked (st : State) : Prop :=
  NoDup (pending_handles st)
  ∧ NoDup (settled_handles (events st))
  ∧ (∀ h, h ∈ pending_handles st →
       (h < nextHandle st)%nat ∧ h ∉ settled_handles (events st))
  ∧ (∀ h, h ∈ settled_handles (events st) → (h < nextHandle st)%nat)
  ∧ (∀ id, is_Some (pendingWarningTimers st !! id) →
       is_Some (map_get id (pendingRequests st))).

(** One call of a method of the handler, or one permission response. *)
Inductive step : State -> State -> Prop :=
  | step_updateSession st a : step st (updateSession a st)
  | step_setPermissionMode st mode : step st (setPermissionMode mode st)
  | step_handleToolCall st now toolCallId toolName input :
      step st (handleToolCall now toolCallId toolName input st).1
  | step_permission_rpc st depth now response st' threw :
      permission_rpc depth now response st = Some (st', threw) ->
      step st st'
  | step_reset st depth now st' :
      reset depth now st = Some st' ->
      step st st'.

(** The handle is issued, and is neither in the pending table nor
    settled: nothing holds its [resolve] and [reject] any more. *)
Definition orphaned (h : nat) (st : State) : Prop :=
  (h < nextHandle st)%nat
  ∧ (h ∉ pending_handles st)
  ∧ (h ∉ settled_handles (events st)).

End Promises.

(** ** The MCP client around the permission handler ([codexMcpClient.ts]) *)

Module McpSession.
Import Elicitation Permission VersionParser Promises.

(** Values of type [any] that arrive as JSON. *)
#[warnings="-register-all"]
Inductive Json :=
  | JNull
  | JBool (b : bool)
  | JNumber (n : Z)
  | JString (s : string)
  | JArray (items : list Json)
  | JObject (fields : list (string * Json)).

(** [value?.key]; [None] is [undefined].  Only objects have the keys read
    here. *)
Definition field (key : string) (value : option Json) : option Json :=
  match value with
  | Some (JObject fields) => map_get key fields
  | _ => None
  end.

Definition truthy_json (value : option Json) : bool :=
  match value with
  | None | Some JNull => false
  | Some (JBool b) => b
  | Some (JNumber n) => negb (n =? 0)
  | Some (JString s) => negb (String.eqb s "")
  | Some (JArray _) | Some (JObject _) => true
  end.

(** [typeof value === 'object'] for a truthy value. *)
Definition is_object (value : option Json) : bool :=
  match value with
  | Some (JArray _) | Some (JObject _) => true
  | _ => false
  end.

(** [a ?? b]. *)
Definition nullish_or (a b : option Json) : option Json :=
  match a with
  | None | Some JNull => b
  | _ => a
  end.

(** [value === text]. *)
Definition is_string (text : string) (value : option Json) : bool :=
  match value with
  | Some (JString s) => String.eqb s text
  | _ => false
  end.

(** *** The cache of proposed exec-policy amendments *)

Definition nonempty_string (part : Json) : option string :=
  match part with
  | JString s => if String.eqb s "" then None else Some s
  | _ => None
  end.

Definition cacheExecPolicyAmendment (event : option Json)
    (execPolicyAmendments : gmap string (list string))
    : gmap string (list string) :=
  if negb (truthy_json event) || negb (is_object event) then execPolicyAmendments
  else if negb (is_string "exec_approval_request" (field "type" event))
  then execPolicyAmendments
  else
    let callId :=
      match field "call_id" event with
      | Some (JString s) => Some s
      | _ => None
      end in
    let proposed :=
      match field "proposed_execpolicy_amendment" event with
      | Some (JArray items) => omap nonempty_string items
      | _ => []
      end in
    match callId, proposed with
    | Some c, _ :: _ =>
        if String.eqb c "" then execPolicyAmendments
        else <[c := proposed]> execPolicyAmendments
    | _, _ => execPolicyAmendments
    end.

Definition consumeExecPolicyAmendment (callId eventId : option string)
    (execPolicyAmendments : gmap string (list string))
    : option (list string) * gmap string (list string) :=
  let cached :=
    if truthy callId then execPolicyAmendments !! default "" callId else None in
  let cached :=
    match cached with
    | None =>
        if truthy eventId then execPolicyAmendments !! default "" eventId
        else None
    | Some _ => cached
    end in
  let m1 :=
    if truthy callId then delete (default "" callId) execPolicyAmendments
    else execPolicyAmendments in
  let m2 := if truthy eventId then delete (default "" eventId) m1 else m1 in
  (cached, m2).

(** The invariant of the cache: no empty key, no empty list, no empty
    string in a list. *)
Definition well_formed_amendments (m : gmap string (list string)) : Prop :=
  ∀ key proposed,
    m !! key = Some proposed → key ≠ "" ∧ proposed ≠ [] ∧ "" ∉ proposed.

(** *** The detected version and the response style *)

(** [getCodexVersionInfo()]: [cached] is the module variable
    [cachedCodexVersionInfo], [execOutput] what [execSync] would return
    ([None] when it throws).  The result is the information and the new
    value of the variable. *)
Definition getCodexVersionInfo (cached : option CodexVersionInfo)
    (execOutput : option string) : CodexVersionInfo * option CodexVersionInfo :=
  match cached with
  | Some info => (info, cached)
  | None =>
      let info :=
        match execOutput with
        | Some out => parseCodexVersion (Some (McpClient.trim out))
        | None => parseCodexVersion None
        end in
      (info, Some info)
  end.

(** The style chosen in [registerPermissionHandlers]; [env] is
    [process.env.HAPPY_CODEX_ELICITATION_STYLE]. *)
Definition responseStyle (localeCompare : string -> string -> Z)
    (versionInfo : CodexVersionInfo) (env : option string)
    : ElicitationResponseStyle :=
  getElicitationResponseStyle localeCompare versionInfo (toLowerCase <$> env).

(** *** The elicitation request handler *)

Record ElicitationParams := {
  codex_elicitation : string;
  codex_mcp_tool_call_id : option string;
  codex_event_id : option string;
  codex_call_id : option string
}.

(** The client: the amendment cache and the permission handler, if one is
    set. *)
Record Client := {
  execPolicyAmendments : gmap string (list string);
  permissionHandler : option State
}.

(** [String(a ?? b ?? c ?? extra?.requestId ?? randomUUID())]. *)
Definition permissionId (params : ElicitationParams)
    (extraRequestId : option RequestId) (uuid : string) : string :=
  match codex_call_id params with
  | Some s => s
  | None =>
      match codex_mcp_tool_call_id params with
      | Some s => s
      | None =>
          match codex_event_id params with
          | Some s => s
          | None =>
              match extraRequestId with
              | Some i => normalizeRequestId i
              | None => uuid
              end
          end
      end
  end.

(** The reply once the permission is known: [outcome] is how the promise
    of [handleToolCall] ended. *)
Definition reply (style : ElicitationResponseStyle) (outcome : Outcome)
    : ElicitationResponse :=
  match outcome with
  | Resolved result =>
      let decision := mapPermissionResultToDecision result in
      let action := mapDecisionToAction decision in
      buildElicitationResponse style action decision
  | Rejected _ => buildElicitationResponse style decline (ReviewTag denied)
  end.

(** What the handler has done when it first gives up control: it has
    replied, or it waits on a handle. *)
Inductive Progress :=
  | Replied (response : ElicitationResponse)
  | Waiting (h : nat).

(** The request handler up to its [await].  [toolInput] builds the tool
    input from the cached amendment; the handler passes it on unread. *)
Definition elicitation_request (style : ElicitationResponseStyle) (now : Z)
    (params : ElicitationParams) (extraRequestId : option RequestId)
    (uuid : string) (toolInput : option (list string) -> Input)
    (client : Client) : Client * Progress :=
  let permissionId := permissionId params extraRequestId uuid in
  let isPatchApproval := String.eqb (codex_elicitation params) "patch-approval" in
  let toolName := if isPatchApproval then "CodexPatch" else "CodexBash" in
  let '(cachedAmendment, amendments) :=
    consumeExecPolicyAmendment (codex_call_id params) (codex_event_id params)
      (execPolicyAmendments client) in
  let input := toolInput cachedAmendment in
  match permissionHandler client with
  | None =>
      ({| execPolicyAmendments := amendments; permissionHandler := None |},
       Replied (buildElicitationResponse style decline (ReviewTag denied)))
  | Some handler =>
      let '(handler', result) :=
        handleToolCall now (IdString permissionId) toolName input handler in
      ({| execPolicyAmendments := amendments; permissionHandler := Some handler' |},
       match result with
       | Fulfilled r => Replied (reply style (Resolved r))
       | Awaiting h => Waiting h
       end)
  end.

(** The reply of a waiting handler, once the handle is settled. *)
Definition elicitation_reply (style : ElicitationResponseStyle) (h : nat)
    (handler : State) : option ElicitationResponse :=
  reply style <$> await h (events handler).

(** *** Session identifiers *)

Record Identifiers := {
  sessionId : option Json;
  conversationId : option Json
}.

Definition set_if_truthy (value current : option Json) : option Json :=
  if truthy_json value then value else current.

Definition update_from_candidate (ids : Identifiers) (candidate : option Json)
    : Identifiers :=
  {| sessionId :=
       set_if_truthy
         (nullish_or (field "session_id" candidate) (field "sessionId" candidate))
         (sessionId ids);
     conversationId :=
       set_if_truthy
         (nullish_or (field "conversation_id" candidate)
            (field "conversationId" candidate))
         (conversationId ids) |}.

Definition updateIdentifiersFromEvent (event : option Json) (ids : Identifiers)
    : Identifiers :=
  if negb (truthy_json event) || negb (is_object event) then ids
  else
    let data := field "data" event in
    let candidates :=
      if truthy_json data && is_object data then [event; data] else [event] in
    foldl update_from_candidate ids candidates.

Definition from_content_item (ids : Identifiers) (item : Json) : Identifiers :=
  {| sessionId :=
       if negb (truthy_json (sessionId ids))
          && truthy_json (field "sessionId" (Some item))
       then field "sessionId" (Some item) else sessionId ids;
     conversationId :=
       if negb (truthy_json (conversationId ids))
          && truthy_json (field "conversationId" (Some item))
       then field "conversationId" (Some item) else conversationId ids |}.

Definition extractIdentifiers (response : option Json) (ids : Identifiers)
    : Identifiers :=
  let meta :=
    if truthy_json (field "meta" response) then field "meta" response
    else Some (JObject []) in
  let ids1 :=
    {| sessionId :=
         if truthy_json (field "sessionId" meta) then field "sessionId" meta
         else set_if_truthy (field "sessionId" response) (sessionId ids);
       conversationId :=
         if truthy_json (field "conversationId" meta)
         then field "conversationId" meta
         else set_if_truthy (field "conversationId" response)
                (conversationId ids) |} in
  match field "content" response with
  | Some (JArray content) => foldl from_content_item ids1 content
  | _ => ids1
  end.

Definition clearSession (ids : Identifiers) : Identifiers :=
  {| sessionId := None; conversationId := None |}.

Definition hasActiveSession (ids : Identifiers) : bool :=
  match sessionId ids with
  | None => false
  | Some _ => true
  end.

(** [connect()] as its callers see it: it returns at once on a connected
    client; otherwise it throws when [codex --version] gives no subcommand,
    or when the transport it creates does not start ([transportStarts],
    the outcome of [client.connect(transport)]).  [true] when the call
    returns. *)
Definition connect_returns (connected : bool) (execOutput : option string)
    (transportStarts : bool) : bool :=
  if connected then true
  else
    match McpClient.connect execOutput with
    | Some _ => transportStarts
    | None => false
    end.

(** [continueSession] up to the tool call: [None] when it throws, which
    it does when [if (!this.connected) await this.connect()] throws and,
    with ["No active session. Call startSession first."], when there is no
    session id; else the identifiers it goes on with. *)
Definition continueSession_identifiers (connected : bool)
    (execOutput : option string) (transportStarts : bool) (ids : Identifiers)
    : option Identifiers :=
  if negb (connect_returns connected execOutput transportStarts) then None
  else if negb (truthy_json (sessionId ids)) then None
  else if negb (truthy_json (conversationId ids))
  then Some {| sessionId := sessionId ids; conversationId := sessionId ids |}
  else Some ids.

(** The identifiers of a client, from a new client on. *)
Inductive ids_reachable : Identifiers -> Prop :=
  | ids_new : ids_reachable {| sessionId := None; conversationId := None |}
  | ids_event ids event :
      ids_reachable ids -> ids_reachable (updateIdentifiersFromEvent event ids)
  | ids_response ids response :
      ids_reachable ids -> ids_reachable (extractIdentifiers response ids)
  | ids_clear ids :
      ids_reachable ids -> ids_reachable (clearSession ids)
  | ids_continue connected execOutput transportStarts ids ids' :
      ids_reachable ids ->
      continueSession_identifiers connected execOutput transportStarts ids
      = Some ids' ->
      ids_reachable ids'.

End McpSession.

(** * Properties *)

(** ** Runner resolver and MCP client *)

Section RunnerProperties.
Import Runner McpClient.

Lemma buildCodexMcpCommand_args_last (runner : CodexRunner) :
  last (mcp_args (buildCodexMcpCommand runner)) = Some "mcp-server"
  ∧ length (mcp_args (buildCodexMcpCommand runner)) = S (length (args runner)).
Proof.
  unfold buildCodexMcpCommand; simpl. split.
  - by rewrite last_snoc.
  - rewrite length_app. simpl. lia.
Qed.

Lemma buildCodexMcpCommand_npx :
  buildCodexMcpCommand (buildCodexRunner (Some "@openai/codex@latest"))
  = {| mcp_command := "npx";
       mcp_args := ["-y"; "@openai/codex@latest"; "mcp-server"] |}.
Proof. reflexivity. Qed.

Lemma getCodexMcpCommand_new_version :
  getCodexMcpCommand (Some "codex-cli 0.92.0") = Some "mcp-server".
Proof. vm_compute. reflexivity. Qed.

(** C9.  [buildCodexMcpCommand] keeps the runner's command and appends the
    one token [mcp-server] to the runner's arguments, for every runner.
    It is not the only place where the subcommand is chosen: [connect]
    of the MCP client never calls it and takes the subcommand from
    [getCodexMcpCommand], which answers [mcp] when [codex --version]
    prints [codex-cli 0.42.0]; the transport then differs from the
    command built for the default runner. *)
Theorem buildCodexMcpCommand_appends_connect_sniffs_version :
  (∀ runner : CodexRunner,
     buildCodexMcpCommand runner
     = {| mcp_command := command runner;
          mcp_args := args runner ++ ["mcp-server"] |})
  ∧ getCodexMcpCommand (Some "codex-cli 0.42.0") = Some "mcp"
  ∧ connect (Some "codex-cli 0.42.0")
    = Some {| mcp_command := "codex"; mcp_args := ["mcp"] |}
  ∧ connect (Some "codex-cli 0.42.0")
    ≠ Some (buildCodexMcpCommand (buildCodexRunner None)).
Proof.
  split; [reflexivity|].
  split; [vm_compute; reflexivity|].
  split; [vm_compute; reflexivity|].
  vm_compute. discriminate.
Qed.

End RunnerProperties.

(** ** Elicitation codec *)

Section ElicitationProperties.
Import Elicitation.

Lemma has_command_true (a : option (list string)) :
  has_command a = true ↔ ∃ cmd, a = Some cmd ∧ cmd ≠ [].
Proof.
  split.
  - destruct a as [[|c cmd]|]; simpl; try discriminate.
    intros _. by exists (c :: cmd).
  - intros (cmd & -> & Hne). by destruct cmd.
Qed.

Lemma has_command_false (a : option (list string)) :
  has_command a = false ↔ a = None ∨ a = Some [].
Proof.
  split.
  - destruct a as [[|c cmd]|]; simpl; try discriminate; auto.
  - intros [-> | ->]; reflexivity.
Qed.

(** C5.  [mapPermissionResultToDecision] gives the amendment shape with
    command list [cmd] exactly when the result is tagged
    [approved_execpolicy_amendment] and carries the non-empty list [cmd];
    an amendment-tagged result with a missing or empty list gives plain
    [approved]; every other decision is returned as it is. *)
Theorem mapPermissionResultToDecision_spec (result : PermissionResult) :
  (∀ cmd,
     mapPermissionResultToDecision result = ReviewAmendment cmd
     ↔ decision result = approved_execpolicy_amendment
       ∧ execPolicyAmendment result = Some cmd ∧ cmd ≠ [])
  ∧ (decision result = approved_execpolicy_amendment →
     execPolicyAmendment result = None ∨ execPolicyAmendment result = Some [] →
     mapPermissionResultToDecision result = ReviewTag approved)
  ∧ (decision result ≠ approved_execpolicy_amendment →
     mapPermissionResultToDecision result = ReviewTag (decision result)).
Proof.
  destruct result as [d a]. unfold mapPermissionResultToDecision. simpl.
  split; [|split].
  - intros cmd. split.
    + destruct d; try discriminate.
      destruct a as [[|c l]|]; simpl; try discriminate.
      intros [= <-]. done.
    + intros (-> & -> & Hne). destruct cmd as [|c l]; [done|reflexivity].
  - intros -> [-> | ->]; reflexivity.
  - intros Hd. destruct d; try reflexivity. done.
Qed.

Lemma mapPermissionResultToDecision_spec_witness :
  mapPermissionResultToDecision
    {| decision := approved_execpolicy_amendment; execPolicyAmendment := Some [] |}
  = ReviewTag approved
  ∧ mapPermissionResultToDecision
      {| decision := denied; execPolicyAmendment := Some ["yarn"] |}
    = ReviewTag denied.
Proof.
  split.
  - apply (proj1 (proj2 (mapPermissionResultToDecision_spec
      {| decision := approved_execpolicy_amendment;
         execPolicyAmendment := Some [] |}))); simpl; [reflexivity | by right].
  - apply (proj2 (proj2 (mapPermissionResultToDecision_spec
      {| decision := denied; execPolicyAmendment := Some ["yarn"] |}))).
    simpl. discriminate.
Defined.

Lemma mapPermissionResultToDecision_yarn :
  mapPermissionResultToDecision
    {| decision := approved_execpolicy_amendment;
       execPolicyAmendment := Some ["yarn"] |}
  = ReviewAmendment ["yarn"].
Proof. reflexivity. Qed.

(** The decision string [approved_execpolicy_amendment] itself never
    reaches the wire. *)
Lemma mapPermissionResultToDecision_no_bare_amendment (result : PermissionResult) :
  mapPermissionResultToDecision result ≠ ReviewTag approved_execpolicy_amendment.
Proof.
  destruct result as [d a]. unfold mapPermissionResultToDecision. simpl.
  destruct d; try discriminate. destruct (has_command a); discriminate.
Qed.

End ElicitationProperties.

(** ** Version negotiation *)

Section VersionProperties.
Import Elicitation.

Variable localeCompare : string → string → Z.

Lemma truthy_true (t : option string) :
  truthy t = true ↔ ∃ a, t = Some a ∧ a ≠ "".
Proof.
  unfold truthy. split.
  - destruct t as [a|]; [|discriminate].
    destruct (String.eqb_spec a ""); [discriminate|]. intros _. by exists a.
  - intros (a & -> & Hne). by destruct (String.eqb_spec a "").
Qed.

Lemma truthy_false (t : option string) :
  truthy t = false ↔ t = None ∨ t = Some "".
Proof.
  unfold truthy. split.
  - destruct t as [a|]; [|auto].
    destruct (String.eqb_spec a ""); [subst; auto|discriminate].
  - intros [-> | ->]; reflexivity.
Qed.

Ltac split_eqb :=
  repeat match goal with
  | |- context [Z.eqb ?a ?b] => destruct (Z.eqb_spec a b); simpl
  end.

(** Differing triples: the value is the difference of the first
    component that differs. *)
Lemma compareVersions_triple info target :
  (major info ≠ target_major target →
   compareVersions localeCompare info target = major info - target_major target)
  ∧ (major info = target_major target → minor info ≠ target_minor target →
     compareVersions localeCompare info target = minor info - target_minor target)
  ∧ (major info = target_major target → minor info = target_minor target →
     patch info ≠ target_patch target →
     compareVersions localeCompare info target = patch info - target_patch target).
Proof.
  unfold compareVersions. repeat split; intros; split_eqb; congruence.
Qed.

(** Hence the sign follows the lexicographic order of the triples. *)
Lemma compareVersions_sign info target :
  (major info < target_major target
   ∨ (major info = target_major target ∧ minor info < target_minor target)
   ∨ (major info = target_major target ∧ minor info = target_minor target
      ∧ patch info < target_patch target) →
   compareVersions localeCompare info target < 0)
  ∧ (major info > target_major target
     ∨ (major info = target_major target ∧ minor info > target_minor target)
     ∨ (major info = target_major target ∧ minor info = target_minor target
        ∧ patch info > target_patch target) →
     compareVersions localeCompare info target > 0).
Proof.
  destruct (compareVersions_triple info target) as (Hmaj & Hmin & Hpat).
  split; intros [H | [[E H] | (E1 & E2 & H)]].
  - rewrite Hmaj; lia.
  - rewrite Hmin; lia.
  - rewrite Hpat; lia.
  - rewrite Hmaj; lia.
  - rewrite Hmin; lia.
  - rewrite Hpat; lia.
Qed.

(** The cases of [compareVersions], whatever the collation: the triples
    first; on equal triples the tags, where a tag is absent when the field
    is undefined or the empty string, as the code tests it. *)
Lemma compareVersions_cases info target :
  let c := compareVersions localeCompare info target in
  let infoTag := prereleaseTag info in
  let targetTag := target_prereleaseTag target in
  (major info < target_major target
   ∨ (major info = target_major target ∧ minor info < target_minor target)
   ∨ (major info = target_major target ∧ minor info = target_minor target
      ∧ patch info < target_patch target) → c < 0)
  ∧ (major info > target_major target
     ∨ (major info = target_major target ∧ minor info > target_minor target)
     ∨ (major info = target_major target ∧ minor info = target_minor target
        ∧ patch info > target_patch target) → c > 0)
  ∧ (major info = target_major target → minor info = target_minor target →
     patch info = target_patch target →
     (truthy infoTag = false → truthy targetTag = false → c = 0)
     ∧ (truthy infoTag = true → truthy targetTag = false → c = -1)
     ∧ (truthy infoTag = false → truthy targetTag = true → c = 1)
     ∧ (∀ a b, infoTag = Some a → targetTag = Some b → a ≠ "" → b ≠ "" →
          a ≠ b → c = localeCompare a b)
     ∧ (∀ a, infoTag = Some a → targetTag = Some a → a ≠ "" →
          c = default 0 (prereleaseNum info)
              - default 0 (target_prereleaseNum target))).
Proof.
  intros c infoTag targetTag.
  destruct (compareVersions_sign info target) as (Hlt & Hgt).
  split; [exact Hlt|]. split; [exact Hgt|].
  - intros E1 E2 E3. subst c. unfold compareVersions.
    rewrite E1, E2, E3, !Z.eqb_refl. simpl.
    fold infoTag targetTag.
    repeat split.
    + intros -> ->. reflexivity.
    + intros -> ->. reflexivity.
    + intros -> ->. reflexivity.
    + intros a b Ha Hb Hane Hbne Hab.
      assert (truthy infoTag = true) as -> by (apply truthy_true; eauto).
      assert (truthy targetTag = true) as -> by (apply truthy_true; eauto).
      simpl. rewrite Ha, Hb. rewrite bool_decide_eq_false_2 by congruence.
      reflexivity.
    + intros a Ha Hb Hane.
      assert (truthy infoTag = true) as -> by (apply truthy_true; eauto).
      assert (truthy targetTag = true) as -> by (apply truthy_true; eauto).
      simpl. rewrite Ha, Hb. rewrite bool_decide_eq_true_2 by reflexivity.
      reflexivity.
Qed.

(** Against the cut-off 0.77.0, which has no tag, the comparison never
    consults [localeCompare]. *)
Lemma compareVersions_cutoff info :
  major info = 0 → minor info = 77 → patch info = 0 →
  compareVersions localeCompare info ELICITATION_DECISION_MAX_VERSION
  = if truthy (prereleaseTag info) then -1 else 0.
Proof.
  intros E1 E2 E3. unfold compareVersions. simpl. rewrite E1, E2, E3. simpl.
  by destruct (truthy (prereleaseTag info)).
Qed.

(** C6.  An override of exactly [decision] or [both] is returned whatever
    the version.  Without one: unparsed version information gives
    [both]; a parsed version whose (major, minor, patch) is at or below
    (0, 77, 0) gives [decision]; a parsed version above it gives [both]. *)
Theorem getElicitationResponseStyle_spec info override :
  let style := getElicitationResponseStyle localeCompare info override in
  (override = Some "decision" → style = style_decision)
  ∧ (override = Some "both" → style = style_both)
  ∧ (override ≠ Some "decision" → override ≠ Some "both" →
     (parsed info = false → style = style_both)
     ∧ (parsed info = true →
        major info < 0 ∨ (major info = 0 ∧ minor info < 77)
        ∨ (major info = 0 ∧ minor info = 77 ∧ patch info ≤ 0) →
        style = style_decision)
     ∧ (parsed info = true →
        major info > 0 ∨ (major info = 0 ∧ minor info > 77)
        ∨ (major info = 0 ∧ minor info = 77 ∧ patch info > 0) →
        style = style_both)).
Proof.
  intros style. subst style. unfold getElicitationResponseStyle.
  split; [|split].
  - intros ->. reflexivity.
  - intros ->. reflexivity.
  - intros Hd Hb.
    rewrite (bool_decide_eq_false_2 _ Hd), (bool_decide_eq_false_2 _ Hb).
    split; [|split].
    + intros ->. reflexivity.
    + intros Hp Hle. unfold isVersionAtMost. rewrite Hp. simpl.
      destruct (compareVersions_sign info ELICITATION_DECISION_MAX_VERSION)
        as (Hlt & _). simpl in Hlt.
      assert (compareVersions localeCompare info
                ELICITATION_DECISION_MAX_VERSION ≤ 0) as Hc.
      { destruct (decide (major info = 0 ∧ minor info = 77 ∧ patch info = 0))
          as [(E1 & E2 & E3)|Hne].
        - rewrite compareVersions_cutoff by done.
          destruct (truthy (prereleaseTag info)); lia.
        - apply Z.lt_le_incl, Hlt. lia. }
      apply Z.leb_le in Hc. rewrite Hc. reflexivity.
    + intros Hp Hgt. unfold isVersionAtMost. rewrite Hp. simpl.
      destruct (compareVersions_sign info ELICITATION_DECISION_MAX_VERSION)
        as (_ & Hpos). simpl in Hpos.
      specialize (Hpos Hgt).
      destruct (Z.leb_spec (compareVersions localeCompare info
                              ELICITATION_DECISION_MAX_VERSION) 0); [lia|].
      reflexivity.
Qed.

End VersionProperties.

Section VersionExamples.
Import Elicitation Fixtures.

Lemma getElicitationResponseStyle_spec_witness :
  getElicitationResponseStyle no_collation version_0_77_0 None = style_decision
  ∧ getElicitationResponseStyle no_collation version_0_78_0 None = style_both
  ∧ getElicitationResponseStyle no_collation version_0_78_0 (Some "decision")
    = style_decision.
Proof.
  assert (None ≠ Some "decision") as Hd by discriminate.
  assert (None ≠ Some "both") as Hb by discriminate.
  split; [|split].
  - destruct (getElicitationResponseStyle_spec no_collation version_0_77_0 None)
      as (_ & _ & H).
    apply (proj1 (proj2 (H Hd Hb))); [reflexivity|].
    right; right. simpl. lia.
  - destruct (getElicitationResponseStyle_spec no_collation version_0_78_0 None)
      as (_ & _ & H).
    apply (proj2 (proj2 (H Hd Hb))); [reflexivity|].
    right; left. simpl. lia.
  - apply (proj1 (getElicitationResponseStyle_spec no_collation version_0_78_0
                    (Some "decision"))). reflexivity.
Defined.

End VersionExamples.

(** ** Version negotiator: the order of prerelease tags *)

Section CollationProperties.
Import Elicitation RunnerArgs VersionParser Fixtures.

Lemma lower_ascii_lower_letter c :
  is_lower_letter c = true → Permission.lower_ascii c = c.
Proof.
  unfold is_lower_letter, Permission.lower_ascii.
  intros [H1 H2]%andb_prop. apply Nat.leb_le in H1.
  destruct (Nat.leb_spec 65 (nat_of_ascii c));
    destruct (Nat.leb_spec (nat_of_ascii c) 90); cbn; try reflexivity.
  lia.
Qed.

(** On lower-case letters the first level is the order of the code
    units. *)
Lemma compare_letters_lower a b :
  all_chars is_lower_letter a = true →
  all_chars is_lower_letter b = true →
  Collation.compare_letters a b = String.compare a b.
Proof.
  revert b. induction a as [|x a IH]; intros [|y b]; try reflexivity.
  cbn [all_chars Collation.compare_letters String.compare].
  intros [Hx Ha]%andb_prop [Hy Hb]%andb_prop.
  rewrite !lower_ascii_lower_letter, IH by done. reflexivity.
Qed.

Lemma compare_case_refl a : Collation.compare_case a a = Eq.
Proof.
  induction a as [|x a IH]; [reflexivity|]. cbn [Collation.compare_case].
  unfold Ascii.compare. rewrite N.compare_refl. exact IH.
Qed.

Lemma localeCompare_lower a b :
  all_chars is_lower_letter a = true →
  all_chars is_lower_letter b = true →
  Collation.localeCompare a b = Collation.sign (Collation.lexical_order a b).
Proof.
  intros Ha Hb. unfold Collation.localeCompare, Collation.lexical_order.
  rewrite compare_letters_lower by done.
  destruct (String.compare a b) eqn:Hc; try reflexivity.
  apply String.compare_eq_iff in Hc as ->. by rewrite compare_case_refl.
Qed.

(** C7, as the code has it.  [compareVersions] orders by (major, minor,
    patch) lexicographically.  On equal triples: two absent tags compare
    equal; a tag on the info side only gives a negative result, a tag on
    the target side only a positive one; equal tags compare by the
    numeric suffixes, an absent suffix counting as 0; two different tags
    compare as [localeCompare] orders them, whatever collation it
    follows.  Under the root collation that is the lexical string order
    when both tags are in lower-case letters; it is not in general, since
    the collation looks at the letters before it looks at their case.  A
    tag is absent when the field is undefined or the empty string, as the
    code tests it. *)
Theorem compareVersions_orders (localeCompare : string → string → Z)
    info target :
  let c := compareVersions localeCompare info target in
  let infoTag := prereleaseTag info in
  let targetTag := target_prereleaseTag target in
  (major info < target_major target
   ∨ (major info = target_major target ∧ minor info < target_minor target)
   ∨ (major info = target_major target ∧ minor info = target_minor target
      ∧ patch info < target_patch target) → c < 0)
  ∧ (major info > target_major target
     ∨ (major info = target_major target ∧ minor info > target_minor target)
     ∨ (major info = target_major target ∧ minor info = target_minor target
        ∧ patch info > target_patch target) → c > 0)
  ∧ (major info = target_major target → minor info = target_minor target →
     patch info = target_patch target →
     (truthy infoTag = false → truthy targetTag = false → c = 0)
     ∧ (truthy infoTag = true → truthy targetTag = false → c = -1)
     ∧ (truthy infoTag = false → truthy targetTag = true → c = 1)
     ∧ (∀ a, infoTag = Some a → targetTag = Some a → a ≠ "" →
          c = default 0 (prereleaseNum info)
              - default 0 (target_prereleaseNum target))
     ∧ (∀ a b, infoTag = Some a → targetTag = Some b → a ≠ "" → b ≠ "" →
          a ≠ b →
          c = localeCompare a b
          ∧ compareVersions Collation.localeCompare info target
            = Collation.localeCompare a b
          ∧ (all_chars is_lower_letter a = true →
             all_chars is_lower_letter b = true →
             compareVersions Collation.localeCompare info target
             = Collation.sign (Collation.lexical_order a b)))).
Proof.
  intros c infoTag targetTag.
  destruct (compareVersions_cases localeCompare info target)
    as (Hlt & Hgt & Heq).
  split; [exact Hlt|]. split; [exact Hgt|].
  intros E1 E2 E3.
  destruct (Heq E1 E2 E3) as (H00 & H10 & H01 & Hdiff & Hsame).
  split; [exact H00|]. split; [exact H10|]. split; [exact H01|].
  split; [exact Hsame|].
  intros a b Ha Hb Hane Hbne Hab.
  destruct (compareVersions_cases Collation.localeCompare info target)
    as (_ & _ & Heq').
  destruct (Heq' E1 E2 E3) as (_ & _ & _ & Hdiff' & _).
  split; [by apply Hdiff|]. split; [by apply Hdiff'|].
  intros Hla Hlb. rewrite (Hdiff' a b) by done.
  by apply localeCompare_lower.
Qed.

Lemma compareVersions_orders_witness :
  compareVersions Collation.localeCompare version_0_77_0_alpha_1
    target_0_77_0_beta_2
  = -1.
Proof.
  destruct (compareVersions_orders no_collation version_0_77_0_alpha_1
              target_0_77_0_beta_2) as (_ & _ & H).
  destruct (H eq_refl eq_refl eq_refl) as (_ & _ & _ & _ & Hdiff).
  destruct (Hdiff "alpha" "beta" eq_refl eq_refl) as (_ & _ & Hlexical);
    [discriminate..|].
  rewrite Hlexical; reflexivity.
Defined.

(** C7, as stated, fails on tags that differ in case.  [codex-cli
    0.77.0-Beta.1] parses with the tag [Beta]; against a target with the
    tag [alpha] the lexical string order puts [Beta] first, since the code
    unit of [B] is below that of [a], but [localeCompare] puts it last, and
    the result is positive. *)
Lemma compareVersions_tags_not_in_lexical_order :
  parseCodexVersion (Some "codex-cli 0.77.0-Beta.1") = version_0_77_0_Beta_1
  ∧ Collation.lexical_order "Beta" "alpha" = Lt
  ∧ compareVersions Collation.localeCompare version_0_77_0_Beta_1
      target_0_77_0_alpha_1
    = 1
  ∧ ¬ compareVersions Collation.localeCompare version_0_77_0_Beta_1
        target_0_77_0_alpha_1
      < 0.
Proof.
  split; [vm_compute; reflexivity|]. split; [reflexivity|].
  split; [vm_compute; reflexivity|]. vm_compute. discriminate.
Qed.

End CollationProperties.

(** ** Abort-restart guard *)

Section AbortRestartProperties.
Import AbortRestart Fixtures.

(** C4, as the code has it.  For every message and state the guard first
    surfaces two status lines (a rule of forty box-drawing characters and
    the restart notice), then calls [clearSession], [resetPermissions],
    [abortReasoning], [resetDiff] and [keepAlive(false, 'remote')] once
    each, in that order and without any condition, and returns the same
    message as [pending] with [wasCreated = false],
    [currentModeHash = null] and [thinking = false]. *)
Theorem applyAbortRestart_calls_and_result message state :
  let '(trace, restart) := applyAbortRestart message state in
  trace = [ addStatus (repeat_string "═" 40);
            addStatus "Starting new Codex session (after abort)...";
            clearSession; resetPermissions; abortReasoning; resetDiff;
            keepAlive false "remote" ]
  ∧ times_called clearSession trace = 1%nat
  ∧ times_called resetPermissions trace = 1%nat
  ∧ times_called abortReasoning trace = 1%nat
  ∧ times_called resetDiff trace = 1%nat
  ∧ times_called (keepAlive false "remote") trace = 1%nat
  ∧ times_called (addStatus "") trace = 2%nat
  ∧ pending restart = message
  ∧ restart_wasCreated restart = false
  ∧ restart_currentModeHash restart = None
  ∧ restart_thinking restart = false.
Proof. simpl. repeat split. Qed.

(** C4, as stated, fails on the input of the repository's test: the status
    callback is called twice, not once, and it is called first, so the
    calls are not the six collaborators once each in the stated order. *)
Lemma applyAbortRestart_status_called_twice_and_first :
  let trace := (applyAbortRestart test_message test_restart_state).1 in
  times_called (addStatus "") trace = 2%nat
  ∧ head trace ≠ Some clearSession
  ∧ ¬ ∃ line, trace = [ clearSession; resetPermissions; abortReasoning;
                        resetDiff; keepAlive false "remote"; addStatus line ].
Proof.
  simpl. split; [reflexivity|]. split; [discriminate|].
  intros (line & H). discriminate H.
Qed.

End AbortRestartProperties.

(** ** Permission bridge: auto-approval *)

Section AutoApproveProperties.
Import Elicitation Permission Fixtures.

Lemma shouldAutoApprove_yolo toolName toolCallId input st :
  currentPermissionMode st = mode_yolo →
  shouldAutoApprove toolName toolCallId input st = true.
Proof.
  intros Hmode. unfold shouldAutoApprove. rewrite Hmode.
  repeat match goal with |- context [if ?b then _ else _] => destruct b end;
    reflexivity.
Qed.

Lemma shouldAutoApprove_safe_yolo toolName toolCallId input st :
  currentPermissionMode st = mode_safe_yolo →
  shouldAutoApprove toolName toolCallId input st = true.
Proof.
  intros Hmode. unfold shouldAutoApprove. rewrite Hmode.
  repeat match goal with |- context [if ?b then _ else _] => destruct b end;
    reflexivity.
Qed.

Lemma shouldAutoApprove_name toolName toolCallId input st name :
  name ∈ alwaysAutoApproveNames →
  includes (toLowerCase toolName) (toLowerCase name) = true →
  shouldAutoApprove toolName toolCallId input st = true.
Proof.
  intros Hin Hinc. unfold shouldAutoApprove.
  assert (existsb (λ name, includes (toLowerCase toolName) (toLowerCase name))
            alwaysAutoApproveNames = true) as ->; [|reflexivity].
  apply existsb_exists. exists name. split; [|done].
  by apply list_elem_of_In.
Qed.

Lemma shouldAutoApprove_id toolName toolCallId input st id :
  id ∈ alwaysAutoApproveIds →
  includes (toLowerCase toolCallId) (toLowerCase id) = true →
  shouldAutoApprove toolName toolCallId input st = true.
Proof.
  intros Hin Hinc. unfold shouldAutoApprove.
  assert (existsb (λ id, includes (toLowerCase toolCallId) (toLowerCase id))
            alwaysAutoApproveIds = true) as ->.
  { apply existsb_exists. exists id. split; [|done]. by apply list_elem_of_In. }
  by destruct (existsb _ alwaysAutoApproveNames).
Qed.

(** The auto-approval branch of [handleToolCall]: only [completedRequests]
    of the agent state changes. *)
Lemma handleToolCall_auto now toolCallId toolName input st :
  shouldAutoApprove toolName (normalizeRequestId toolCallId) input st = true →
  let decision :=
    if bool_decide (currentPermissionMode st = mode_yolo)
    then approved_for_session else approved in
  handleToolCall now toolCallId toolName input st
  = (updateAgentState (λ currentState,
       {| requests_field := requests_field currentState;
          completedRequests :=
            <[normalizeRequestId toolCallId :=
                {| c_tool := Some toolName; c_arguments := Some input;
                   c_createdAt := Some now;
                   completedAt := now; status := status_approved;
                   c_decision := Some decision; reason := None |}]>
              (completedRequests currentState) |}) st,
     Fulfilled {| decision := decision; execPolicyAmendment := None |}).
Proof. intros Hauto. unfold handleToolCall. rewrite Hauto. reflexivity. Qed.

(** C8.  In mode [yolo] every tool call is answered at once with
    [approved_for_session]; a completed record with status [approved] is
    written; the pending table, the warning timers, the calls made to the
    outside (no timer is set) and the in-flight requests of the agent
    state, through which a request is shown to the remote operator, are
    left as they were. *)
Theorem handleToolCall_yolo now toolCallId toolName input st :
  currentPermissionMode st = mode_yolo →
  let requestId := normalizeRequestId toolCallId in
  let st' := (handleToolCall now toolCallId toolName input st).1 in
  (handleToolCall now toolCallId toolName input st).2
  = Fulfilled {| decision := approved_for_session; execPolicyAmendment := None |}
  ∧ completedRequests (agentState st')
    = <[requestId :=
          {| c_tool := Some toolName; c_arguments := Some input;
             c_createdAt := Some now;
             completedAt := now; status := status_approved;
             c_decision := Some approved_for_session; reason := None |}]>
        (completedRequests (agentState st))
  ∧ pendingRequests st' = pendingRequests st
  ∧ pendingWarningTimers st' = pendingWarningTimers st
  ∧ events st' = events st
  ∧ requests (agentState st') = requests (agentState st)
  ∧ nextHandle st' = nextHandle st
  ∧ nextTimer st' = nextTimer st.
Proof.
  intros Hmode requestId st'. subst st'.
  rewrite handleToolCall_auto by by apply shouldAutoApprove_yolo.
  rewrite Hmode. simpl. repeat split.
Qed.

Lemma handleToolCall_yolo_witness :
  (handleToolCall 5 (IdString "tool-1") "CodexBash" "ls"
     (setPermissionMode mode_yolo test_handler)).2
  = Fulfilled {| decision := approved_for_session; execPolicyAmendment := None |}.
Proof.
  apply (handleToolCall_yolo 5 (IdString "tool-1") "CodexBash" "ls"
           (setPermissionMode mode_yolo test_handler)).
  reflexivity.
Defined.

(** C10.  An auto-approved tool call in a mode other than [yolo] is
    answered with plain [approved], and the completed record carries that
    decision with status [approved].  This covers every call in mode
    [safe-yolo], and, in every mode other than [yolo], the calls whose
    tool name or id contains one of the always-approved names. *)
Theorem handleToolCall_auto_approved_outside_yolo now toolCallId toolName input st :
  currentPermissionMode st ≠ mode_yolo →
  let requestId := normalizeRequestId toolCallId in
  let st' := (handleToolCall now toolCallId toolName input st).1 in
  let answered_approved :=
    (handleToolCall now toolCallId toolName input st).2
    = Fulfilled {| decision := approved; execPolicyAmendment := None |}
    ∧ completedRequests (agentState st')
      = <[requestId :=
            {| c_tool := Some toolName; c_arguments := Some input;
               c_createdAt := Some now;
               completedAt := now; status := status_approved;
               c_decision := Some approved; reason := None |}]>
          (completedRequests (agentState st)) in
  (shouldAutoApprove toolName requestId input st = true → answered_approved)
  ∧ (currentPermissionMode st = mode_safe_yolo → answered_approved)
  ∧ (∀ name, name ∈ alwaysAutoApproveNames →
       includes (toLowerCase toolName) (toLowerCase name) = true →
       answered_approved)
  ∧ (∀ id, id ∈ alwaysAutoApproveIds →
       includes (toLowerCase requestId) (toLowerCase id) = true →
       answered_approved).
Proof.
  intros Hmode requestId st' answered_approved.
  assert (shouldAutoApprove toolName requestId input st = true →
          answered_approved) as Hgen.
  { intros Hauto. subst answered_approved st'.
    rewrite handleToolCall_auto by done.
    rewrite bool_decide_eq_false_2 by done. simpl. split; reflexivity. }
  split; [done|]. split; [|split].
  - intros Hsafe. by apply Hgen, shouldAutoApprove_safe_yolo.
  - intros name Hin Hinc. eapply Hgen, shouldAutoApprove_name; done.
  - intros id Hin Hinc. eapply Hgen, shouldAutoApprove_id; done.
Qed.

Lemma handleToolCall_auto_approved_outside_yolo_witness :
  (handleToolCall 5 (IdString "call-7") "happy__change_title" "{}"
     test_handler).2
  = Fulfilled {| decision := approved; execPolicyAmendment := None |}
  ∧ (handleToolCall 5 (IdString "save_memory-2") "CodexBash" "{}"
       (setPermissionMode mode_read_only test_handler)).2
    = Fulfilled {| decision := approved; execPolicyAmendment := None |}.
Proof.
  split.
  - assert (currentPermissionMode test_handler ≠ mode_yolo) as Hmode
      by discriminate.
    destruct (handleToolCall_auto_approved_outside_yolo 5 (IdString "call-7")
                "happy__change_title" "{}" test_handler Hmode) as (_ & _ & H & _).
    apply (H "happy__change_title").
    + vm_compute. do 1 right. left.
    + vm_compute. reflexivity.
  - assert (currentPermissionMode (setPermissionMode mode_read_only test_handler)
            ≠ mode_yolo) as Hmode by discriminate.
    destruct (handleToolCall_auto_approved_outside_yolo 5
                (IdString "save_memory-2") "CodexBash" "{}"
                (setPermissionMode mode_read_only test_handler) Hmode)
      as (H & _).
    apply H. vm_compute. reflexivity.
Defined.

End AutoApproveProperties.

(** ** The pending table as a [Map] *)

Section MapProperties.
Import Permission.
Context {V : Type}.
Implicit Types (m : list (string * V)) (k : string) (v : V).


Lemma map_get_Some_elem k v m : map_get k m = Some v → (k, v) ∈ m.
Proof.
  induction m as [|[k' v'] m IH]; simpl; [done|].
  case_decide as Hk.
  - intros [= ->]. subst. by left.
  - intros H. right. by apply IH.
Qed.

Lemma map_get_elem k v m : NoDup m.*1 → (k, v) ∈ m → map_get k m = Some v.
Proof.
  induction m as [|[k' v'] m IH]; simpl.
  - intros _ H. by apply elem_of_nil in H.
  - intros [Hnotin Hnd]%NoDup_cons [Heq|Hin]%elem_of_cons.
    + injection Heq as -> ->. by case_decide.
    + case_decide as Hk; [|by apply IH].
      subst. exfalso. apply Hnotin. apply list_elem_of_fmap. by exists (k, v).
Qed.

Lemma map_get_set k v m k' :
  map_get k' (map_set k v m) = if decide (k = k') then Some v else map_get k' m.
Proof.
  induction m as [|[k0 v0] m IH]; simpl.
  - repeat case_decide; done.
  - destruct (decide (k0 = k)) as [->|Hne]; simpl.
    + repeat case_decide; done.
    + rewrite IH. repeat case_decide; congruence.
Qed.

Lemma map_get_delete k m k' :
  map_get k' (map_delete k m) = if decide (k = k') then None else map_get k' m.
Proof.
  induction m as [|[k0 v0] m IH]; simpl.
  - by case_decide.
  - destruct (decide (k0 = k)) as [->|Hne]; simpl.
    + rewrite IH. repeat case_decide; congruence.
    + rewrite IH. repeat case_decide; congruence.
Qed.

Lemma map_set_keys k v m :
  (map_set k v m).*1 = if decide (k ∈ m.*1) then m.*1 else m.*1 ++ [k].
Proof.
  induction m as [|[k0 v0] m IH].
  - cbn [map_set]. destruct (decide (k ∈ ([] : list (string * V)).*1)) as [H|H].
    + by apply elem_of_nil in H.
    + done.
  - cbn [map_set]. rewrite (fmap_cons fst (k0, v0) m). cbn [fst].
    destruct (decide (k0 = k)) as [->|Hne].
    + destruct (decide (k ∈ k :: m.*1)) as [H|H]; [done|].
      exfalso. apply H. by left.
    + rewrite fmap_cons, IH. cbn [fst].
      destruct (decide (k ∈ m.*1)) as [Hin|Hnotin];
        destruct (decide (k ∈ k0 :: m.*1)) as [H|H]; try done.
      * exfalso. apply H. by right.
      * apply elem_of_cons in H as [?|?]; [by subst | done].
Qed.

Lemma map_set_NoDup k v m : NoDup m.*1 → NoDup (map_set k v m).*1.
Proof.
  intros Hnd. rewrite map_set_keys. case_decide as Hin; [done|].
  apply NoDup_app. split; [done|]. split.
  - intros x Hx [->|H]%elem_of_cons; [done|]. by apply elem_of_nil in H.
  - apply NoDup_singleton.
Qed.

Lemma map_delete_elem k m k' v' :
  (k', v') ∈ map_delete k m → (k', v') ∈ m ∧ k' ≠ k.
Proof.
  induction m as [|[k0 v0] m IH]; simpl.
  - intros H. by apply elem_of_nil in H.
  - destruct (decide (k0 = k)) as [->|Hne].
    + intros H. destruct (IH H). split; [by right | done].
    + intros [Heq|H]%elem_of_cons.
      * injection Heq as -> ->. split; [by left | done].
      * destruct (IH H). split; [by right | done].
Qed.

Lemma map_delete_NoDup k m : NoDup m.*1 → NoDup (map_delete k m).*1.
Proof.
  induction m as [|[k0 v0] m IH]; simpl; [done|].
  intros [Hnotin Hnd]%NoDup_cons.
  destruct (decide (k0 = k)) as [->|Hne]; [by apply IH|].
  simpl. apply NoDup_cons. split; [|by apply IH].
  intros ([k1 v1] & Hk & Hin)%list_elem_of_fmap. simpl in Hk. subst k1.
  apply map_delete_elem in Hin as [Hin _].
  apply Hnotin. apply list_elem_of_fmap. by exists (k0, v1).
Qed.

End MapProperties.

(** ** Permission bridge: [reset()] *)

Section ResetProperties.
Import Elicitation Permission Fixtures.

(** A call of [reset()] made while a reset is running returns at once. *)
Lemma reset_while_resetting depth now st :
  isResetting st = true → reset (S depth) now st = Some st.
Proof. intros H. simpl. by rewrite H. Qed.

(** So a callback run during a reset leaves the handler as it is, whether
    it returns or throws and however often it calls [reset()]. *)
Lemma run_script_while_resetting depth now s st :
  isResetting st = true →
  ∃ threw, run_script (reset (S depth) now) s st = Some (st, threw).
Proof.
  intros H. induction s as [| |k IH].
  - by exists false.
  - by exists true.
  - destruct IH as [threw IH]. exists threw.
    cbn [run_script]. by rewrite reset_while_resetting.
Qed.

Lemma reject_pending_while_resetting depth now entry st :
  isResetting st = true →
  reject_pending (reset (S depth) now) entry st
  = Some (emit (EvReject (handle entry.2) "Session reset")
            (clearPendingWarning entry.1 st)).
Proof.
  intros H. unfold reject_pending.
  destruct (run_script_while_resetting depth now (on_reject entry.2)
              (emit (EvReject (handle entry.2) "Session reset")
                 (clearPendingWarning entry.1 st))) as [threw ->]; [|done].
  unfold clearPendingWarning. by destruct (pendingWarningTimers st !! entry.1).
Qed.

Lemma isResetting_clearPendingWarning requestId st :
  isResetting (clearPendingWarning requestId st) = isResetting st.
Proof.
  unfold clearPendingWarning. by destruct (pendingWarningTimers st !! requestId).
Qed.

(** The rejection loop as a plain fold. *)
Lemma for_each_reject_pending depth now l st :
  isResetting st = true →
  for_each (reject_pending (reset (S depth) now)) l st
  = Some (foldl (λ st entry,
                   emit (EvReject (handle entry.2) "Session reset")
                     (clearPendingWarning entry.1 st)) st l).
Proof.
  revert st. induction l as [|entry l IH]; intros st H; [done|].
  cbn [for_each foldl]. rewrite reject_pending_while_resetting by done.
  apply IH.
  change (isResetting (clearPendingWarning entry.1 st) = true).
  by rewrite isResetting_clearPendingWarning.
Qed.

(** What one turn of the loop leaves alone. *)
Lemma reject_turn_frame entry st :
  let st' := emit (EvReject (handle entry.2) "Session reset")
               (clearPendingWarning entry.1 st) in
  pendingRequests st' = pendingRequests st
  ∧ isResetting st' = isResetting st
  ∧ currentPermissionMode st' = currentPermissionMode st
  ∧ agentState st' = agentState st
  ∧ nextHandle st' = nextHandle st
  ∧ nextTimer st' = nextTimer st
  ∧ pendingWarningTimers st' = delete entry.1 (pendingWarningTimers st)
  ∧ events st'
    = events st
      ++ match pendingWarningTimers st !! entry.1 with
         | Some timer => [EvClearTimeout timer]
         | None => []
         end
      ++ [EvReject (handle entry.2) "Session reset"].
Proof.
  unfold clearPendingWarning.
  destruct (pendingWarningTimers st !! entry.1); simpl; repeat split.
  by rewrite <- app_assoc.
Qed.

Lemma reject_loop_frame l st :
  let st' := foldl (λ st entry,
                      emit (EvReject (handle entry.2) "Session reset")
                        (clearPendingWarning entry.1 st)) st l in
  pendingRequests st' = pendingRequests st
  ∧ isResetting st' = isResetting st
  ∧ currentPermissionMode st' = currentPermissionMode st
  ∧ agentState st' = agentState st
  ∧ nextHandle st' = nextHandle st
  ∧ nextTimer st' = nextTimer st
  ∧ pendingWarningTimers st'
    = foldl (λ timers entry, delete entry.1 timers) (pendingWarningTimers st) l.
Proof.
  revert st. induction l as [|entry l IH]; intros st; [done|].
  cbn [foldl].
  destruct (reject_turn_frame entry st) as (E1 & E2 & E3 & E4 & E5 & E6 & E7 & _).
  destruct (IH (emit (EvReject (handle entry.2) "Session reset")
                  (clearPendingWarning entry.1 st)))
    as (F1 & F2 & F3 & F4 & F5 & F6 & F7).
  cbn zeta in *.
  rewrite F1, F2, F3, F4, F5, F6, F7, E1, E2, E3, E4, E5, E6, E7. done.
Qed.

Lemma lookup_foldl_delete {V} (l : list (string * V)) (timers : gmap string nat) id :
  foldl (λ timers entry, delete entry.1 timers) timers l !! id
  = if decide (id ∈ l.*1) then None else timers !! id.
Proof.
  revert timers. induction l as [|[k v] l IH]; intros timers.
  - simpl. destruct (decide (id ∈ [])) as [H|H]; [|done].
    by apply elem_of_nil in H.
  - cbn [foldl]. rewrite IH. rewrite fmap_cons. cbn [fst].
    destruct (decide (id ∈ l.*1)) as [Hin|Hnotin].
    + rewrite decide_True; [done|]. by right.
    + destruct (decide (id = k)) as [->|Hne].
      * rewrite lookup_delete_eq. rewrite decide_True; [done|]. by left.
      * rewrite lookup_delete_ne by done.
        rewrite decide_False; [done|].
        intros [?|?]%elem_of_cons; done.
Qed.

Lemma flat_map_agree {A B} (f g : A → list B) (l : list A) :
  (∀ x, x ∈ l → f x = g x) → flat_map f l = flat_map g l.
Proof.
  induction l as [|x l IH]; intros H; [done|]. simpl.
  rewrite (H x) by by left. f_equal. apply IH. intros y Hy. apply H. by right.
Qed.

(** With distinct keys, each turn finds the timer that was registered
    before the loop began. *)
Lemma reject_loop_events l st :
  NoDup l.*1 →
  events (foldl (λ st entry,
                   emit (EvReject (handle entry.2) "Session reset")
                     (clearPendingWarning entry.1 st)) st l)
  = events st
    ++ flat_map (λ entry : string * PendingRequest,
         match pendingWarningTimers st !! entry.1 with
         | Some timer => [EvClearTimeout timer]
         | None => []
         end ++ [EvReject (handle entry.2) "Session reset"]) l.
Proof.
  revert st. induction l as [|entry l IH]; intros st Hnd.
  - simpl. by rewrite app_nil_r.
  - apply NoDup_cons in Hnd as [Hnotin Hnd]. cbn [foldl flat_map].
    rewrite IH by done.
    destruct (reject_turn_frame entry st) as (_ & _ & _ & _ & _ & _ & Et & Ee).
    cbn zeta in Et, Ee. rewrite Ee, Et. rewrite <- !app_assoc.
    f_equal. f_equal. f_equal.
    apply flat_map_agree. intros e He.
    rewrite lookup_delete_ne; [done|].
    intros Heq. apply Hnotin. rewrite Heq.
    apply list_elem_of_fmap. by exists e.
Qed.



End ResetProperties.

Section ResetTheorem.
Import Elicitation Permission Fixtures.

Lemma reset_unfold depth now st :
  reset (S depth) now st
  = if isResetting st then Some st
    else
      match for_each (reject_pending (reset depth now))
              (pendingRequests st)
              (set_pendingRequests [] (set_isResetting true st)) with
      | Some st3 =>
          Some (set_isResetting false (updateAgentState (cancel_all now) st3))
      | None => None
      end.
Proof. reflexivity. Qed.

(** The state a reset ends in when it is not itself nested in a reset. *)
Lemma reset_runs depth now st :
  isResetting st = false →
  reset (S (S depth)) now st
  = Some (set_isResetting false
            (updateAgentState (cancel_all now)
               (foldl (λ st entry,
                         emit (EvReject (handle entry.2) "Session reset")
                           (clearPendingWarning entry.1 st))
                  (set_pendingRequests [] (set_isResetting true st))
                  (pendingRequests st)))).
Proof.
  intros H. rewrite reset_unfold, H.
  by rewrite for_each_reject_pending.
Qed.





End ResetTheorem.

Section ResetExamples.
Import Elicitation Permission Fixtures.



(** The same reset, run: three timers cleared, three rejections, and all
    three requests canceled, although two of the callbacks throw. *)
Lemma reset_handler_with_callbacks :
  (λ st', (omap rejected (events st'), omap cleared (events st'),
            (λ e, status e.2) <$> map_to_list (completedRequests (agentState st'))))
    <$> reset 2 9 handler_with_callbacks
  = Some ([(0%nat, "Session reset"); (7%nat, "Session reset"); (8%nat, "Session reset")],
          [0%nat; 1%nat; 2%nat],
          [status_canceled; status_canceled; status_canceled]).
Proof. vm_compute. reflexivity. Qed.

(** With depth 1 the nested call made by the third callback is not
    followed, and no result is given. *)
Lemma reset_depth_1_handler_with_callbacks :
  reset 1 9 handler_with_callbacks = None.
Proof. vm_compute. reflexivity. Qed.

End ResetExamples.

(** ** Permission bridge: depth and the invariant *)

Section Reachability.
Import Elicitation Permission Fixtures.

Lemma run_script_mono (reset1 reset2 : State → option State) :
  (∀ st st', reset1 st = Some st' → reset2 st = Some st') →
  ∀ s st out, run_script reset1 s st = Some out → run_script reset2 s st = Some out.
Proof.
  intros Hmono s. induction s as [| |k IH]; intros st out; simpl; try done.
  destruct (reset1 st) as [st1|] eqn:H1; [|done].
  rewrite (Hmono _ _ H1). apply IH.
Qed.

Lemma for_each_mono {A} (body1 body2 : A → State → option State) :
  (∀ a st st', body1 a st = Some st' → body2 a st = Some st') →
  ∀ l st st', for_each body1 l st = Some st' → for_each body2 l st = Some st'.
Proof.
  intros Hmono l. induction l as [|a l IH]; intros st st'; simpl; [done|].
  destruct (body1 a st) as [st1|] eqn:H1; [|done].
  rewrite (Hmono _ _ _ H1). apply IH.
Qed.

(** A result found within some depth is found within every greater one. *)
Lemma reset_mono depth now st st' :
  reset depth now st = Some st' → reset (S depth) now st = Some st'.
Proof.
  revert st st'. induction depth as [|depth IH]; intros st st'; [done|].
  rewrite (reset_unfold (S depth)), (reset_unfold depth).
  destruct (isResetting st); [done|].
  destruct (for_each (reject_pending (reset depth now)) (pendingRequests st)
              (set_pendingRequests [] (set_isResetting true st)))
    as [st3|] eqn:Hloop; [|done].
  intros [= <-].
  erewrite for_each_mono; [reflexivity| |exact Hloop].
  intros entry st1 st1'. unfold reject_pending.
  destruct (run_script (reset depth now) _ _) as [[st4 threw]|] eqn:Hrun; [|done].
  intros [= <-]. by rewrite (run_script_mono _ _ (IH) _ _ _ Hrun).
Qed.

Lemma reset_result_frame depth now st st' :
  isResetting st = false →
  reset depth now st = Some st' →
  isResetting st' = false ∧ pendingRequests st' = []
  ∧ currentPermissionMode st' = currentPermissionMode st.
Proof.
  intros Hflag Hrun.
  assert (∃ d, reset (S (S d)) now st = Some st') as [d Hrun'].
  { destruct depth as [|[|d]]; [done | | by exists d].
    exists 0%nat. by apply reset_mono. }
  rewrite reset_runs in Hrun' by done. injection Hrun' as <-.
  destruct (reject_loop_frame (pendingRequests st)
              (set_pendingRequests [] (set_isResetting true st)))
    as (Fp & _ & Fm & _).
  cbn zeta in Fp, Fm. repeat split; done.
Qed.

End Reachability.

Section HandlerSteps.
Import Elicitation Permission Fixtures.

(** The branch of [handleToolCall] that waits for the remote decision. *)
Lemma handleToolCall_pending now toolCallId toolName input st :
  shouldAutoApprove toolName (normalizeRequestId toolCallId) input st = false →
  let requestId := normalizeRequestId toolCallId in
  let st' := (handleToolCall now toolCallId toolName input st).1 in
  (handleToolCall now toolCallId toolName input st).2 = Awaiting (nextHandle st)
  ∧ pendingRequests st'
    = map_set requestId
        {| handle := nextHandle st; on_resolve := Return; on_reject := Return;
           toolName := toolName; input := input |} (pendingRequests st)
  ∧ is_Some (pendingWarningTimers st' !! requestId)
  ∧ (∀ id, id ≠ requestId →
       pendingWarningTimers st' !! id = pendingWarningTimers st !! id)
  ∧ requests (agentState st')
    = <[requestId := {| tool := toolName; arguments := input; createdAt := now |}]>
        (requests (agentState st))
  ∧ completedRequests (agentState st') = completedRequests (agentState st)
  ∧ isResetting st' = isResetting st
  ∧ currentPermissionMode st' = currentPermissionMode st
  ∧ events st'
    = events st
      ++ match pendingWarningTimers st !! requestId with
         | Some _ => []
         | None => [EvSetTimeout (nextTimer st) requestId toolName]
         end.
Proof.
  intros Hauto requestId st'. subst st'. unfold handleToolCall.
  rewrite Hauto. fold requestId.
  unfold fresh_handle, registerPendingRequest, schedulePendingWarning,
    addPendingRequestToState.
  cbn [pendingWarningTimers set_pendingRequests Permission.toolName
       normalizeRequestId].
  destruct (pendingWarningTimers st !! requestId) as [timer|] eqn:Htimer;
    cbn; repeat split; try done.
  - by rewrite app_nil_r.
  - by rewrite lookup_insert_eq.
  - intros id Hne. by rewrite lookup_insert_ne.
Qed.

(** The handler on a response that matches a pending entry whose [resolve]
    just returns. *)
Lemma permission_rpc_match depth now response st pending :
  let requestId := normalizeRequestId (id response) in
  let result := result_of_response response in
  map_get requestId (pendingRequests st) = Some pending →
  on_resolve pending = Return →
  ∃ st',
    permission_rpc depth now response st = Some (st', false)
    ∧ pendingRequests st' = map_delete requestId (pendingRequests st)
    ∧ pendingWarningTimers st' = delete requestId (pendingWarningTimers st)
    ∧ events st'
      = events st
        ++ match pendingWarningTimers st !! requestId with
           | Some timer => [EvClearTimeout timer]
           | None => []
           end
        ++ [EvResolve (handle pending) result]
    ∧ agentState st'
      = move_to_completed now requestId response result (agentState st)
    ∧ isResetting st' = isResetting st
    ∧ currentPermissionMode st' = currentPermissionMode st
    ∧ nextHandle st' = nextHandle st
    ∧ nextTimer st' = nextTimer st.
Proof.
  intros requestId result Hget Hscript. unfold permission_rpc.
  subst requestId. rewrite Hget, Hscript. cbn [run_script]. fold result.
  eexists. split; [reflexivity|].
  unfold clearPendingWarning. cbn [pendingWarningTimers set_pendingRequests].
  destruct (pendingWarningTimers st !! normalizeRequestId (id response));
    cbn; repeat split.
  by rewrite <- app_assoc.
Qed.

Lemma permission_rpc_no_match depth now response st :
  map_get (normalizeRequestId (id response)) (pendingRequests st) = None →
  permission_rpc depth now response st = Some (st, false).
Proof. intros H. unfold permission_rpc. by rewrite H. Qed.

Lemma setPermissionMode_frame mode st :
  pendingRequests (setPermissionMode mode st) = pendingRequests st
  ∧ pendingWarningTimers (setPermissionMode mode st) = pendingWarningTimers st
  ∧ isResetting (setPermissionMode mode st) = isResetting st
  ∧ agentState (setPermissionMode mode st) = agentState st.
Proof. unfold setPermissionMode. by case_bool_decide. Qed.

(** Every reachable state is consistent. *)
Lemma reachable_consistent st : reachable st → consistent st.
Proof.
  induction 1 as [a | st a _ IH | st mode _ IH
                 | st now toolCallId toolName input _ IH
                 | st depth now response st' threw _ IH Hrpc
                 | st depth now st' _ IH Hreset];
    unfold consistent in *.
  - split; [done|]. split; [apply NoDup_nil_2|]. intros id pending H. done.
  - exact IH.
  - destruct IH as (Hflag & Hnd & Hall).
    destruct (setPermissionMode_frame mode st) as (-> & -> & -> & _). done.
  - destruct IH as (Hflag & Hnd & Hall).
    destruct (shouldAutoApprove toolName (normalizeRequestId toolCallId) input st)
      eqn:Hauto.
    + rewrite handleToolCall_auto by done. exact (conj Hflag (conj Hnd Hall)).
    + destruct (handleToolCall_pending now toolCallId toolName input st Hauto)
        as (_ & Hp & Ht & Ht' & _ & _ & Hf & _ & _). cbn zeta in *.
      split; [congruence|]. rewrite Hp.
      split; [by apply map_set_NoDup|].
      intros id pending. rewrite map_get_set. case_decide as Hid.
      * intros [= <-]. subst id. done.
      * intros H. destruct (Hall id pending H) as (? & ? & ?).
        rewrite Ht' by done. done.
  - destruct IH as (Hflag & Hnd & Hall).
    destruct (map_get (normalizeRequestId (id response)) (pendingRequests st))
      as [pending|] eqn:Hget.
    + destruct (Hall _ _ Hget) as (Hres & _ & _).
      destruct (permission_rpc_match depth now response st pending Hget Hres)
        as (st1 & Hrun & Hp & Ht & _ & _ & Hf & _).
      rewrite Hrun in Hrpc. injection Hrpc as <- <-.
      split; [congruence|]. rewrite Hp, Ht.
      split; [by apply map_delete_NoDup|].
      intros id' pending'. rewrite map_get_delete. case_decide as Hid; [done|].
      intros H. destruct (Hall _ _ H) as (? & ? & ?).
      rewrite !lookup_delete_ne by done. done.
    + rewrite permission_rpc_no_match in Hrpc by done.
      injection Hrpc as <- <-. done.
  - destruct IH as (Hflag & Hnd & Hall).
    destruct (reset_result_frame depth now st st' Hflag Hreset) as (Hf & Hp & _).
    split; [done|]. rewrite Hp. split; [apply NoDup_nil_2|]. done.
Qed.

(** As long as the session is not swapped, every pending entry also has
    its in-flight record in the agent state. *)
Lemma handleToolCall_records_in_flight now toolCallId toolName input st :
  shouldAutoApprove toolName (normalizeRequestId toolCallId) input st = false →
  let st' := (handleToolCall now toolCallId toolName input st).1 in
  map_get (normalizeRequestId toolCallId) (pendingRequests st')
  = Some {| handle := nextHandle st; on_resolve := Return; on_reject := Return;
            toolName := toolName; input := input |}
  ∧ requests (agentState st') !! normalizeRequestId toolCallId
    = Some {| tool := toolName; arguments := input; createdAt := now |}.
Proof.
  intros Hauto st'.
  destruct (handleToolCall_pending now toolCallId toolName input st Hauto)
    as (_ & Hp & _ & _ & Hr & _). cbn zeta in Hp, Hr. fold st' in Hp, Hr.
  rewrite Hp, Hr, map_get_set, lookup_insert_eq. by rewrite decide_True.
Qed.

End HandlerSteps.

(** ** Permission bridge: the inbound decision *)

Section DecisionProperties.
Import Elicitation Permission Fixtures.



(** Distinct numbers have distinct normalized ids. *)
Lemma normalizeRequestId_number_inj n m :
  normalizeRequestId (IdNumber n) = normalizeRequestId (IdNumber m) → n = m.
Proof. simpl. unfold decimal. apply (inj pretty). Qed.

Lemma decimal_123 : decimal 123 = "123".
Proof. vm_compute. reflexivity. Qed.





(** The inherited member at work.  The request [toString] is pending;
    [updateSession] puts the handler on a session whose agent state has an
    empty [requests] object; the approving response then finds
    [Object.prototype.toString] under the id and writes a completed record
    that holds the time, the status and the decision alone.  On a session
    without a [requests] object nothing is written. *)
Lemma permission_rpc_inherited_member_example :
  let response :=
    {| id := IdString "toString"; resp_approved := true;
       resp_decision := Some approved; resp_execPolicyAmendment := None |} in
  let waiting :=
    (handleToolCall 10 (IdString "toString") "CodexBash" "ls" test_handler).1 in
  (∃ st',
     permission_rpc 0 20 response
       (updateSession {| requests_field := Some ∅; completedRequests := ∅ |}
          waiting)
     = Some (st', false)
     ∧ requests_field (agentState st') = Some ∅
     ∧ completedRequests (agentState st') !! "toString"
       = Some {| c_tool := None; c_arguments := None; c_createdAt := None;
                 completedAt := 20; status := status_approved;
                 c_decision := Some approved; reason := None |})
  ∧ (∃ st',
       permission_rpc 0 20 response
         (updateSession {| requests_field := None; completedRequests := ∅ |}
            waiting)
       = Some (st', false)
       ∧ agentState st'
         = {| requests_field := None; completedRequests := ∅ |}).
Proof.
  split.
  - eexists. split; [vm_compute; reflexivity|]. split; reflexivity.
  - eexists. split; [vm_compute; reflexivity|]. reflexivity.
Qed.


End DecisionProperties.

(** * Further properties *)

(** ** Text toolkit *)

Section TextProperties.
Import McpClient RunnerArgs.

Lemma app_cons c (s t : string) : String c s +:+ t = String c (s +:+ t).
Proof. reflexivity. Qed.

Lemma app_empty_l (s : string) : "" +:+ s = s.
Proof. reflexivity. Qed.

Lemma app_empty_r (s : string) : s +:+ "" = s.
Proof. induction s as [|c s IH]; [done|]. by rewrite app_cons, IH. Qed.

Lemma app_assoc_string (s t u : string) : (s +:+ t) +:+ u = s +:+ (t +:+ u).
Proof. induction s as [|c s IH]; [done|]. by rewrite !app_cons, IH. Qed.

Lemma strip_prefix_Some p s r : strip_prefix p s = Some r ↔ s = p +:+ r.
Proof.
  revert s. induction p as [|a p IH]; intros s.
  - simpl. rewrite app_empty_l. split; [by intros [= ->] | by intros ->].
  - destruct s as [|b s]; simpl.
    + split; [done|]. rewrite app_cons. done.
    + rewrite app_cons. destruct (Ascii.eqb_spec a b) as [->|Hne].
      * rewrite IH. split; [by intros -> | by intros [= ->]].
      * split; [done|]. intros [= ??]. done.
Qed.

Lemma strip_prefix_app p r : strip_prefix p (p +:+ r) = Some r.
Proof. by apply strip_prefix_Some. Qed.

Lemma take_drop_while p s : take_while p s +:+ drop_while p s = s.
Proof.
  induction s as [|c s IH]; [done|]. simpl.
  destruct (p c); [|done]. by rewrite app_cons, IH.
Qed.

Lemma all_chars_take_while p s : all_chars p (take_while p s) = true.
Proof.
  induction s as [|c s IH]; [done|]. simpl.
  destruct (p c) eqn:Hc; [|done]. simpl. by rewrite Hc.
Qed.

Lemma all_chars_app p s t :
  all_chars p (s +:+ t) = all_chars p s && all_chars p t.
Proof.
  induction s as [|c s IH]; [done|]. rewrite app_cons. simpl.
  by rewrite IH, andb_assoc.
Qed.

(** A run of characters satisfying [p], followed by text that does not
    start with one, is what a greedy [+] takes. *)
Lemma take_while_run p run rest :
  all_chars p run = true →
  (∀ c r, rest = String c r → p c = false) →
  take_while p (run +:+ rest) = run ∧ drop_while p (run +:+ rest) = rest.
Proof.
  intros Hrun Hrest. induction run as [|c run IH].
  - rewrite app_empty_l. destruct rest as [|c r]; [done|].
    simpl. by rewrite (Hrest c r eq_refl).
  - simpl in Hrun. apply andb_true_iff in Hrun as [Hc Hrun].
    rewrite app_cons. simpl. rewrite Hc.
    destruct (IH Hrun) as [-> ->]. done.
Qed.

Lemma some_of_run p run rest :
  run ≠ "" →
  all_chars p run = true →
  (∀ c r, rest = String c r → p c = false) →
  some_of p (run +:+ rest) = Some (run, rest).
Proof.
  intros Hne Hrun Hrest. unfold some_of.
  destruct (take_while_run p run rest Hrun Hrest) as [-> ->].
  by destruct run.
Qed.

Lemma some_of_Some p s run rest :
  some_of p s = Some (run, rest) →
  run ≠ "" ∧ all_chars p run = true ∧ s = run +:+ rest.
Proof.
  unfold some_of. intros H.
  pose proof (all_chars_take_while p s) as Hall.
  pose proof (take_drop_while p s) as Hs.
  destruct (take_while p s) as [|c t] eqn:Ht; [done|].
  injection H as <- <-. done.
Qed.

End TextProperties.

(** ** Package specs *)

Section RunnerArgsProperties.
Import Runner McpClient RunnerArgs.

(** A run of [.] to the end is a text in which no line terminator
    occurs. *)
Lemma dots_no_line_terminator rest :
  dots rest = true
  ↔ ∀ t, t ∈ line_terminators → Permission.includes rest t = false.
Proof.
  induction rest as [|c rest IH].
  - split; [|done]. intros _ t Ht. unfold line_terminators in Ht.
    repeat (apply elem_of_cons in Ht as [->|Ht]; [reflexivity|]).
    by apply elem_of_nil in Ht.
  - cbn [dots Permission.includes]. rewrite andb_true_iff, negb_true_iff, IH.
    split.
    + intros [Hhere Hlater] t Ht.
      rewrite (Hlater t Ht), orb_false_r.
      apply not_true_is_false. intros Hprefix.
      assert (existsb (λ t, String.prefix t (String c rest)) line_terminators
              = true) as Hex; [|congruence].
      apply existsb_exists. exists t. split; [|done].
      by apply list_elem_of_In.
    + intros Hnone. split.
      * apply not_true_is_false. intros Hex.
        apply existsb_exists in Hex as (t & Ht%list_elem_of_In & Hprefix).
        specialize (Hnone t Ht). by rewrite Hprefix in Hnone.
      * intros t Ht. specialize (Hnone t Ht).
        by apply orb_false_elim in Hnone as [_ ?].
Qed.

(** X1.  [parseCodexPackageSpec] returns its argument or nothing: it
    returns [s] exactly when the argument is [s] and [s] is the prefix
    [@openai/codex@] followed by at least one character, with no line
    terminator (LF, CR, U+2028, U+2029) anywhere after the prefix. *)
Theorem parseCodexPackageSpec_accepts value s :
  parseCodexPackageSpec value = Some s
  ↔ value = Some s
    ∧ ∃ rest, s = "@openai/codex@" +:+ rest ∧ rest ≠ ""
              ∧ ∀ t, t ∈ line_terminators →
                     Permission.includes rest t = false.
Proof.
  unfold parseCodexPackageSpec, is_codex_spec. split.
  - destruct value as [v|]; [|done].
    destruct (String.eqb_spec v ""); [done|].
    destruct (strip_prefix "@openai/codex@" v) as [rest|] eqn:Hrest; [|done].
    apply strip_prefix_Some in Hrest.
    destruct (String.eqb_spec rest ""); [done|]. cbn [negb andb].
    destruct (dots rest) eqn:Hall; [|done].
    intros [= <-]. split; [done|]. exists rest.
    split; [done|]. split; [done|]. by apply dots_no_line_terminator.
  - intros (-> & rest & -> & Hne & Hall).
    apply dots_no_line_terminator in Hall.
    rewrite strip_prefix_app, Hall.
    destruct (String.eqb_spec rest ""); [done|].
    destruct (String.eqb_spec ("@openai/codex@" +:+ rest) ""); done.
Qed.

(** The spec of the tests is accepted; the same text with U+2028 at its
    end, or with a line feed inside, is not. *)
Lemma parseCodexPackageSpec_examples :
  parseCodexPackageSpec (Some "@openai/codex@0.92.0")
  = Some "@openai/codex@0.92.0"
  ∧ parseCodexPackageSpec
      (Some ("@openai/codex@1"
             +:+ String (ascii_of_nat 226)
                   (String (ascii_of_nat 128)
                      (String (ascii_of_nat 168) EmptyString))))
    = None
  ∧ parseCodexPackageSpec
      (Some ("@openai/codex@1" +:+ String (ascii_of_nat 10) "2"))
    = None
  ∧ parseCodexPackageSpec (Some "@openai/codex@") = None.
Proof. vm_compute. done. Qed.

Lemma parseCodexPackageSpec_nonempty value s :
  parseCodexPackageSpec value = Some s → s ≠ "".
Proof.
  unfold parseCodexPackageSpec. destruct value as [v|]; [|done].
  destruct (String.eqb_spec v ""); [done|].
  destruct (is_codex_spec v); [|done]. by intros [= <-].
Qed.

Lemma parseCodexPackageSpec_same value s :
  parseCodexPackageSpec value = Some s → value = Some s.
Proof.
  unfold parseCodexPackageSpec. destruct value as [v|]; [|done].
  destruct (String.eqb_spec v ""); [done|].
  destruct (is_codex_spec v); [|done]. by intros [= <-].
Qed.

End RunnerArgsProperties.

Section RunnerArgsMore.
Import Runner McpClient RunnerArgs.

Lemma parseCodexPackageSpec_accepts_witness :
  parseCodexPackageSpec (Some "@openai/codex@0.92.0") = Some "@openai/codex@0.92.0".
Proof.
  apply (parseCodexPackageSpec_accepts (Some "@openai/codex@0.92.0")
           "@openai/codex@0.92.0").
  split; [reflexivity|]. exists "0.92.0".
  split; [reflexivity|]. split; [discriminate|].
  intros t Ht. unfold line_terminators in Ht.
  repeat (apply elem_of_cons in Ht as [->|Ht]; [vm_compute; reflexivity|]).
  by apply elem_of_nil in Ht.
Defined.

(** X2.  [consumeCodexPackageSpec] takes the first argument off exactly
    when it is a package spec.  With a spec [s] the arguments were [s]
    followed by the rest that is returned; without one the arguments are
    returned as they are, and their first, if there is one, is no package
    spec. *)
Theorem consumeCodexPackageSpec_splits args :
  match spec (consumeCodexPackageSpec args) with
  | Some s =>
      args = s :: rest_args (consumeCodexPackageSpec args)
      ∧ parseCodexPackageSpec (Some s) = Some s
  | None =>
      rest_args (consumeCodexPackageSpec args) = args
      ∧ ∀ first, head args = Some first →
          parseCodexPackageSpec (Some first) = None
  end.
Proof.
  unfold consumeCodexPackageSpec. destruct args as [|first rest]; [done|].
  destruct (parseCodexPackageSpec (Some first)) as [candidate|] eqn:Hparse.
  - pose proof (parseCodexPackageSpec_nonempty _ _ Hparse) as Hne.
    pose proof (parseCodexPackageSpec_same _ _ Hparse) as [= <-].
    destruct (String.eqb_spec first ""); [done|]. simpl. done.
  - simpl. split; [done|]. by intros ? [= <-].
Qed.

(** X3.  The MCP command built from the consumed spec is
    [npx -y <spec> mcp-server] when the arguments start with a package
    spec, and [codex mcp-server] otherwise. *)
Theorem consumed_spec_selects_runner args :
  buildCodexMcpCommand (buildCodexRunner (spec (consumeCodexPackageSpec args)))
  = match spec (consumeCodexPackageSpec args) with
    | Some s => {| mcp_command := "npx"; mcp_args := ["-y"; s; "mcp-server"] |}
    | None => {| mcp_command := "codex"; mcp_args := ["mcp-server"] |}
    end.
Proof.
  unfold consumeCodexPackageSpec. destruct args as [|first rest]; [done|].
  destruct (parseCodexPackageSpec (Some first)) as [candidate|] eqn:Hparse;
    [|done].
  pose proof (parseCodexPackageSpec_nonempty _ _ Hparse) as Hne.
  destruct (String.eqb_spec candidate ""); [done|]. simpl.
  unfold buildCodexRunner. by destruct (String.eqb_spec candidate "").
Qed.

End RunnerArgsMore.

(** ** Decimal numerals *)

Section DecimalProperties.
Import McpClient RunnerArgs.

Lemma pretty_N_char_digit (d : N) :
  (d < 10)%N →
  is_digit (pretty_N_char d) = true ∧ digit_value (pretty_N_char d) = Z.of_N d.
Proof.
  intros Hd.
  assert (d = 0 ∨ d = 1 ∨ d = 2 ∨ d = 3 ∨ d = 4 ∨ d = 5 ∨ d = 6 ∨ d = 7
          ∨ d = 8 ∨ d = 9)%N as Hcases by lia.
  repeat (destruct Hcases as [-> | Hcases]; [by vm_compute|]).
  subst. by vm_compute.
Qed.

Lemma pretty_N_go_app (x : N) (s : string) :
  pretty_N_go x s = pretty_N_go x "" +:+ s.
Proof.
  revert s. induction (N.lt_wf_0 x) as [x _ IH]. intros s.
  destruct (decide (x = 0)%N) as [->|Hx]; [by rewrite !pretty_N_go_0|].
  rewrite !(pretty_N_go_step x) by lia.
  rewrite (IH (x `div` 10)%N) by (apply N.div_lt; lia).
  rewrite (IH (x `div` 10)%N ltac:(apply N.div_lt; lia) (String _ "")).
  by rewrite app_assoc_string.
Qed.

Lemma digits_value_app acc (s t : string) :
  digits_value acc (s +:+ t) = digits_value (digits_value acc s) t.
Proof.
  revert acc. induction s as [|c s IH]; intros acc; [done|].
  rewrite app_cons. simpl. apply IH.
Qed.

Lemma digits_value_nonneg acc (s : string) : 0 ≤ acc → 0 ≤ digits_value acc s.
Proof.
  revert acc. induction s as [|c s IH]; intros acc Hacc; [done|].
  simpl. apply IH. unfold digit_value. lia.
Qed.

Lemma pretty_N_go_digits (x : N) :
  all_chars is_digit (pretty_N_go x "") = true
  ∧ digits_value 0 (pretty_N_go x "") = Z.of_N x.
Proof.
  induction (N.lt_wf_0 x) as [x _ IH].
  destruct (decide (x = 0)%N) as [->|Hx]; [by rewrite pretty_N_go_0|].
  rewrite (pretty_N_go_step x) by lia. rewrite pretty_N_go_app.
  destruct (IH (x `div` 10)%N ltac:(apply N.div_lt; lia)) as [Hall Hval].
  destruct (pretty_N_char_digit (x `mod` 10)%N) as [Hd Hv].
  { apply N.mod_lt. lia. }
  split.
  - rewrite all_chars_app, Hall. simpl. by rewrite Hd.
  - rewrite digits_value_app, Hval. simpl. rewrite Hv.
    pose proof (N.div_mod x 10 ltac:(lia)). lia.
Qed.

(** The decimal numeral of a natural number: a non-empty run of digits
    with the number as its value, ending in a digit. *)
Lemma pretty_N_numeral (n : N) :
  pretty n ≠ ""
  ∧ all_chars is_digit (pretty n) = true
  ∧ digits_value 0 (pretty n) = Z.of_N n
  ∧ ∃ front d, pretty n = front +:+ String d "" ∧ is_digit d = true.
Proof.
  unfold pretty, pretty_N. destruct (decide (n = 0)%N) as [->|Hn].
  - repeat split; [done|]. by exists "", "0"%char.
  - rewrite (pretty_N_go_step n) by lia. rewrite pretty_N_go_app.
    destruct (pretty_N_go_digits (n `div` 10)%N) as [Hall Hval].
    destruct (pretty_N_char_digit (n `mod` 10)%N) as [Hd Hv].
    { apply N.mod_lt. lia. }
    split; [|split; [|split]].
    + destruct (pretty_N_go (n `div` 10) ""); done.
    + rewrite all_chars_app, Hall. simpl. by rewrite Hd.
    + rewrite digits_value_app, Hval. simpl. rewrite Hv.
      pose proof (N.div_mod n 10 ltac:(lia)). lia.
    + eexists _, _. split; [reflexivity|done].
Qed.

End DecimalProperties.

(** ** Version parsing *)

Section VersionParserProperties.
Import Elicitation McpClient RunnerArgs VersionParser.

Lemma digit_classes (c : ascii) :
  is_digit c = true →
  is_space c = false ∧ is_letter c = false ∧ is_lower_letter c = false
  ∧ Ascii.eqb "v" (Permission.lower_ascii c) = false
  ∧ Ascii.eqb c "-" = false ∧ Ascii.eqb c "." = false
  ∧ is_word c = true.
Proof.
  destruct c as [[] [] [] [] [] [] [] []]; vm_compute; intros; try done.
Qed.

Lemma starts_with_other (p : ascii → bool) c0 (x : string) :
  p c0 = false → ∀ c r, String c0 x = String c r → p c = false.
Proof. by intros H c r [= <- _]. Qed.

Lemma starts_with_digit (p : ascii → bool) (d rest : string) :
  d ≠ "" → all_chars is_digit d = true →
  (∀ c, is_digit c = true → p c = false) →
  ∀ c r, d +:+ rest = String c r → p c = false.
Proof.
  intros Hne Hall Hp c r. destruct d as [|d0 d]; [done|].
  simpl in Hall. apply andb_true_iff in Hall as [Hd _].
  rewrite app_cons. intros [= <- _]. by apply Hp.
Qed.

Lemma empty_starts (p : ascii → bool) :
  ∀ c r, "" = String c r → p c = false.
Proof. done. Qed.

(** Three runs of digits separated by dots are taken as they stand. *)
Lemma match_triple_runs (da db dc rest : string) :
  da ≠ "" → all_chars is_digit da = true →
  db ≠ "" → all_chars is_digit db = true →
  dc ≠ "" → all_chars is_digit dc = true →
  (∀ c r, rest = String c r → is_digit c = false) →
  match_triple (da +:+ "." +:+ db +:+ "." +:+ dc +:+ rest)
  = Some (da, db, dc, rest).
Proof.
  intros Ha1 Ha2 Hb1 Hb2 Hc1 Hc2 Hrest. unfold match_triple.
  rewrite (some_of_run is_digit da) by (try done; by apply starts_with_other).
  cbn [mbind option_bind]. rewrite strip_prefix_app. cbn [mbind option_bind].
  rewrite (some_of_run is_digit db) by (try done; by apply starts_with_other).
  cbn [mbind option_bind]. rewrite strip_prefix_app. cbn [mbind option_bind].
  rewrite (some_of_run is_digit dc) by done.
  reflexivity.
Qed.

Lemma match_prerelease_tagged (letter : ascii → bool) (tag dn rest : string) :
  letter "."%char = false →
  tag ≠ "" → all_chars letter tag = true →
  dn ≠ "" → all_chars is_digit dn = true →
  (∀ c r, rest = String c r → is_digit c = false) →
  match_prerelease letter ("-" +:+ tag +:+ "." +:+ dn +:+ rest)
  = Some (tag, dn, rest).
Proof.
  intros Hdot Ht1 Ht2 Hn1 Hn2 Hrest. unfold match_prerelease.
  rewrite strip_prefix_app. cbn [mbind option_bind].
  rewrite (some_of_run letter tag) by (try done; by apply starts_with_other).
  cbn [mbind option_bind]. rewrite strip_prefix_app. cbn [mbind option_bind].
  rewrite (some_of_run is_digit dn) by done.
  reflexivity.
Qed.

Lemma match_prerelease_Some letter s tag num rest :
  match_prerelease letter s = Some (tag, num, rest) → tag ≠ "" ∧ num ≠ "".
Proof.
  unfold match_prerelease.
  destruct (strip_prefix "-" s) as [r1|]; [|done]. cbn [mbind option_bind].
  destruct (some_of letter r1) as [[t r2]|] eqn:Ht; [|done].
  cbn [mbind option_bind].
  destruct (strip_prefix "." r2) as [r3|]; [|done]. cbn [mbind option_bind].
  destruct (some_of is_digit r3) as [[n r4]|] eqn:Hn; [|done].
  cbn [mbind option_bind]. intros [= <- <- <-].
  apply some_of_Some in Ht as (? & _). apply some_of_Some in Hn as (? & _).
  done.
Qed.

Lemma match_named_found s m :
  match_named_here s = Some m → match_named s = Some m.
Proof. intros H. destruct s; cbn [match_named]; by rewrite H. Qed.

(** The text that [codex --version] prints, with its three numbers and
    possibly a prerelease part, is matched by the first expression at its
    start. *)
Lemma match_named_here_version (da db dc : string) (pre : option (string * string)) :
  da ≠ "" → all_chars is_digit da = true →
  db ≠ "" → all_chars is_digit db = true →
  dc ≠ "" → all_chars is_digit dc = true →
  (∀ tag dn, pre = Some (tag, dn) →
     tag ≠ "" ∧ all_chars is_letter tag = true
     ∧ dn ≠ "" ∧ all_chars is_digit dn = true) →
  match_named_here
    ("codex-cli " +:+ da +:+ "." +:+ db +:+ "." +:+ dc
     +:+ match pre with
         | Some (tag, dn) => "-" +:+ tag +:+ "." +:+ dn
         | None => ""
         end)
  = Some (captures (da, db, dc) pre).
Proof.
  intros Ha1 Ha2 Hb1 Hb2 Hc1 Hc2 Hpre. unfold match_named_here.
  set (tail := "." +:+ db +:+ "." +:+ dc
               +:+ match pre with
                   | Some (tag, dn) => "-" +:+ tag +:+ "." +:+ dn
                   | None => ""
                   end).
  change (strip_prefix_ci "codex" ("codex-cli " +:+ da +:+ tail))
    with (Some ("-cli " +:+ da +:+ tail)).
  cbn [mbind option_bind].
  change (strip_prefix_ci "-cli" ("-cli " +:+ da +:+ tail))
    with (Some (" " +:+ da +:+ tail)).
  cbn [default from_option id].
  rewrite (some_of_run is_space " " (da +:+ tail));
    [|done|done|apply starts_with_digit; [done|done|]; intros c Hc;
      by apply digit_classes in Hc as (? & _)].
  cbn [mbind option_bind].
  assert (∀ x, strip_prefix_ci "v" (da +:+ x) = None) as Hv.
  { intros x. destruct da as [|d0 da]; [done|]. simpl in Ha2.
    apply andb_true_iff in Ha2 as [Hd _].
    apply digit_classes in Hd as (_ & _ & _ & Hd & _).
    rewrite app_cons. cbn [strip_prefix_ci]. by rewrite Hd. }
  rewrite Hv. cbn [default from_option id]. subst tail.
  destruct pre as [[tag dn]|].
  - destruct (Hpre tag dn eq_refl) as (Ht1 & Ht2 & Hn1 & Hn2).
    rewrite match_triple_runs;
      [|done..|by apply starts_with_other].
    cbn [mbind option_bind].
    rewrite <- (app_empty_r dn) at 1.
    rewrite match_prerelease_tagged by done. reflexivity.
  - rewrite match_triple_runs by done. reflexivity.
Qed.

End VersionParserProperties.

Section VersionParserResults.
Import Elicitation McpClient RunnerArgs VersionParser McpSession.

Lemma match_named_here_shape s m :
  match_named_here s = Some m →
  (group4 m = None ∧ group5 m = None)
  ∨ (∃ t n, group4 m = Some t ∧ group5 m = Some n ∧ t ≠ "" ∧ n ≠ "").
Proof.
  unfold match_named_here.
  destruct (strip_prefix_ci "codex" s) as [r0|]; [|done].
  cbn [mbind option_bind].
  destruct (some_of is_space _) as [[ws r2]|]; [|done].
  cbn [mbind option_bind].
  destruct (match_triple _) as [[[[a b] c] r4]|]; [|done].
  cbn [mbind option_bind].
  destruct (match_prerelease is_letter r4) as [[[tag num] r5]|] eqn:Hpre.
  - intros [= <-]. right. exists tag, num.
    apply match_prerelease_Some in Hpre as [??]. done.
  - intros [= <-]. by left.
Qed.

Lemma match_bare_here_shape after_word s m :
  match_bare_here after_word s = Some m →
  (group4 m = None ∧ group5 m = None)
  ∨ (∃ t n, group4 m = Some t ∧ group5 m = Some n ∧ t ≠ "" ∧ n ≠ "").
Proof.
  unfold match_bare_here. destruct after_word; [done|].
  destruct (match_triple s) as [[[[a b] c] r]|]; [|done].
  cbn [mbind option_bind].
  destruct (match_prerelease is_lower_letter r) as [[[tag num] r']|] eqn:Hpre.
  - destruct (at_boundary r').
    + intros [= <-]. right. exists tag, num.
      apply match_prerelease_Some in Hpre as [??]. done.
    + intros [= <-]. by left.
  - destruct (at_boundary r); [|done]. intros [= <-]. by left.
Qed.

Lemma match_named_shape s m :
  match_named s = Some m →
  (group4 m = None ∧ group5 m = None)
  ∨ (∃ t n, group4 m = Some t ∧ group5 m = Some n ∧ t ≠ "" ∧ n ≠ "").
Proof.
  induction s as [|c s IH]; cbn [match_named].
  - destruct (match_named_here "") eqn:H; [|done].
    intros [= <-]. by eapply match_named_here_shape.
  - destruct (match_named_here (String c s)) eqn:H; [|done].
    intros [= <-]. by eapply match_named_here_shape.
Qed.

Lemma match_bare_shape after_word s m :
  match_bare after_word s = Some m →
  (group4 m = None ∧ group5 m = None)
  ∨ (∃ t n, group4 m = Some t ∧ group5 m = Some n ∧ t ≠ "" ∧ n ≠ "").
Proof.
  revert after_word. induction s as [|c s IH]; intros after_word;
    cbn [match_bare].
  - destruct (match_bare_here after_word "") eqn:H; [|done].
    intros [= <-]. by eapply match_bare_here_shape.
  - destruct (match_bare_here after_word (String c s)) eqn:H; [|apply IH].
    intros [= <-]. by eapply match_bare_here_shape.
Qed.

Lemma unparsed_invariant rawText :
  let v := unparsed rawText in
  raw v = rawText
  ∧ 0 ≤ major v ∧ 0 ≤ minor v ∧ 0 ≤ patch v
  ∧ (rawText = None ∨ rawText = Some "" → parsed v = false)
  ∧ (parsed v = false →
     major v = 0 ∧ minor v = 0 ∧ patch v = 0
     ∧ prereleaseTag v = None ∧ prereleaseNum v = None)
  ∧ prereleaseTag v ≠ Some ""
  ∧ (is_Some (prereleaseTag v) ↔ is_Some (prereleaseNum v)).
Proof. cbn. repeat split; try done; intros [? [=]]. Qed.

(** X4.  Every result of [parseCodexVersion] keeps the raw text and has
    numbers that are not negative.  No text and the empty text are
    unparsed; an unparsed result has zeros and no prerelease; a prerelease
    tag is never empty, and it is there exactly when a prerelease number
    is. *)
Theorem parseCodexVersion_invariant rawText :
  let v := parseCodexVersion rawText in
  raw v = rawText
  ∧ 0 ≤ major v ∧ 0 ≤ minor v ∧ 0 ≤ patch v
  ∧ (rawText = None ∨ rawText = Some "" → parsed v = false)
  ∧ (parsed v = false →
     major v = 0 ∧ minor v = 0 ∧ patch v = 0
     ∧ prereleaseTag v = None ∧ prereleaseNum v = None)
  ∧ prereleaseTag v ≠ Some ""
  ∧ (is_Some (prereleaseTag v) ↔ is_Some (prereleaseNum v)).
Proof.
  unfold parseCodexVersion.
  destruct rawText as [text|]; [|apply unparsed_invariant].
  destruct (String.eqb_spec text "") as [->|Hne]; [apply unparsed_invariant|].
  destruct (default (match_bare false text) (Some <$> match_named text))
    as [m|] eqn:Hm; [|apply unparsed_invariant].
  assert ((group4 m = None ∧ group5 m = None)
          ∨ (∃ t n, group4 m = Some t ∧ group5 m = Some n ∧ t ≠ "" ∧ n ≠ ""))
    as Hshape.
  { destruct (match_named text) as [m'|] eqn:Hnamed.
    - cbn in Hm. injection Hm as <-. by eapply match_named_shape.
    - cbn in Hm. by eapply match_bare_shape. }
  cbn. split; [done|].
  split; [by apply digits_value_nonneg|].
  split; [by apply digits_value_nonneg|].
  split; [by apply digits_value_nonneg|].
  split; [by intros [[=]|[= ->]]|].
  split; [done|].
  destruct Hshape as [[-> ->]|(t & n & -> & -> & Ht & Hn)].
  - split; [done|]. split; intros [? [=]].
  - split; [by intros [= ->]|].
    destruct (String.eqb_spec n ""); [done|]. split; eauto.
Qed.

Lemma parseCodexVersion_invariant_witness :
  parsed (parseCodexVersion (Some "")) = false.
Proof.
  apply (parseCodexVersion_invariant (Some "")). by right.
Defined.

(** The parse of the text [codex --version] prints, for any runs of
    digits. *)
Lemma parseCodexVersion_numerals (da db dc : string) (pre : option (string * string)) :
  da ≠ "" → all_chars is_digit da = true →
  db ≠ "" → all_chars is_digit db = true →
  dc ≠ "" → all_chars is_digit dc = true →
  (∀ tag dn, pre = Some (tag, dn) →
     tag ≠ "" ∧ all_chars is_letter tag = true
     ∧ dn ≠ "" ∧ all_chars is_digit dn = true) →
  let text :=
    "codex-cli " +:+ da +:+ "." +:+ db +:+ "." +:+ dc
    +:+ match pre with
        | Some (tag, dn) => "-" +:+ tag +:+ "." +:+ dn
        | None => ""
        end in
  parseCodexVersion (Some text)
  = {| raw := Some text; parsed := true;
       major := digits_value 0 da; minor := digits_value 0 db;
       patch := digits_value 0 dc;
       prereleaseTag := fst <$> pre;
       prereleaseNum := (λ p, digits_value 0 p.2) <$> pre |}.
Proof.
  intros Ha1 Ha2 Hb1 Hb2 Hc1 Hc2 Hpre text. unfold parseCodexVersion.
  change (String.eqb text "") with false. cbv iota.
  rewrite (match_named_found text (captures (da, db, dc) pre))
    by by apply match_named_here_version.
  cbn. f_equal. destruct pre as [[tag dn]|]; [|done]. cbn.
  destruct (Hpre tag dn eq_refl) as (_ & _ & Hn & _).
  by destruct (String.eqb_spec dn "").
Qed.

(** X5.  [parseCodexVersion] reads back what [codex --version] prints:
    the text [codex-cli a.b.c], with or without [-tag.n] for a tag of
    letters, parses to the numbers [a], [b], [c], the tag and [n], for
    numbers up to [MAX_SAFE_INTEGER]. *)
Theorem parseCodexVersion_printed (a b c : N) (pre : option (string * N)) :
  (a ≤ MAX_SAFE_INTEGER ∧ b ≤ MAX_SAFE_INTEGER ∧ c ≤ MAX_SAFE_INTEGER)%N →
  (∀ tag n, pre = Some (tag, n) →
     tag ≠ "" ∧ all_chars is_letter tag = true ∧ (n ≤ MAX_SAFE_INTEGER)%N) →
  let text :=
    "codex-cli " +:+ pretty a +:+ "." +:+ pretty b +:+ "." +:+ pretty c
    +:+ match pre with
        | Some (tag, n) => "-" +:+ tag +:+ "." +:+ pretty n
        | None => ""
        end in
  parseCodexVersion (Some text)
  = {| raw := Some text; parsed := true;
       major := Z.of_N a; minor := Z.of_N b; patch := Z.of_N c;
       prereleaseTag := fst <$> pre;
       prereleaseNum := (λ p, Z.of_N p.2) <$> pre |}.
Proof.
  intros _ Hpre text.
  destruct (pretty_N_numeral a) as (Ha1 & Ha2 & Ha3 & _).
  destruct (pretty_N_numeral b) as (Hb1 & Hb2 & Hb3 & _).
  destruct (pretty_N_numeral c) as (Hc1 & Hc2 & Hc3 & _).
  pose proof (parseCodexVersion_numerals (pretty a) (pretty b) (pretty c)
                ((λ p : string * N, (p.1, pretty p.2)) <$> pre)
                Ha1 Ha2 Hb1 Hb2 Hc1 Hc2) as H.
  cbn zeta in H. rewrite Ha3, Hb3, Hc3 in H.
  destruct pre as [[tag n]|]; cbn in H |- *.
  - destruct (pretty_N_numeral n) as (Hn1 & Hn2 & Hn3 & _).
    destruct (Hpre tag n eq_refl) as (Ht1 & Ht2 & _).
    subst text. rewrite H; [by rewrite Hn3|].
    intros ?? [= <- <-]. done.
  - subst text. rewrite H; [done|]. done.
Qed.

Lemma parseCodexVersion_printed_witness :
  parseCodexVersion (Some "codex-cli 0.43.0-alpha.5")
  = {| raw := Some "codex-cli 0.43.0-alpha.5"; parsed := true;
       major := 0; minor := 43; patch := 0;
       prereleaseTag := Some "alpha"; prereleaseNum := Some 5 |}.
Proof.
  apply (parseCodexVersion_printed 0 43 0 (Some ("alpha", 5%N))).
  - unfold MAX_SAFE_INTEGER. lia.
  - intros tag n [= <- <-]. unfold MAX_SAFE_INTEGER.
    split; [discriminate|]. split; [reflexivity | lia].
Defined.

(** X6.  With no override the response style for the printed version
    [codex-cli a.b.c] is [decision] up to 0.77.0 and [both] above it:
    parsing and comparing agree with the order of the version numbers. *)
Theorem responseStyle_of_printed_version localeCompare (a b c : N) :
  responseStyle localeCompare
    (parseCodexVersion
       (Some ("codex-cli " +:+ pretty a +:+ "." +:+ pretty b +:+ "."
              +:+ pretty c)))
    None
  = if decide (a = 0 ∧ (b < 77 ∨ (b = 77 ∧ c = 0)))%N
    then style_decision else style_both.
Proof.
  destruct (pretty_N_numeral a) as (Ha1 & Ha2 & Ha3 & _).
  destruct (pretty_N_numeral b) as (Hb1 & Hb2 & Hb3 & _).
  destruct (pretty_N_numeral c) as (Hc1 & Hc2 & Hc3 & _).
  pose proof (parseCodexVersion_numerals (pretty a) (pretty b) (pretty c) None
                Ha1 Ha2 Hb1 Hb2 Hc1 Hc2 ltac:(done)) as H.
  cbn zeta in H. rewrite app_empty_r in H. rewrite H, Ha3, Hb3, Hc3. clear H.
  unfold responseStyle, getElicitationResponseStyle, isVersionAtMost. cbn.
  set (v := {| raw := _; parsed := true; major := Z.of_N a |}).
  destruct (compareVersions_sign localeCompare v ELICITATION_DECISION_MAX_VERSION)
    as (Hlt & Hgt). cbn in Hlt, Hgt.
  case_decide as Hcase.
  - assert (compareVersions localeCompare v ELICITATION_DECISION_MAX_VERSION ≤ 0)
      as Hle.
    { destruct (decide (b = 77 ∧ c = 0)%N) as [[-> ->]|Hne].
      - destruct Hcase as [-> _].
        rewrite compareVersions_cutoff by done. done.
      - apply Z.lt_le_incl, Hlt. lia. }
    apply Z.leb_le in Hle. by rewrite Hle.
  - assert (compareVersions localeCompare v ELICITATION_DECISION_MAX_VERSION > 0)
      as Hpos by (apply Hgt; lia).
    destruct (Z.leb_spec (compareVersions localeCompare v
                            ELICITATION_DECISION_MAX_VERSION) 0); [lia|done].
Qed.

End VersionParserResults.

(** ** Subcommand selection by version *)

Section McpClientProperties.
Import Runner McpClient RunnerArgs.

(** X7.  Whenever [connect] starts a transport, the command is [codex]
    and the single argument is [mcp] or [mcp-server]. *)
Theorem connect_transport_range execOutput transport :
  connect execOutput = Some transport →
  mcp_command transport = "codex"
  ∧ (mcp_args transport = ["mcp"] ∨ mcp_args transport = ["mcp-server"]).
Proof.
  unfold connect, getCodexMcpCommand.
  repeat case_match; intros; simplify_eq; cbn; auto.
Qed.

Lemma connect_transport_range_witness :
  ∃ transport,
    connect (Some "codex-cli 0.43.1") = Some transport
    ∧ mcp_command transport = "codex".
Proof.
  eexists. split; [vm_compute; reflexivity|].
  apply (connect_transport_range (Some "codex-cli 0.43.1")).
  vm_compute. reflexivity.
Defined.

Lemma VersionParser_digit (c : ascii) :
  is_digit c = true → Ascii.eqb c "-" = false ∧ Ascii.eqb c "." = false.
Proof. intros H. by apply digit_classes in H as (_ & _ & _ & _ & ? & ? & _). Qed.

Lemma rev_app_app (s t acc : string) :
  String.rev_app (s +:+ t) acc = String.rev_app t (String.rev_app s acc).
Proof.
  revert acc. induction s as [|c s IH]; intros acc; [done|].
  rewrite app_cons. simpl. apply IH.
Qed.

Lemma rev_app_rev_app (s a b : string) :
  String.rev_app (String.rev_app s a) b = String.rev_app a (s +:+ b).
Proof.
  revert a b. induction s as [|c s IH]; intros a b; [done|].
  simpl. rewrite IH. simpl. by rewrite app_cons.
Qed.

(** Text that neither starts nor ends with white space is its own
    [trim]. *)
Lemma trim_id (c0 d : ascii) (middle : string) :
  is_space c0 = false → is_space d = false →
  trim (String c0 middle +:+ String d "") = String c0 middle +:+ String d "".
Proof.
  intros Hc Hd. unfold trim.
  assert (drop_while is_space (String c0 middle +:+ String d "")
          = String c0 middle +:+ String d "") as ->.
  { rewrite app_cons. simpl. by rewrite Hc. }
  unfold String.rev. rewrite rev_app_app.
  change (String.rev_app (String d "") ?x) with (String d x).
  cbn [drop_while]. rewrite Hd.
  change (String.rev_app (String d ?x) "") with (String.rev_app x (String d "")).
  by rewrite rev_app_rev_app.
Qed.

Lemma take_while_numeral (d : string) :
  all_chars is_digit d = true → take_while is_digit d = d.
Proof.
  intros H. rewrite <- (app_empty_r d) at 1.
  by apply take_while_run.
Qed.

Lemma Number_numeral (d : string) :
  d ≠ "" → all_chars is_digit d = true → Number d = Some (digits_value 0 d).
Proof.
  intros Hne Hall. unfold Number, all_digits.
  rewrite take_while_numeral by done. rewrite String.eqb_refl.
  by destruct d.
Qed.

Lemma parseInt_numeral (d : string) :
  d ≠ "" → all_chars is_digit d = true →
  parseInt (Some d) = Some (digits_value 0 d).
Proof.
  intros Hne Hall. unfold parseInt. rewrite take_while_numeral by done.
  by destruct d.
Qed.

Lemma split_dash_dot_nonempty (s : string) : split_dash_dot s ≠ [].
Proof.
  induction s as [|c s IH]; [done|]. cbn [split_dash_dot].
  destruct (_ || _); [done|]. by destruct (split_dash_dot s).
Qed.

Lemma split_dash_dot_piece (d rest : string) :
  all_chars (λ c, negb (Ascii.eqb c "-" || Ascii.eqb c ".")) d = true →
  split_dash_dot (d +:+ rest)
  = match split_dash_dot rest with
    | piece :: pieces => (d +:+ piece) :: pieces
    | [] => [d]
    end.
Proof.
  induction d as [|c d IH]; intros Hall.
  - rewrite app_empty_l. pose proof (split_dash_dot_nonempty rest).
    by destruct (split_dash_dot rest).
  - simpl in Hall. apply andb_true_iff in Hall as [Hc Hall].
    apply negb_true_iff in Hc. rewrite app_cons. cbn [split_dash_dot].
    rewrite Hc, IH by done. destruct (split_dash_dot rest); reflexivity.
Qed.

Lemma split_dash_dot_cons (d : string) (sep : ascii) (rest : string) :
  all_chars (λ c, negb (Ascii.eqb c "-" || Ascii.eqb c ".")) d = true →
  Ascii.eqb sep "-" || Ascii.eqb sep "." = true →
  split_dash_dot (d +:+ String sep rest) = d :: split_dash_dot rest.
Proof.
  intros Hall Hsep. rewrite split_dash_dot_piece by done.
  cbn [split_dash_dot]. rewrite Hsep. by rewrite app_empty_r.
Qed.

Lemma split_dash_dot_last (d : string) :
  all_chars (λ c, negb (Ascii.eqb c "-" || Ascii.eqb c ".")) d = true →
  split_dash_dot d = [d].
Proof.
  intros Hall. rewrite <- (app_empty_r d) at 1.
  rewrite split_dash_dot_piece by done. cbn. by rewrite app_empty_r.
Qed.

Lemma numeral_no_dash_dot (d : string) :
  all_chars is_digit d = true →
  all_chars (λ c, negb (Ascii.eqb c "-" || Ascii.eqb c ".")) d = true
  ∧ all_chars (λ c, negb (Ascii.eqb c "-")) d = true.
Proof.
  induction d as [|c d IH]; [done|]. simpl.
  intros [Hc Hall]%andb_true_iff.
  destruct (VersionParser_digit c Hc) as (H1 & H2).
  destruct (IH Hall) as [-> ->]. by rewrite H1, H2.
Qed.

End McpClientProperties.

Section LegacySubcommand.
Import Runner McpClient RunnerArgs.

Lemma numeral_last (d : string) :
  d ≠ "" → all_chars is_digit d = true →
  ∃ front l, d = front +:+ String l "" ∧ is_digit l = true.
Proof.
  induction d as [|c d IH]; [done|]. intros _ Hall. simpl in Hall.
  apply andb_true_iff in Hall as [Hc Hall].
  destruct d as [|c' d'].
  - by exists "", c.
  - destruct (IH ltac:(done) Hall) as (front & l & -> & Hl).
    exists (String c front), l. by rewrite app_cons.
Qed.

Lemma prefix_app (t rest : string) : String.prefix t (t +:+ rest) = true.
Proof.
  induction t as [|c t IH]; [by destruct rest|].
  rewrite app_cons. simpl. by destruct (ascii_dec c c).
Qed.

Lemma includes_here (before t rest : string) :
  Permission.includes (before +:+ t +:+ rest) t = true.
Proof.
  induction before as [|c before IH].
  - rewrite app_empty_l.
    destruct (t +:+ rest) eqn:E; cbn [Permission.includes];
      rewrite <- E, prefix_app; done.
  - rewrite app_cons. cbn [Permission.includes]. rewrite IH.
    by rewrite orb_true_r.
Qed.

Lemma includes_alpha_no_dash (s : string) :
  all_chars (λ c, negb (Ascii.eqb c "-")) s = true →
  Permission.includes s "-alpha." = false.
Proof.
  induction s as [|c s IH]; [done|]. cbn [all_chars].
  intros [Hc Hall]%andb_true_iff. apply negb_true_iff in Hc.
  cbn [Permission.includes String.prefix]. rewrite IH by done.
  destruct (ascii_dec "-" c) as [E|E]; [|done].
  subst c. discriminate Hc.
Qed.

Lemma strip_prefix_differs a p b s :
  Ascii.eqb a b = false → strip_prefix (String a p) (String b s) = None.
Proof. intros H. cbn [strip_prefix]. by rewrite H. Qed.

Lemma after_first_cons sep c s :
  after_first sep (String c s)
  = match strip_prefix sep (String c s) with
    | Some r => Some r
    | None => after_first sep s
    end.
Proof. reflexivity. Qed.

Lemma after_first_alpha (before dn : string) :
  all_chars (λ c, negb (Ascii.eqb c "-")) before = true →
  after_first "-alpha." (before +:+ "-alpha." +:+ dn) = Some dn.
Proof.
  induction before as [|c before IH].
  - intros _. rewrite app_empty_l. destruct dn; reflexivity.
  - cbn [all_chars]. intros [Hc Hall]%andb_true_iff. apply negb_true_iff in Hc.
    rewrite app_cons, after_first_cons.
    rewrite strip_prefix_differs by by rewrite Ascii.eqb_sym.
    by apply IH.
Qed.

(** The expression of [getCodexMcpCommand] on the printed version. *)
Lemma match_version_here_printed (da db dc : string) (alpha : option string) :
  da ≠ "" → all_chars is_digit da = true →
  db ≠ "" → all_chars is_digit db = true →
  dc ≠ "" → all_chars is_digit dc = true →
  (∀ dn, alpha = Some dn → dn ≠ "" ∧ all_chars is_digit dn = true) →
  match_version_here
    ("codex-cli " +:+ da +:+ "." +:+ db +:+ "." +:+ dc
     +:+ match alpha with Some dn => "-alpha." +:+ dn | None => "" end)
  = Some ((da +:+ "." +:+ db +:+ "." +:+ dc)
          +:+ match alpha with Some dn => "-alpha." +:+ dn | None => "" end).
Proof.
  intros Ha1 Ha2 Hb1 Hb2 Hc1 Hc2 Halpha. unfold match_version_here.
  set (suffix := match alpha with Some dn => "-alpha." +:+ dn | None => "" end).
  change (strip_prefix "codex-cli"
            ("codex-cli " +:+ da +:+ "." +:+ db +:+ "." +:+ dc +:+ suffix))
    with (Some (" " +:+ da +:+ "." +:+ db +:+ "." +:+ dc +:+ suffix)).
  cbn [mbind option_bind].
  rewrite (some_of_run is_space " ");
    [|done|done|apply starts_with_digit; [done|done|]; intros c Hc;
      by apply digit_classes in Hc as (? & _)].
  cbn [mbind option_bind].
  rewrite (some_of_run is_digit da) by (try done; by apply starts_with_other).
  cbn [mbind option_bind]. rewrite strip_prefix_app. cbn [mbind option_bind].
  rewrite (some_of_run is_digit db) by (try done; by apply starts_with_other).
  cbn [mbind option_bind]. rewrite strip_prefix_app. cbn [mbind option_bind].
  assert (∀ c r, suffix = String c r → is_digit c = false) as Hsuffix.
  { subst suffix. destruct alpha as [dn|]; [|done].
    by apply starts_with_other. }
  rewrite (some_of_run is_digit dc) by done.
  cbn [mbind option_bind]. subst suffix.
  destruct alpha as [dn|].
  - destruct (Halpha dn eq_refl) as [Hn1 Hn2].
    rewrite strip_prefix_app. cbn [mbind option_bind].
    rewrite <- (app_empty_r dn) at 1.
    rewrite (some_of_run is_digit dn) by done. reflexivity.
  - cbn. by rewrite app_empty_r.
Qed.

Lemma match_version_found s g :
  match_version_here s = Some g → match_version s = Some g.
Proof. intros H. destruct s; cbn [match_version]; by rewrite H. Qed.

(** The choice of [getCodexMcpCommand] on the text that
    [codex --version] prints, for any runs of digits. *)
Lemma getCodexMcpCommand_numerals (da db dc : string) (alpha : option string) :
  da ≠ "" → all_chars is_digit da = true →
  db ≠ "" → all_chars is_digit db = true →
  dc ≠ "" → all_chars is_digit dc = true →
  (∀ dn, alpha = Some dn → dn ≠ "" ∧ all_chars is_digit dn = true) →
  getCodexMcpCommand
    (Some ("codex-cli " +:+ da +:+ "." +:+ db +:+ "." +:+ dc
           +:+ match alpha with Some dn => "-alpha." +:+ dn | None => "" end))
  = Some (if (0 <? digits_value 0 da) || (43 <? digits_value 0 db)
          then "mcp-server"
          else if (digits_value 0 db =? 43) && (digits_value 0 dc =? 0) then
            match alpha with
            | Some dn => if 5 <=? digits_value 0 dn then "mcp-server" else "mcp"
            | None => "mcp-server"
            end
          else "mcp").
Proof.
  intros Ha1 Ha2 Hb1 Hb2 Hc1 Hc2 Halpha. unfold getCodexMcpCommand.
  set (suffix := match alpha with Some dn => "-alpha." +:+ dn | None => "" end).
  (* the text is its own trim *)
  assert (∃ front l,
            da +:+ "." +:+ db +:+ "." +:+ dc +:+ suffix = front +:+ String l ""
            ∧ is_digit l = true) as (front & l & Hlast & Hl).
  { subst suffix. destruct alpha as [dn|].
    - destruct (Halpha dn eq_refl) as [Hn1 Hn2].
      destruct (numeral_last dn Hn1 Hn2) as (front & l & -> & Hl).
      exists (da +:+ "." +:+ db +:+ "." +:+ dc +:+ "-alpha." +:+ front), l.
      split; [|done]. by rewrite !app_assoc_string.
    - destruct (numeral_last dc Hc1 Hc2) as (front & l & -> & Hl).
      exists (da +:+ "." +:+ db +:+ "." +:+ front), l.
      split; [|done]. by rewrite app_empty_r, !app_assoc_string. }
  assert (trim ("codex-cli " +:+ da +:+ "." +:+ db +:+ "." +:+ dc +:+ suffix)
          = "codex-cli " +:+ da +:+ "." +:+ db +:+ "." +:+ dc +:+ suffix) as ->.
  { rewrite Hlast.
    change ("codex-cli " +:+ front +:+ String l "")
      with (String "c" ("odex-cli " +:+ front +:+ String l "")).
    rewrite <- (app_assoc_string "odex-cli " front (String l "")).
    rewrite <- app_cons. apply trim_id; [done|].
    by apply digit_classes in Hl as (? & _). }
  rewrite (match_version_found _ ((da +:+ "." +:+ db +:+ "." +:+ dc) +:+ suffix))
    by by apply match_version_here_printed.
  destruct (numeral_no_dash_dot da Ha2) as [Ha3 Ha4].
  destruct (numeral_no_dash_dot db Hb2) as [Hb3 Hb4].
  destruct (numeral_no_dash_dot dc Hc2) as [Hc3 Hc4].
  assert (∃ more, split_dash_dot ((da +:+ "." +:+ db +:+ "." +:+ dc) +:+ suffix)
                  = da :: db :: dc :: more) as [more ->].
  { rewrite !app_assoc_string.
    rewrite (app_cons "." "" (db +:+ _)), app_empty_l.
    rewrite (split_dash_dot_cons da) by done.
    rewrite (app_cons "." "" (dc +:+ _)), app_empty_l.
    rewrite (split_dash_dot_cons db) by done.
    subst suffix. destruct alpha as [dn|].
    - rewrite (app_cons "-" "alpha." dn).
      rewrite (split_dash_dot_cons dc) by done. eauto.
    - rewrite app_empty_r, split_dash_dot_last by done. eauto. }
  cbn [fmap list_fmap lookup list_lookup mjoin option_join].
  rewrite !Number_numeral by done.
  cbn [num_gt num_eq].
  destruct ((0 <? digits_value 0 da) || (43 <? digits_value 0 db)); [done|].
  destruct ((digits_value 0 db =? 43) && (digits_value 0 dc =? 0)); [|done].
  subst suffix. destruct alpha as [dn|].
  - destruct (Halpha dn eq_refl) as [Hn1 Hn2].
    rewrite includes_here, after_first_alpha.
    + rewrite parseInt_numeral by done. cbn [num_ge].
      by destruct (5 <=? digits_value 0 dn).
    + rewrite !all_chars_app, Ha4, Hb4, Hc4. done.
  - rewrite app_empty_r, includes_alpha_no_dash; [done|].
    rewrite !all_chars_app, Ha4, Hb4, Hc4. done.
Qed.

(** X8.  The subcommand [getCodexMcpCommand] picks for the printed
    version [codex-cli a.b.c], with or without [-alpha.n]: [mcp-server]
    when the major number is above 0 or the minor number above 43; for
    0.43.0 [mcp-server] unless it is an alpha below 5; and [mcp] for
    everything else, which takes in 0.43.1 and the later patches of
    0.43. *)
Theorem getCodexMcpCommand_of_printed_version (a b c : N) (alpha : option N) :
  getCodexMcpCommand
    (Some ("codex-cli " +:+ pretty a +:+ "." +:+ pretty b +:+ "." +:+ pretty c
           +:+ match alpha with
               | Some n => "-alpha." +:+ pretty n
               | None => ""
               end))
  = Some (if decide (0 < a ∨ 43 < b)%N then "mcp-server"
          else if decide (b = 43 ∧ c = 0)%N then
            match alpha with
            | Some n => if decide (5 ≤ n)%N then "mcp-server" else "mcp"
            | None => "mcp-server"
            end
          else "mcp").
Proof.
  destruct (pretty_N_numeral a) as (Ha1 & Ha2 & Ha3 & _).
  destruct (pretty_N_numeral b) as (Hb1 & Hb2 & Hb3 & _).
  destruct (pretty_N_numeral c) as (Hc1 & Hc2 & Hc3 & _).
  pose proof (getCodexMcpCommand_numerals (pretty a) (pretty b) (pretty c)
                (pretty <$> alpha) Ha1 Ha2 Hb1 Hb2 Hc1 Hc2) as H.
  rewrite Ha3, Hb3, Hc3 in H.
  destruct alpha as [n|]; cbn [fmap option_fmap option_map] in H.
  - destruct (pretty_N_numeral n) as (Hn1 & Hn2 & Hn3 & _).
    rewrite H by (by intros ? [= <-]). rewrite Hn3. f_equal.
    repeat case_decide;
      repeat match goal with
      | |- context [(?x <? ?y)] => destruct (Z.ltb_spec x y)
      | |- context [(?x <=? ?y)] => destruct (Z.leb_spec x y)
      | |- context [(?x =? ?y)] => destruct (Z.eqb_spec x y)
      end; cbn; try done; lia.
  - rewrite H by done. f_equal.
    repeat case_decide;
      repeat match goal with
      | |- context [(?x <? ?y)] => destruct (Z.ltb_spec x y)
      | |- context [(?x =? ?y)] => destruct (Z.eqb_spec x y)
      end; cbn; try done; lia.
Qed.

End LegacySubcommand.

(** ** The MCP client around the permission handler *)

Section ReplyProperties.
Import Elicitation Permission VersionParser Promises McpSession.

(** X9.  The action and the decision of a reply agree: the action is
    [accept] exactly for the decisions [approved], [approved_for_session]
    and an amendment with a command that is not empty, [cancel] exactly for
    [abort], [decline] exactly for [denied]; a rejected promise is
    declined; the [content] field is there exactly in the style [both]. *)
Theorem reply_action_and_decision_agree style outcome :
  let response := reply style outcome in
  resp_action response
  = match outcome with
    | Rejected _ => decline
    | Resolved r =>
        match decision r with
        | approved | approved_for_session | approved_execpolicy_amendment => accept
        | abort => cancel
        | denied => decline
        end
    end
  ∧ (resp_action response = accept
     ↔ Elicitation.resp_decision response = Some (ReviewTag approved)
       ∨ Elicitation.resp_decision response = Some (ReviewTag approved_for_session)
       ∨ ∃ command, command ≠ []
                    ∧ Elicitation.resp_decision response = Some (ReviewAmendment command))
  ∧ (resp_action response = cancel
     ↔ Elicitation.resp_decision response = Some (ReviewTag abort))
  ∧ (resp_action response = decline
     ↔ Elicitation.resp_decision response = Some (ReviewTag denied))
  ∧ (resp_content response = Some tt ↔ style = style_both).
Proof.
  destruct outcome as [[d a]|message]; destruct style; cbn;
    unfold mapPermissionResultToDecision; cbn.
  all: destruct d || idtac.
  all: try (destruct a as [[|c l]|]; cbn).
  all: repeat split; try done; try (intros; by eauto);
    try (intros [?|[?|(? & ? & ?)]]; done).
  all: try (intros _; right; right; exists (c :: l); done).
Qed.

End ReplyProperties.

Section AmendmentCacheProperties.
Import Elicitation Permission VersionParser Promises McpSession.

Lemma nonempty_strings_only (items : list Json) :
  "" ∉ omap nonempty_string items.
Proof.
  induction items as [|item items IH]; [apply not_elem_of_nil|].
  cbn [omap list_omap]. destruct (nonempty_string item) as [s|] eqn:Hs; [|done].
  intros [Heq|?]%elem_of_cons; [|done]. subst s.
  destruct item as [| | |s0| |]; try done. cbn in Hs.
  destruct (String.eqb_spec s0 ""); [done|]. by injection Hs as ->.
Qed.

(** What an [exec_approval_request] event with a call id and a usable
    proposal does to the cache. *)
Lemma cacheExecPolicyAmendment_stores fields cache callId items :
  map_get "type" fields = Some (JString "exec_approval_request") →
  map_get "call_id" fields = Some (JString callId) → callId ≠ "" →
  map_get "proposed_execpolicy_amendment" fields = Some (JArray items) →
  omap nonempty_string items ≠ [] →
  cacheExecPolicyAmendment (Some (JObject fields)) cache
  = <[callId := omap nonempty_string items]> cache.
Proof.
  intros Htype Hcall Hne Hitems Hproposed. unfold cacheExecPolicyAmendment.
  cbn [truthy_json is_object negb orb field is_string].
  rewrite Htype, Hcall, Hitems. cbn [is_string].
  rewrite String.eqb_refl. cbn [negb].
  destruct (omap nonempty_string items) as [|p ps]; [done|].
  by destruct (String.eqb_spec callId "").
Qed.

Lemma truthy_nonempty (s : string) : s ≠ "" → truthy (Some s) = true.
Proof. intros H. cbn. by destruct (String.eqb_spec s ""). Qed.

(** X10.  An amendment cached from an [exec_approval_request] event is
    handed out once: the first request with the call id gets the strings
    of the proposal that are not empty, the entry is gone afterwards, and a
    second request with the same call id gets nothing. *)
Theorem cached_amendment_is_consumed_once fields cache callId items eventId :
  map_get "type" fields = Some (JString "exec_approval_request") →
  map_get "call_id" fields = Some (JString callId) → callId ≠ "" →
  map_get "proposed_execpolicy_amendment" fields = Some (JArray items) →
  omap nonempty_string items ≠ [] →
  let cache1 := cacheExecPolicyAmendment (Some (JObject fields)) cache in
  let consumed := consumeExecPolicyAmendment (Some callId) eventId cache1 in
  consumed.1 = Some (omap nonempty_string items)
  ∧ consumed.2 !! callId = None
  ∧ (consumeExecPolicyAmendment (Some callId) eventId consumed.2).1 = None.
Proof.
  intros Htype Hcall Hne Hitems Hproposed cache1 consumed.
  subst consumed cache1.
  rewrite (cacheExecPolicyAmendment_stores fields cache callId items) by done.
  unfold consumeExecPolicyAmendment.
  rewrite (truthy_nonempty callId Hne). cbn [default from_option id fst snd].
  rewrite lookup_insert_eq. cbn [fst snd].
  assert (∀ m : gmap string (list string),
            (if truthy eventId then delete (default "" eventId) (delete callId m)
             else delete callId m) !! callId = None) as Hgone.
  { intros m. destruct (truthy eventId).
    - destruct (decide (default "" eventId = callId)) as [->|?].
      + by rewrite lookup_delete_eq.
      + by rewrite lookup_delete_ne, lookup_delete_eq.
    - by rewrite lookup_delete_eq. }
  split; [done|]. split; [apply Hgone|].
  rewrite Hgone.
  destruct (truthy eventId) eqn:Hevent; [|done].
  by rewrite lookup_delete_eq.
Qed.

End AmendmentCacheProperties.

Section ClientStateProperties.
Import Elicitation Permission VersionParser Promises McpSession.

Lemma cached_amendment_is_consumed_once_witness :
  (consumeExecPolicyAmendment (Some "call-1") None
     (cacheExecPolicyAmendment
        (Some (JObject [("type", JString "exec_approval_request");
                        ("call_id", JString "call-1");
                        ("proposed_execpolicy_amendment",
                         JArray [JString "yarn"; JNumber 3; JString "";
                                 JString "dev"])]))
        ∅)).1
  = Some ["yarn"; "dev"].
Proof.
  apply (cached_amendment_is_consumed_once
           [("type", JString "exec_approval_request");
            ("call_id", JString "call-1");
            ("proposed_execpolicy_amendment",
             JArray [JString "yarn"; JNumber 3; JString ""; JString "dev"])]
           ∅ "call-1" [JString "yarn"; JNumber 3; JString ""; JString "dev"]
           None);
    [reflexivity | reflexivity | discriminate | reflexivity | discriminate].
Defined.

(** X11.  The amendment cache stays well formed: caching an event and
    consuming an entry keep it free of empty keys, empty lists and empty
    strings, and what is consumed is a list that is not empty of strings
    that are not empty. *)
Theorem amendment_cache_stays_well_formed cache :
  well_formed_amendments cache →
  (∀ event, well_formed_amendments (cacheExecPolicyAmendment event cache))
  ∧ (∀ callId eventId,
       well_formed_amendments (consumeExecPolicyAmendment callId eventId cache).2
       ∧ ∀ proposed,
           (consumeExecPolicyAmendment callId eventId cache).1 = Some proposed →
           proposed ≠ [] ∧ "" ∉ proposed).
Proof.
  intros Hwf. split.
  - intros event. unfold cacheExecPolicyAmendment.
    destruct (negb (truthy_json event) || negb (is_object event)); [done|].
    destruct (negb (is_string _ _)); [done|].
    destruct (field "call_id" event) as [[| | |c| |]|]; try done.
    destruct (field "proposed_execpolicy_amendment" event)
      as [[| | | |items|]|]; try done.
    destruct (omap nonempty_string items) as [|p ps] eqn:Hitems; [done|].
    destruct (String.eqb_spec c ""); [done|].
    intros key proposed. rewrite lookup_insert. case_decide as Hkey.
    + intros [= <-]. subst key. split; [done|]. split; [done|].
      rewrite <- Hitems. apply nonempty_strings_only.
    + apply Hwf.
  - intros callId eventId. unfold consumeExecPolicyAmendment. cbn [fst snd].
    split.
    + intros key proposed Hkey. apply (Hwf key proposed).
      destruct (truthy callId), (truthy eventId);
        repeat match type of Hkey with
        | delete _ _ !! _ = Some _ => apply lookup_delete_Some in Hkey as [_ Hkey]
        end; done.
    + intros proposed.
      destruct (truthy callId).
      * destruct (cache !! default "" callId) as [l|] eqn:Hl.
        -- intros [= <-]. by destruct (Hwf _ _ Hl) as (_ & ? & ?).
        -- destruct (truthy eventId); [|done].
           intros Hl'. by destruct (Hwf _ _ Hl') as (_ & ? & ?).
      * destruct (truthy eventId); [|done].
        intros Hl'. by destruct (Hwf _ _ Hl') as (_ & ? & ?).
Qed.

Lemma amendment_cache_stays_well_formed_witness :
  well_formed_amendments
    (cacheExecPolicyAmendment
       (Some (JObject [("type", JString "exec_approval_request");
                       ("call_id", JString "call-1");
                       ("proposed_execpolicy_amendment",
                        JArray [JString "yarn"])])) ∅).
Proof.
  apply (amendment_cache_stays_well_formed ∅).
  intros key proposed H. by rewrite lookup_empty in H.
Defined.

(** X12.  [getCodexVersionInfo] asks for the version once: the first
    result is cached, every later call returns it whatever [codex
    --version] would print then, and a first call that fails or prints
    nothing caches an unparsed version. *)
Theorem getCodexVersionInfo_runs_once cached execOutput execOutput' :
  let first := getCodexVersionInfo cached execOutput in
  first.2 = Some first.1
  ∧ getCodexVersionInfo first.2 execOutput' = first
  ∧ (cached = None → execOutput = None ∨ execOutput = Some "" →
     parsed first.1 = false).
Proof.
  unfold getCodexVersionInfo. destruct cached as [info|]; cbn; [done|].
  split; [done|]. split; [done|].
  intros _ [-> | ->]; reflexivity.
Qed.

Lemma getCodexVersionInfo_runs_once_witness :
  parsed (getCodexVersionInfo None None).1 = false.
Proof.
  apply (getCodexVersionInfo_runs_once None None None); [reflexivity|].
  by left.
Defined.

(** X13.  The style override of the environment is read without regard
    to case: a value that is [decision] or [both] in lower case decides the
    style, every other value leaves the choice to the version. *)
Theorem responseStyle_env_override localeCompare info env :
  (toLowerCase env = "decision" →
   responseStyle localeCompare info (Some env) = style_decision)
  ∧ (toLowerCase env = "both" →
     responseStyle localeCompare info (Some env) = style_both)
  ∧ (toLowerCase env ≠ "decision" → toLowerCase env ≠ "both" →
     responseStyle localeCompare info (Some env)
     = responseStyle localeCompare info None).
Proof.
  unfold responseStyle, getElicitationResponseStyle. cbn [fmap option_fmap option_map].
  repeat split.
  - intros ->. done.
  - intros ->. done.
  - intros Hd Hb.
    rewrite !bool_decide_eq_false_2 by congruence. done.
Qed.

Lemma responseStyle_env_override_witness :
  responseStyle (λ _ _, 0) (unparsed None) (Some "DECISION") = style_decision.
Proof.
  apply (responseStyle_env_override (λ _ _, 0) (unparsed None) "DECISION").
  reflexivity.
Defined.

End ClientStateProperties.

Section IdentifierProperties.
Import Elicitation Permission VersionParser Promises McpSession.

Lemma truthy_json_Some value : truthy_json value = true → is_Some value.
Proof. destruct value; [eauto|done]. Qed.

Lemma set_if_truthy_valid value current :
  (current = None ∨ truthy_json current = true) →
  set_if_truthy value current = None
  ∨ truthy_json (set_if_truthy value current) = true.
Proof. unfold set_if_truthy. destruct (truthy_json value) eqn:H; auto. Qed.

Lemma set_if_truthy_keeps value current :
  is_Some current → is_Some (set_if_truthy value current).
Proof.
  unfold set_if_truthy. destruct (truthy_json value) eqn:H; [|done].
  intros _. by apply truthy_json_Some.
Qed.

Lemma update_from_candidate_valid ids candidate :
  (sessionId ids = None ∨ truthy_json (sessionId ids) = true) →
  (conversationId ids = None ∨ truthy_json (conversationId ids) = true) →
  let ids' := update_from_candidate ids candidate in
  (sessionId ids' = None ∨ truthy_json (sessionId ids') = true)
  ∧ (conversationId ids' = None ∨ truthy_json (conversationId ids') = true).
Proof. intros Hs Hc. cbn. split; by apply set_if_truthy_valid. Qed.

Lemma from_content_item_valid ids item :
  (sessionId ids = None ∨ truthy_json (sessionId ids) = true) →
  (conversationId ids = None ∨ truthy_json (conversationId ids) = true) →
  let ids' := from_content_item ids item in
  (sessionId ids' = None ∨ truthy_json (sessionId ids') = true)
  ∧ (conversationId ids' = None ∨ truthy_json (conversationId ids') = true).
Proof.
  intros Hs Hc. unfold from_content_item. cbn [sessionId conversationId].
  split.
  - destruct (negb (truthy_json (sessionId ids))
              && truthy_json (field "sessionId" (Some item))) eqn:H; [|done].
    apply andb_true_iff in H as [_ H]. by right.
  - destruct (negb (truthy_json (conversationId ids))
              && truthy_json (field "conversationId" (Some item))) eqn:H; [|done].
    apply andb_true_iff in H as [_ H]. by right.
Qed.

Lemma foldl_valid {A} (step : Identifiers → A → Identifiers) (l : list A) ids :
  (∀ ids a,
     (sessionId ids = None ∨ truthy_json (sessionId ids) = true) →
     (conversationId ids = None ∨ truthy_json (conversationId ids) = true) →
     (sessionId (step ids a) = None ∨ truthy_json (sessionId (step ids a)) = true)
     ∧ (conversationId (step ids a) = None
        ∨ truthy_json (conversationId (step ids a)) = true)) →
  (sessionId ids = None ∨ truthy_json (sessionId ids) = true) →
  (conversationId ids = None ∨ truthy_json (conversationId ids) = true) →
  (sessionId (foldl step ids l) = None
   ∨ truthy_json (sessionId (foldl step ids l)) = true)
  ∧ (conversationId (foldl step ids l) = None
     ∨ truthy_json (conversationId (foldl step ids l)) = true).
Proof.
  intros Hstep. revert ids. induction l as [|a l IH]; intros ids Hs Hc; [done|].
  cbn [foldl]. destruct (Hstep ids a Hs Hc). by apply IH.
Qed.

(** Only truthy values are ever stored as identifiers. *)
Lemma ids_reachable_valid ids :
  ids_reachable ids →
  (sessionId ids = None ∨ truthy_json (sessionId ids) = true)
  ∧ (conversationId ids = None ∨ truthy_json (conversationId ids) = true).
Proof.
  induction 1 as [|ids event _ [Hs Hc]|ids response _ [Hs Hc]|ids _ _
                 |connected execOutput transportStarts ids ids' _ [Hs Hc]
                    Hcont].
  - cbn. auto.
  - unfold updateIdentifiersFromEvent.
    destruct (negb (truthy_json event) || negb (is_object event)); [done|].
    apply foldl_valid; [|done|done].
    intros. by apply update_from_candidate_valid.
  - unfold extractIdentifiers.
    set (meta := if truthy_json (field "meta" response) then _ else _).
    set (ids1 := {| sessionId := _; conversationId := _ |}).
    assert ((sessionId ids1 = None ∨ truthy_json (sessionId ids1) = true)
            ∧ (conversationId ids1 = None
               ∨ truthy_json (conversationId ids1) = true)) as [Hs1 Hc1].
    { subst ids1. cbn. split.
      - destruct (truthy_json (field "sessionId" meta)) eqn:H; [by right|].
        by apply set_if_truthy_valid.
      - destruct (truthy_json (field "conversationId" meta)) eqn:H; [by right|].
        by apply set_if_truthy_valid. }
    destruct (field "content" response) as [[| | | |content|]|]; try done.
    apply foldl_valid; [|done|done].
    intros. by apply from_content_item_valid.
  - cbn. auto.
  - unfold continueSession_identifiers in Hcont.
    destruct (connect_returns _ _ _); [|done]. cbn [negb] in Hcont.
    destruct (truthy_json (sessionId ids)) eqn:Hsession; [|done].
    destruct (truthy_json (conversationId ids)) eqn:Hconv; cbn in Hcont;
      injection Hcont as <-; cbn; auto.
Qed.

(** X14.  [continueSession] goes ahead exactly when the client is
    connected, or [connect()] succeeds in connecting it, and
    [hasActiveSession] holds; it then keeps the session id, and afterwards
    there is a conversation id: the one there was, or else the session
    id. *)
Theorem hasActiveSession_iff_continueSession_runs connected execOutput
    transportStarts ids :
  ids_reachable ids →
  (is_Some (continueSession_identifiers connected execOutput transportStarts ids)
   ↔ hasActiveSession ids = true
     ∧ (connected = true
        ∨ (is_Some (McpClient.connect execOutput) ∧ transportStarts = true)))
  ∧ ∀ ids',
      continueSession_identifiers connected execOutput transportStarts ids
      = Some ids' →
      sessionId ids' = sessionId ids
      ∧ is_Some (conversationId ids')
      ∧ (is_Some (conversationId ids) → conversationId ids' = conversationId ids)
      ∧ (conversationId ids = None → conversationId ids' = sessionId ids).
Proof.
  intros Hreach. destruct (ids_reachable_valid ids Hreach) as [Hs Hc].
  assert (connect_returns connected execOutput transportStarts = true
          ↔ connected = true
            ∨ (is_Some (McpClient.connect execOutput) ∧ transportStarts = true))
    as Hconnect.
  { unfold connect_returns. destruct connected; [by split; auto|].
    destruct (McpClient.connect execOutput) as [transport|].
    - split; [by right; eauto|]. by intros [?|[_ ?]].
    - split; [done|]. by intros [?|[[? ?] _]]. }
  unfold hasActiveSession, continueSession_identifiers. split.
  - destruct (connect_returns connected execOutput transportStarts);
      cbn [negb].
    + destruct Hs as [-> | Hs].
      * cbn. split; [by intros [? [=]]|by intros [? _]].
      * rewrite Hs. cbn. apply truthy_json_Some in Hs as [v ->].
        split.
        -- intros _. split; [done|]. by apply Hconnect.
        -- intros _. destruct (negb _); eauto.
    + split; [by intros [? [=]]|].
      intros [_ Hok]. apply Hconnect in Hok. done.
  - intros ids'.
    destruct (connect_returns connected execOutput transportStarts);
      cbn [negb]; [|done].
    destruct (truthy_json (sessionId ids)) eqn:Hsession; [|done].
    cbn. destruct Hc as [Hc | Hc]; rewrite Hc; cbn.
    + intros [= <-]. cbn. split; [done|]. split; [by apply truthy_json_Some|].
      split; [by intros [? [=]]|done].
    + intros [= <-]. split; [done|]. split; [by apply truthy_json_Some|].
      split; [done|]. intros H. rewrite H in Hc. done.
Qed.

Lemma hasActiveSession_iff_continueSession_runs_witness :
  is_Some
    (continueSession_identifiers false (Some "codex-cli 0.92.0") true
       (extractIdentifiers
          (Some (JObject [("meta", JObject [("sessionId", JString "s-1")])]))
          {| sessionId := None; conversationId := None |}))
  ∧ ¬ is_Some
        (continueSession_identifiers false None true
           (extractIdentifiers
              (Some (JObject [("meta", JObject [("sessionId", JString "s-1")])]))
              {| sessionId := None; conversationId := None |})).
Proof.
  split.
  - apply (hasActiveSession_iff_continueSession_runs false
             (Some "codex-cli 0.92.0") true
             (extractIdentifiers
                (Some (JObject [("meta", JObject [("sessionId", JString "s-1")])]))
                {| sessionId := None; conversationId := None |})).
    + apply ids_response, ids_new.
    + split; [vm_compute; reflexivity|]. right.
      split; [vm_compute; eauto | reflexivity].
  - intros H.
    destruct (hasActiveSession_iff_continueSession_runs false None true
                (extractIdentifiers
                   (Some (JObject [("meta",
                                    JObject [("sessionId", JString "s-1")])]))
                   {| sessionId := None; conversationId := None |}))
      as [Hiff _]; [apply ids_response, ids_new|].
    apply Hiff in H as [_ [H | [[transport H] _]]]; discriminate H.
Defined.

Lemma foldl_keeps {A} (step : Identifiers → A → Identifiers) (l : list A) ids :
  (∀ ids a, is_Some (sessionId ids) → is_Some (sessionId (step ids a))) →
  is_Some (sessionId ids) → is_Some (sessionId (foldl step ids l)).
Proof.
  intros Hstep. revert ids. induction l as [|a l IH]; intros ids Hs; [done|].
  cbn [foldl]. by apply IH, Hstep.
Qed.

(** X15.  An active session stays active under every event and every
    response, whatever they carry; [clearSession] ends it, after which
    [continueSession] fails, connected or not. *)
Theorem only_clearSession_ends_a_session ids :
  hasActiveSession ids = true →
  (∀ event, hasActiveSession (updateIdentifiersFromEvent event ids) = true)
  ∧ (∀ response, hasActiveSession (extractIdentifiers response ids) = true)
  ∧ hasActiveSession (clearSession ids) = false
  ∧ ∀ connected execOutput transportStarts,
      continueSession_identifiers connected execOutput transportStarts
        (clearSession ids)
      = None.
Proof.
  intros Hactive.
  assert (is_Some (sessionId ids)) as Hs.
  { unfold hasActiveSession in Hactive. destruct (sessionId ids); [eauto|done]. }
  assert (∀ ids', is_Some (sessionId ids') → hasActiveSession ids' = true)
    as Hback.
  { intros ids' [v Hv]. unfold hasActiveSession. by rewrite Hv. }
  split; [|split; [|split; [done|]]].
  3: { intros connected execOutput transportStarts.
       unfold continueSession_identifiers.
       by destruct (connect_returns _ _ _). }
  - intros event. apply Hback. unfold updateIdentifiersFromEvent.
    destruct (negb (truthy_json event) || negb (is_object event)); [done|].
    apply foldl_keeps; [|done].
    intros ids0 candidate H0. cbn. by apply set_if_truthy_keeps.
  - intros response. apply Hback. unfold extractIdentifiers.
    set (meta := if truthy_json (field "meta" response) then _ else _).
    set (ids1 := {| sessionId := _; conversationId := _ |}).
    assert (is_Some (sessionId ids1)) as Hs1.
    { subst ids1. cbn.
      destruct (truthy_json (field "sessionId" meta)) eqn:H;
        [by apply truthy_json_Some|].
      by apply set_if_truthy_keeps. }
    destruct (field "content" response) as [[| | | |content|]|]; try done.
    apply foldl_keeps; [|done].
    intros ids0 item H0. unfold from_content_item. cbn [sessionId].
    destruct (negb (truthy_json (sessionId ids0))
              && truthy_json (field "sessionId" (Some item))) eqn:H; [|done].
    apply andb_true_iff in H as [_ H]. by apply truthy_json_Some.
Qed.

Lemma only_clearSession_ends_a_session_witness :
  hasActiveSession
    (updateIdentifiersFromEvent (Some (JObject [("session_id", JNull)]))
       {| sessionId := Some (JString "s-1"); conversationId := None |}) = true.
Proof.
  apply (only_clearSession_ends_a_session
           {| sessionId := Some (JString "s-1"); conversationId := None |}).
  reflexivity.
Defined.

End IdentifierProperties.

(** ** Permission bridge: deliveries, re-registration, matching *)

Section PermissionMore.
Import Elicitation Permission Promises Fixtures.

Lemma lower_ascii_idempotent c : lower_ascii (lower_ascii c) = lower_ascii c.
Proof. destruct c as [[] [] [] [] [] [] [] []]; reflexivity. Qed.

Lemma toLowerCase_idempotent s : toLowerCase (toLowerCase s) = toLowerCase s.
Proof.
  induction s as [|c s IH]; [done|]. simpl.
  by rewrite lower_ascii_idempotent, IH.
Qed.

(** X16.  [shouldAutoApprove] reads the tool name and the call id in
    lower case only and does not read the input: two calls whose names and
    ids differ in case alone get the same answer. *)
Theorem shouldAutoApprove_ignores_case toolName toolName' toolCallId toolCallId'
    input input' st :
  toLowerCase toolName = toLowerCase toolName' →
  toLowerCase toolCallId = toLowerCase toolCallId' →
  shouldAutoApprove toolName toolCallId input st
  = shouldAutoApprove toolName' toolCallId' input' st.
Proof. intros Hn Hi. unfold shouldAutoApprove. by rewrite Hn, Hi. Qed.

Lemma shouldAutoApprove_ignores_case_witness :
  shouldAutoApprove "CHANGE_TITLE" "Call-1" "{}" test_handler
  = shouldAutoApprove "change_title" "call-1" "{}" test_handler.
Proof.
  apply (shouldAutoApprove_ignores_case "CHANGE_TITLE" "change_title"
           "Call-1" "call-1" "{}" "{}" test_handler); reflexivity.
Defined.

(** X17.  A permission response delivered a second time is ignored: the
    first delivery settles the request, the second returns without
    resolving anything and leaves the handler as it is. *)
Theorem duplicate_decision_is_ignored depth now now' response st pending :
  reachable st →
  map_get (normalizeRequestId (id response)) (pendingRequests st) = Some pending →
  ∃ st',
    permission_rpc depth now response st = Some (st', false)
    ∧ permission_rpc depth now' response st' = Some (st', false).
Proof.
  intros Hreach Hget.
  destruct (reachable_consistent st Hreach) as (_ & _ & Hall).
  destruct (Hall _ _ Hget) as (Hres & _).
  destruct (permission_rpc_match depth now response st pending Hget Hres)
    as (st' & Hrun & Hp & _).
  exists st'. split; [done|].
  apply permission_rpc_no_match.
  by rewrite Hp, map_get_delete, decide_True.
Qed.

Lemma duplicate_decision_is_ignored_witness :
  ∃ st',
    permission_rpc 0 20 amendment_response handler_awaiting_exec_1
    = Some (st', false)
    ∧ permission_rpc 0 30 amendment_response st' = Some (st', false).
Proof.
  apply (duplicate_decision_is_ignored 0 20 30 amendment_response
           handler_awaiting_exec_1
           {| handle := 0; on_resolve := Return; on_reject := Return;
              toolName := "CodexBash"; input := "yarn dev" |}).
  - apply reach_handleToolCall, reach_new.
  - reflexivity.
Defined.

(** X18.  After a reset every permission response is ignored, whatever
    its id: nothing is pending any more. *)
Theorem decision_after_reset_is_ignored depth depth' now now' response st st' :
  isResetting st = false →
  reset depth now st = Some st' →
  permission_rpc depth' now' response st' = Some (st', false).
Proof.
  intros Hflag Hreset.
  destruct (reset_result_frame depth now st st' Hflag Hreset) as (_ & Hp & _).
  apply permission_rpc_no_match. by rewrite Hp.
Qed.

Lemma decision_after_reset_is_ignored_witness :
  ∃ st',
    reset 2 15 handler_awaiting_exec_1 = Some st'
    ∧ permission_rpc 0 20 amendment_response st' = Some (st', false).
Proof.
  eexists. split; [vm_compute; reflexivity|].
  apply (decision_after_reset_is_ignored 2 0 15 20 amendment_response
           handler_awaiting_exec_1); [reflexivity|].
  vm_compute. reflexivity.
Defined.

End PermissionMore.

(** ** Permission bridge: handles are settled at most once *)

Section HandleTracking.
Import Elicitation Permission Promises Fixtures.

Local Abbreviation handles m :=
  ((λ e : string * PendingRequest, handle e.2) <$> m).

Lemma handles_map_set k (v : PendingRequest) (m : list (string * PendingRequest)) :
  handle v ∉ handles m →
  NoDup (handles m) →
  NoDup (handles (map_set k v m))
  ∧ ∀ h, h ∈ handles (map_set k v m) →
         h = handle v ∨ h ∈ handles m.
Proof.
  induction m as [|[k' v'] m IH]; intros Hfresh Hnd.
  - cbn. split; [apply NoDup_singleton|]. intros h [->|H]%elem_of_cons; auto.
  - cbn [map_set]. rewrite fmap_cons in Hfresh, Hnd. cbn [snd] in Hfresh, Hnd.
    apply not_elem_of_cons in Hfresh as [Hne Hfresh].
    apply NoDup_cons in Hnd as [Hnotin Hnd].
    destruct (decide (k' = k)) as [->|Hk].
    + rewrite !fmap_cons. cbn [snd]. split.
      * apply NoDup_cons. done.
      * intros h [->|H]%elem_of_cons; [by left|]. right. by right.
    + rewrite !fmap_cons. cbn [snd]. destruct (IH Hfresh Hnd) as [IHnd IHin].
      split.
      * apply NoDup_cons. split; [|done].
        intros [Heq|H]%IHin; [by apply Hne|done].
      * intros h [->|H]%elem_of_cons; [right; by left|].
        destruct (IHin h H) as [->|?]; [by left|]. right. by right.
Qed.

Lemma handles_map_delete k (v : PendingRequest) (m : list (string * PendingRequest)) :
  NoDup (handles m) →
  map_get k m = Some v →
  NoDup (handles (map_delete k m))
  ∧ (handle v ∉ handles (map_delete k m))
  ∧ ∀ h, h ∈ handles (map_delete k m) →
         h ∈ handles m.
Proof.
  assert (∀ m' : list (string * PendingRequest), ∀ h,
            h ∈ handles (map_delete k m') →
            h ∈ handles m') as Hsub.
  { intros m' h ([k1 v1] & -> & Hin)%list_elem_of_fmap.
    apply map_delete_elem in Hin as [Hin _].
    apply list_elem_of_fmap. by exists (k1, v1). }
  assert (∀ m' : list (string * PendingRequest),
            NoDup (handles m') →
            NoDup (handles (map_delete k m')))
    as Hnd'.
  { induction m' as [|[k1 v1] m' IH]; [done|]. rewrite fmap_cons.
    intros [Hnotin Hnd]%NoDup_cons. cbn [map_delete].
    destruct (decide (k1 = k)); [by apply IH|].
    rewrite fmap_cons. apply NoDup_cons. split; [|by apply IH].
    intros H. by apply Hnotin, Hsub. }
  induction m as [|[k' v'] m IH]; [done|].
  rewrite fmap_cons. cbn [snd map_get map_delete].
  intros [Hnotin Hnd]%NoDup_cons.
  destruct (decide (k' = k)) as [->|Hk].
  - intros [= ->]. split; [by apply Hnd'|]. split.
    + intros H. by apply Hnotin, Hsub.
    + intros h H. right. by apply Hsub.
  - intros Hget. destruct (IH Hnd Hget) as (IHnd & IHnotin & IHsub).
    rewrite fmap_cons. cbn [snd]. split; [|split].
    + apply NoDup_cons. split; [|done]. intros H. by apply Hnotin, Hsub.
    + intros [Heq|H]%elem_of_cons; [|done].
      apply Hnotin. rewrite <- Heq.
      apply list_elem_of_fmap. exists (k, v). split; [done|].
      by apply map_get_Some_elem.
    + intros h [->|H]%elem_of_cons; [by left|]. right. by apply IHsub.
Qed.

Lemma settled_handles_app evs evs' :
  settled_handles (evs ++ evs') = settled_handles evs ++ settled_handles evs'.
Proof. unfold settled_handles, settlements. by rewrite omap_app, fmap_app. Qed.

Lemma settlements_of_reset (timers : gmap string nat)
    (l : list (string * PendingRequest)) :
  settlements
    (flat_map (λ entry : string * PendingRequest,
       match timers !! entry.1 with
       | Some timer => [EvClearTimeout timer]
       | None => []
       end ++ [EvReject (handle entry.2) "Session reset"]) l)
  = (λ entry, (handle entry.2, Rejected "Session reset")) <$> l.
Proof.
  unfold settlements. induction l as [|entry l IH]; [done|].
  cbn [flat_map]. rewrite !omap_app, IH, fmap_cons.
  by destruct (timers !! entry.1).
Qed.

(** The state a reset ends in, whatever depth gave the result. *)
Lemma reset_result depth now st st' :
  isResetting st = false →
  NoDup (pendingRequests st).*1 →
  reset depth now st = Some st' →
  pendingRequests st' = []
  ∧ nextHandle st' = nextHandle st
  ∧ events st'
    = events st
      ++ flat_map (λ entry : string * PendingRequest,
           match pendingWarningTimers st !! entry.1 with
           | Some timer => [EvClearTimeout timer]
           | None => []
           end ++ [EvReject (handle entry.2) "Session reset"])
           (pendingRequests st)
  ∧ ∀ id, pendingWarningTimers st' !! id
          = if decide (id ∈ (pendingRequests st).*1) then None
            else pendingWarningTimers st !! id.
Proof.
  intros Hflag Hnd Hrun.
  assert (∃ d, reset (S (S d)) now st = Some st') as [d Hrun'].
  { destruct depth as [|[|d]]; [done | | by exists d].
    exists 0%nat. by apply reset_mono. }
  rewrite reset_runs in Hrun' by done. injection Hrun' as <-.
  pose proof (reject_loop_events (pendingRequests st)
                (set_pendingRequests [] (set_isResetting true st)) Hnd) as He.
  destruct (reject_loop_frame (pendingRequests st)
              (set_pendingRequests [] (set_isResetting true st)))
    as (Fp & _ & _ & _ & Fh & _ & Ft).
  cbn zeta in Fp, Fh, Ft.
  split; [exact Fp|]. split; [exact Fh|]. split; [exact He|].
  intros id.
  change (pendingWarningTimers (set_isResetting false (updateAgentState _ ?s)))
    with (pendingWarningTimers s).
  rewrite Ft. apply lookup_foldl_delete.
Qed.

Lemma handleToolCall_pending_handle now toolCallId toolName input st :
  shouldAutoApprove toolName (normalizeRequestId toolCallId) input st = false →
  nextHandle (handleToolCall now toolCallId toolName input st).1
  = S (nextHandle st)
  ∧ (∀ id, is_Some (pendingWarningTimers
                      (handleToolCall now toolCallId toolName input st).1 !! id) →
           id = normalizeRequestId toolCallId
           ∨ is_Some (pendingWarningTimers st !! id)).
Proof.
  intros Hauto. unfold handleToolCall. rewrite Hauto.
  unfold fresh_handle, registerPendingRequest, schedulePendingWarning,
    addPendingRequestToState.
  cbn [pendingWarningTimers set_pendingRequests Permission.toolName
       normalizeRequestId].
  destruct (pendingWarningTimers st !! normalizeRequestId toolCallId)
    as [timer|] eqn:Htimer; cbn; (split; [done|]); [by right|].
  intros id. rewrite lookup_insert. case_decide; [by left | by right].
Qed.

(** Every reachable state is well tracked. *)
Lemma reachable_well_tracked st : reachable st → well_tracked st.
Proof.
  induction 1 as [a | st a _ IH | st mode _ IH
                 | st now toolCallId toolName input Hreach IH
                 | st depth now response st' threw Hreach IH Hrpc
                 | st depth now st' Hreach IH Hreset];
    unfold well_tracked, pending_handles in *.
  - cbn. split; [apply NoDup_nil_2|]. split; [apply NoDup_nil_2|].
    split; [by intros h H%elem_of_nil|]. split; [by intros h H%elem_of_nil|].
    intros i [? H]. by rewrite lookup_empty in H.
  - exact IH.
  - unfold setPermissionMode. by case_bool_decide.
  - destruct IH as (Hnd & Hsnd & Hpend & Hset & Htimers).
    destruct (shouldAutoApprove toolName (normalizeRequestId toolCallId) input st)
      eqn:Hauto.
    + rewrite handleToolCall_auto by done.
      exact (conj Hnd (conj Hsnd (conj Hpend (conj Hset Htimers)))).
    + destruct (handleToolCall_pending now toolCallId toolName input st Hauto)
        as (_ & Hp & Ht & Ht' & _ & _ & _ & _ & He).
      destruct (handleToolCall_pending_handle now toolCallId toolName input st Hauto)
        as (Hh & Htk).
      cbn zeta in Hp, Ht, Ht', He.
      assert (settled_handles
                (events (handleToolCall now toolCallId toolName input st).1)
              = settled_handles (events st)) as Hsame.
      { rewrite He, settled_handles_app.
        destruct (pendingWarningTimers st !! _); cbn; by rewrite app_nil_r. }
      rewrite Hp, Hsame, Hh.
      set (entry := {| handle := nextHandle st; on_resolve := Return;
                       on_reject := Return; toolName := toolName;
                       input := input |}).
      assert (handle entry ∉ handles (pendingRequests st)) as Hfresh.
      { intros H. apply Hpend in H as [H _]. cbn in H. lia. }
      destruct (handles_map_set (normalizeRequestId toolCallId) entry
                  (pendingRequests st) Hfresh Hnd) as [Hnd' Hin'].
      split; [done|]. split; [done|]. split; [|split].
      * intros h [->|H]%Hin'.
        -- cbn. split; [lia|]. intros H%Hset. lia.
        -- destruct (Hpend h H). split; [lia|done].
      * intros h H%Hset. lia.
      * intros i Hi. rewrite map_get_set. case_decide; [done|].
        apply Htimers. destruct (Htk i Hi) as [->|?]; done.
  - destruct IH as (Hnd & Hsnd & Hpend & Hset & Htimers).
    destruct (map_get (normalizeRequestId (id response)) (pendingRequests st))
      as [pending|] eqn:Hget.
    + destruct (reachable_consistent st Hreach) as (_ & _ & Hall).
      destruct (Hall _ _ Hget) as (Hres & _).
      destruct (permission_rpc_match depth now response st pending Hget Hres)
        as (st1 & Hrun & Hp & Ht & He & _ & _ & _ & Hh & _).
      rewrite Hrun in Hrpc. injection Hrpc as <- <-.
      destruct (handles_map_delete _ _ _ Hnd Hget) as (Hnd' & Hgone & Hsub).
      assert (handle pending ∈ handles (pendingRequests st)) as Hin.
      { apply list_elem_of_fmap. exists (normalizeRequestId (id response), pending).
        split; [done|]. by apply map_get_Some_elem. }
      destruct (Hpend _ Hin) as [Hlt Hunsettled].
      assert (settled_handles (events st1)
              = settled_handles (events st) ++ [handle pending]) as Hsettled.
      { rewrite He, !settled_handles_app.
        destruct (pendingWarningTimers st !! _); done. }
      rewrite Hp, Hsettled, Hh, Ht.
      split; [done|]. split; [|split; [|split]].
      * apply NoDup_app. split; [done|]. split; [|apply NoDup_singleton].
        intros h Hh1 [->|H]%elem_of_cons; [done|]. by apply elem_of_nil in H.
      * intros h H. destruct (Hpend h (Hsub h H)) as [? Hns].
        split; [done|]. intros [?|[->|H']%elem_of_cons]%elem_of_app; [done|done|].
        by apply elem_of_nil in H'.
      * intros h [?|[->|H']%elem_of_cons]%elem_of_app; [by apply Hset|done|].
        by apply elem_of_nil in H'.
      * intros i [t Hi]. apply lookup_delete_Some in Hi as [Hne Hi].
        rewrite map_get_delete, decide_False by done. apply Htimers. eauto.
    + rewrite permission_rpc_no_match in Hrpc by done.
      injection Hrpc as <- <-.
      exact (conj Hnd (conj Hsnd (conj Hpend (conj Hset Htimers)))).
  - destruct IH as (Hnd & Hsnd & Hpend & Hset & Htimers).
    destruct (reachable_consistent st Hreach) as (Hflag & Hkeys & _).
    destruct (reset_result depth now st st' Hflag Hkeys Hreset)
      as (Hp & Hh & He & Ht).
    assert (settled_handles (events st')
            = settled_handles (events st)
              ++ handles (pendingRequests st)) as Hsettled.
    { rewrite He, settled_handles_app. f_equal.
      unfold settled_handles. rewrite settlements_of_reset.
      rewrite <- list_fmap_compose. done. }
    rewrite Hp, Hsettled, Hh. cbn [fmap list_fmap].
    split; [apply NoDup_nil_2|]. split; [|split; [|split]].
    + apply NoDup_app. split; [done|]. split; [|done].
      intros h Hh1 Hh2. by destruct (Hpend h Hh2).
    + by intros h H%elem_of_nil.
    + intros h [?|H]%elem_of_app; [by apply Hset|]. by destruct (Hpend h H).
    + intros i [t Hi]. rewrite Ht in Hi. case_decide as Hkey; [done|].
      exfalso. apply Hkey. destruct (Htimers i ltac:(eauto)) as [p Hp'].
      apply list_elem_of_fmap. exists (i, p). split; [done|].
      by apply map_get_Some_elem.
Qed.

End HandleTracking.

(** ** Permission bridge: what one step does to the handles *)

Section Steps.
Import Elicitation Permission Promises Fixtures.

Local Abbreviation handles m :=
  ((λ e : string * PendingRequest, handle e.2) <$> m).

Lemma handles_map_set_elem k (v : PendingRequest) m h :
  h ∈ handles (map_set k v m) → h = handle v ∨ h ∈ handles m.
Proof.
  induction m as [|[k' v'] m IH]; cbn [map_set].
  - intros [->|H]%elem_of_cons; auto.
  - destruct (decide (k' = k)) as [->|Hk]; rewrite !fmap_cons; cbn [snd].
    + intros [->|H]%elem_of_cons; [by left|]. right. by right.
    + intros [->|H]%elem_of_cons; [right; by left|].
      destruct (IH H) as [->|?]; [by left|]. right. by right.
Qed.

Lemma handles_map_set_replaced k (v p : PendingRequest) m :
  NoDup (handles m) →
  map_get k m = Some p →
  handle v ∉ handles m →
  handle p ∉ handles (map_set k v m).
Proof.
  induction m as [|[k' v'] m IH]; [done|].
  rewrite fmap_cons. cbn [snd map_get map_set].
  intros [Hnotin Hnd]%NoDup_cons Hget [Hne Hfresh]%not_elem_of_cons.
  destruct (decide (k' = k)) as [->|Hk]; rewrite fmap_cons; cbn [snd].
  - injection Hget as ->. apply not_elem_of_cons. split; [congruence|done].
  - apply not_elem_of_cons. split; [|by apply IH].
    intros Heq. apply Hnotin. rewrite <- Heq.
    apply list_elem_of_fmap. exists (k, p). split; [done|].
    by apply map_get_Some_elem.
Qed.

Lemma step_reachable st st' : reachable st → step st st' → reachable st'.
Proof.
  intros Hreach Hstep. destruct Hstep.
  - by apply reach_updateSession.
  - by apply reach_setPermissionMode.
  - by apply reach_handleToolCall.
  - by eapply reach_permission_rpc.
  - by eapply reach_reset.
Qed.

Lemma steps_reachable st st' : reachable st → rtc step st st' → reachable st'.
Proof.
  intros Hreach Hsteps. induction Hsteps as [|st st1 st2 Hstep _ IH]; [done|].
  apply IH. by eapply step_reachable.
Qed.

(** A step issues handles upwards, puts at most the new handle into the
    pending table, and settles only handles that were pending. *)
Lemma step_tracking st st' :
  consistent st →
  step st st' →
  (nextHandle st ≤ nextHandle st')%nat
  ∧ (∀ h, h ∈ pending_handles st' →
       h ∈ pending_handles st ∨ h = nextHandle st)
  ∧ (∀ h, h ∈ settled_handles (events st') →
       h ∈ settled_handles (events st) ∨ h ∈ pending_handles st).
Proof.
  intros (Hflag & Hkeys & Hall) Hstep. unfold pending_handles.
  destruct Hstep as [st a | st mode | st now toolCallId toolName input
                    | st depth now response st' threw Hrpc
                    | st depth now st' Hreset].
  - cbn. auto.
  - unfold setPermissionMode. case_bool_decide; cbn; auto.
  - destruct (shouldAutoApprove toolName (normalizeRequestId toolCallId) input st)
      eqn:Hauto.
    + rewrite handleToolCall_auto by done. cbn. auto.
    + destruct (handleToolCall_pending now toolCallId toolName input st Hauto)
        as (_ & Hp & _ & _ & _ & _ & _ & _ & He).
      destruct (handleToolCall_pending_handle now toolCallId toolName input st Hauto)
        as (Hh & _).
      cbn zeta in Hp, He. rewrite Hp, He, Hh, settled_handles_app.
      split; [lia|]. split.
      * intros h [->|?]%handles_map_set_elem; [by right | by left].
      * intros h [?|H]%elem_of_app; [by left|].
        destruct (pendingWarningTimers st !! _); by apply elem_of_nil in H.
  - destruct (map_get (normalizeRequestId (id response)) (pendingRequests st))
      as [pending|] eqn:Hget.
    + destruct (Hall _ _ Hget) as (Hres & _).
      destruct (permission_rpc_match depth now response st pending Hget Hres)
        as (st1 & Hrun & Hp & _ & He & _ & _ & _ & Hh & _).
      rewrite Hrun in Hrpc. injection Hrpc as <- <-.
      rewrite Hp, He, Hh, !settled_handles_app.
      split; [lia|]. split.
      * intros h Hin. apply list_elem_of_fmap in Hin as ([k1 v1] & Heq & Hin).
        apply map_delete_elem in Hin as [Hin _].
        left. apply list_elem_of_fmap. by exists (k1, v1).
      * intros h [?|[H|H]%elem_of_app]%elem_of_app; [by left| |].
        -- destruct (pendingWarningTimers st !! _) as [timer|].
           ++ by apply elem_of_nil in H.
           ++ by apply elem_of_nil in H.
        -- apply list_elem_of_singleton in H as ->. right.
           apply list_elem_of_fmap.
           exists (normalizeRequestId (id response), pending).
           split; [done|]. by apply map_get_Some_elem.
    + rewrite permission_rpc_no_match in Hrpc by done.
      injection Hrpc as <- <-. auto.
  - destruct (reset_result depth now st st' Hflag Hkeys Hreset)
      as (Hp & Hh & He & _).
    rewrite Hp, Hh, He, settled_handles_app. split; [lia|]. split.
    + by intros h H%elem_of_nil.
    + intros h [?|H]%elem_of_app; [by left|]. right.
      unfold settled_handles in H. rewrite settlements_of_reset in H.
      by rewrite <- list_fmap_compose in H.
Qed.

Lemma orphaned_step h st st' :
  consistent st → step st st' → orphaned h st → orphaned h st'.
Proof.
  intros Hcons Hstep (Hlt & Hpend & Hset).
  destruct (step_tracking st st' Hcons Hstep) as (Hle & Hp & Hs).
  split; [lia|]. split.
  - intros [? | ->]%Hp; [done|lia].
  - intros [?|?]%Hs; done.
Qed.

Lemma orphaned_steps h st st' :
  reachable st → rtc step st st' → orphaned h st → orphaned h st'.
Proof.
  intros Hreach Hsteps. induction Hsteps as [|st st1 st2 Hstep _ IH]; [done|].
  intros Horph. apply IH.
  - by eapply step_reachable.
  - eapply orphaned_step; [|done..]. by apply reachable_consistent.
Qed.

Lemma first_outcome_None h l : h ∉ l.*1 → first_outcome h l = None.
Proof.
  induction l as [|[h' o] l IH]; [done|]. rewrite fmap_cons. cbn [fst].
  intros [Hne Hnotin]%not_elem_of_cons. cbn [first_outcome].
  rewrite decide_False by done. by apply IH.
Qed.

Lemma first_outcome_app h l l' :
  h ∉ l.*1 → first_outcome h (l ++ l') = first_outcome h l'.
Proof.
  induction l as [|[h' o] l IH]; [done|]. rewrite fmap_cons. cbn [fst].
  intros [Hne Hnotin]%not_elem_of_cons. cbn [app first_outcome].
  rewrite decide_False by done. by apply IH.
Qed.

Lemma await_unsettled h evs : h ∉ settled_handles evs → await h evs = None.
Proof. apply first_outcome_None. Qed.

Lemma await_app h evs evs' :
  h ∉ settled_handles evs → await h (evs ++ evs') = await h evs'.
Proof.
  intros H. unfold await, settlements. rewrite omap_app.
  by apply first_outcome_app.
Qed.

(** X19.  A tool call whose id is still pending replaces the entry of the
    first call: the first promise is dropped from the table without being
    settled, and nothing that happens later settles it.  *)
Theorem replaced_request_is_never_settled now toolCallId toolName input st first st' :
  reachable st →
  map_get (normalizeRequestId toolCallId) (pendingRequests st) = Some first →
  shouldAutoApprove toolName (normalizeRequestId toolCallId) input st = false →
  rtc step (handleToolCall now toolCallId toolName input st).1 st' →
  (handleToolCall now toolCallId toolName input st).2 = Awaiting (nextHandle st)
  ∧ (pendingRequests (handleToolCall now toolCallId toolName input st).1).*1
    = (pendingRequests st).*1
  ∧ handle first ≠ nextHandle st
  ∧ (handle first ∉ pending_handles st')
  ∧ await (handle first) (events st') = None.
Proof.
  intros Hreach Hget Hauto Hsteps.
  destruct (handleToolCall_pending now toolCallId toolName input st Hauto)
    as (Hres & Hp & _).
  destruct (handleToolCall_pending_handle now toolCallId toolName input st Hauto)
    as (Hh & _).
  cbn zeta in Hp.
  destruct (reachable_well_tracked st Hreach) as (Hnd & _ & Hpend & _ & _).
  assert (handle first ∈ pending_handles st) as Hin.
  { apply list_elem_of_fmap. exists (normalizeRequestId toolCallId, first).
    split; [done|]. by apply map_get_Some_elem. }
  destruct (Hpend _ Hin) as [Hlt Hunsettled].
  assert (orphaned (handle first)
            (handleToolCall now toolCallId toolName input st).1) as Horph.
  { split; [rewrite Hh; lia|]. split.
    - unfold pending_handles. rewrite Hp.
      apply handles_map_set_replaced; [done..|].
      intros H. apply Hpend in H as [H _]. cbn in H. lia.
    - destruct (handleToolCall_pending now toolCallId toolName input st Hauto)
        as (_ & _ & _ & _ & _ & _ & _ & _ & He).
      cbn zeta in He. rewrite He, settled_handles_app.
      intros [?|H]%elem_of_app; [done|].
      destruct (pendingWarningTimers st !! _); by apply elem_of_nil in H. }
  destruct (orphaned_steps _ _ _
              (reach_handleToolCall st now toolCallId toolName input Hreach)
              Hsteps Horph) as (_ & Hp' & Hs').
  split; [done|]. split.
  - rewrite Hp, map_set_keys. apply decide_True.
    apply list_elem_of_fmap. exists (normalizeRequestId toolCallId, first).
    split; [done|]. by apply map_get_Some_elem.
  - split; [lia|]. split; [done|]. by apply await_unsettled.
Qed.

End Steps.

Section StepsExamples.
Import Elicitation Permission Promises Fixtures.

Lemma replaced_request_is_never_settled_witness :
  ∃ st',
    reset 2 30
      (handleToolCall 20 (IdString "exec-1") "CodexBash" "yarn build"
         handler_awaiting_exec_1).1
    = Some st'
    ∧ await 0%nat (events st') = None
    ∧ await 1%nat (events st') = Some (Rejected "Session reset").
Proof.
  eexists. split; [vm_compute; reflexivity|]. split; [|vm_compute; reflexivity].
  refine (proj2 (proj2 (proj2 (proj2
    (replaced_request_is_never_settled 20 (IdString "exec-1") "CodexBash"
       "yarn build" handler_awaiting_exec_1
       {| handle := 0%nat; on_resolve := Return; on_reject := Return;
          toolName := "CodexBash"; input := "yarn dev" |} _ _ _ _ _))))).
  - apply reach_handleToolCall, reach_new.
  - vm_compute. reflexivity.
  - vm_compute. reflexivity.
  - apply rtc_once. apply (step_reset _ 2%nat 30). vm_compute. reflexivity.
Defined.

End StepsExamples.

(** ** The elicitation handler on top of the permission bridge *)

Section ElicitationFlow.
Import Elicitation Permission Promises McpSession Fixtures.

Lemma first_outcome_rejected h (l : list (string * PendingRequest)) :
  h ∈ (λ e : string * PendingRequest, handle e.2) <$> l →
  first_outcome h
    ((λ entry : string * PendingRequest,
        (handle entry.2, Rejected "Session reset")) <$> l)
  = Some (Rejected "Session reset").
Proof.
  induction l as [|[k p] l IH]; [by intros H%elem_of_nil|].
  rewrite !fmap_cons. cbn [snd first_outcome].
  intros [->|H]%elem_of_cons.
  - by rewrite decide_True.
  - case_decide; [done|]. by apply IH.
Qed.

(** What a request that has to wait leaves behind. *)
Lemma elicitation_request_waiting style now params extra uuid toolInput
    client handler client' h :
  permissionHandler client = Some handler →
  reachable handler →
  elicitation_request style now params extra uuid toolInput client
  = (client', Waiting h) →
  ∃ handler' pending,
    permissionHandler client' = Some handler'
    ∧ reachable handler'
    ∧ map_get (permissionId params extra uuid) (pendingRequests handler')
      = Some pending
    ∧ handle pending = h
    ∧ h ∉ settled_handles (events handler').
Proof.
  intros Hhandler Hreach. unfold elicitation_request.
  destruct (consumeExecPolicyAmendment _ _ _) as [cached amendments].
  rewrite Hhandler.
  set (id := IdString (permissionId params extra uuid)).
  set (toolName := if String.eqb _ _ then _ else _).
  destruct (shouldAutoApprove toolName (normalizeRequestId id)
              (toolInput cached) handler) eqn:Hauto.
  - rewrite handleToolCall_auto by done. done.
  - destruct (handleToolCall_pending now id toolName (toolInput cached) handler
                Hauto) as (Hres & Hp & _).
    cbn zeta in Hp.
    destruct (handleToolCall now id toolName (toolInput cached) handler)
      as [handler' result] eqn:Hcall.
    cbn [fst snd] in Hres, Hp. subst result. intros [= <- <-].
    assert (reachable handler') as Hreach'.
    { replace handler'
        with (handleToolCall now id toolName (toolInput cached) handler).1
        by (by rewrite Hcall).
      by apply reach_handleToolCall. }
    exists handler',
      {| handle := nextHandle handler; on_resolve := Return; on_reject := Return;
         Permission.toolName := toolName; input := toolInput cached |}.
    split; [done|]. split; [done|].
    split; [by rewrite Hp, map_get_set, decide_True|].
    split; [done|].
    destruct (reachable_well_tracked handler' Hreach') as (_ & _ & Hpend & _).
    apply Hpend. unfold pending_handles. rewrite Hp.
    apply list_elem_of_fmap.
    exists (normalizeRequestId id,
            {| handle := nextHandle handler; on_resolve := Return;
               on_reject := Return; Permission.toolName := toolName;
               input := toolInput cached |}).
    split; [reflexivity|].
    apply map_get_Some_elem. rewrite map_get_set. by rewrite decide_True.
Qed.

(** X20.  A request that waits has no reply yet; a reset of the handler
    ends the wait with the reply [decline] / [denied]. *)
Theorem waiting_elicitation_is_declined_by_reset style now params extra uuid
    toolInput client handler client' h now' :
  permissionHandler client = Some handler →
  reachable handler →
  elicitation_request style now params extra uuid toolInput client
  = (client', Waiting h) →
  ∃ handler' handler'',
    permissionHandler client' = Some handler'
    ∧ elicitation_reply style h handler' = None
    ∧ reset 2 now' handler' = Some handler''
    ∧ elicitation_reply style h handler''
      = Some (buildElicitationResponse style decline (ReviewTag denied)).
Proof.
  intros Hhandler Hreach Hreq.
  destruct (elicitation_request_waiting _ _ _ _ _ _ _ _ _ _ Hhandler Hreach Hreq)
    as (handler' & pending & Hh' & Hreach' & Hget & Hhandle & Hunsettled).
  destruct (reachable_consistent handler' Hreach') as (Hflag & Hkeys & _).
  destruct (reset 2 now' handler') as [handler''|] eqn:Hreset;
    [|by rewrite reset_runs in Hreset].
  exists handler', handler''. split; [done|]. split.
  { unfold elicitation_reply. by rewrite await_unsettled. }
  split; [done|].
  destruct (reset_result 2 now' handler' handler'' Hflag Hkeys Hreset)
    as (_ & _ & He & _).
  unfold elicitation_reply. rewrite He, await_app by done.
  unfold await. rewrite settlements_of_reset, first_outcome_rejected; [done|].
  apply list_elem_of_fmap. exists (permissionId params extra uuid, pending).
  split; [done|]. by apply map_get_Some_elem.
Qed.

(** X21.  A request that waits is answered by the permission response that
    carries its id: the reply accepts exactly when the response approves,
    declines when it refuses with the decision [denied], and cancels on
    every other refusal. *)
Theorem waiting_elicitation_is_answered_by_response style now params extra uuid
    toolInput client handler client' h depth now' response :
  permissionHandler client = Some handler →
  reachable handler →
  elicitation_request style now params extra uuid toolInput client
  = (client', Waiting h) →
  normalizeRequestId (id response) = permissionId params extra uuid →
  ∃ handler' handler'' answer,
    permissionHandler client' = Some handler'
    ∧ permission_rpc depth now' response handler' = Some (handler'', false)
    ∧ elicitation_reply style h handler'' = Some answer
    ∧ answer = reply style (Resolved (result_of_response response))
    ∧ resp_action answer
      = if resp_approved response then accept
        else if bool_decide (Permission.resp_decision response = Some denied)
             then decline else cancel.
Proof.
  intros Hhandler Hreach Hreq Hid.
  destruct (elicitation_request_waiting _ _ _ _ _ _ _ _ _ _ Hhandler Hreach Hreq)
    as (handler' & pending & Hh' & Hreach' & Hget & Hhandle & Hunsettled).
  destruct (reachable_consistent handler' Hreach') as (_ & _ & Hall).
  rewrite <- Hid in Hget. destruct (Hall _ _ Hget) as (Hres & _).
  destruct (permission_rpc_match depth now' response handler' pending Hget Hres)
    as (handler'' & Hrun & _ & _ & He & _).
  exists handler', handler'', (reply style (Resolved (result_of_response response))).
  split; [done|]. split; [done|]. split; [|split; [done|]].
  - unfold elicitation_reply. rewrite He, await_app by done.
    unfold await, settlements. rewrite omap_app.
    rewrite first_outcome_app.
    + cbn. rewrite Hhandle. by rewrite decide_True.
    + destruct (pendingWarningTimers handler' !! _); cbn; apply not_elem_of_nil.
  - unfold result_of_response.
    destruct response as [i a d e]. cbn.
    destruct a; cbn.
    + destruct (bool_decide (d = Some approved_execpolicy_amendment)
                && has_command e) eqn:Hw.
      * apply andb_prop in Hw as [_ Hcmd]. destruct style; cbn;
          unfold mapPermissionResultToDecision; cbn; rewrite Hcmd; done.
      * clear Hw.
        destruct style; cbn;
          by destruct (bool_decide (d = Some approved_for_session)).
    + destruct style; cbn; by destruct (bool_decide (d = Some denied)).
Qed.

(** X22.  In the modes [yolo] and [safe-yolo] the request is answered at
    once with [accept]; nothing is left pending and no call leaves the
    handler. *)
Theorem elicitation_request_auto_accepts style now params extra uuid toolInput
    client handler :
  permissionHandler client = Some handler →
  currentPermissionMode handler = mode_yolo
  ∨ currentPermissionMode handler = mode_safe_yolo →
  ∃ handler',
    elicitation_request style now params extra uuid toolInput client
    = ({| execPolicyAmendments :=
            (consumeExecPolicyAmendment (codex_call_id params)
               (codex_event_id params) (execPolicyAmendments client)).2;
          permissionHandler := Some handler' |},
       Replied (buildElicitationResponse style accept
                  (ReviewTag (if bool_decide (currentPermissionMode handler
                                              = mode_yolo)
                              then approved_for_session else approved))))
    ∧ pendingRequests handler' = pendingRequests handler
    ∧ events handler' = events handler.
Proof.
  intros Hhandler Hmode. unfold elicitation_request.
  destruct (consumeExecPolicyAmendment _ _ _) as [cached amendments].
  rewrite Hhandler.
  rewrite handleToolCall_auto
    by (destruct Hmode; [by apply shouldAutoApprove_yolo
                        | by apply shouldAutoApprove_safe_yolo]).
  eexists. split.
  - cbn [snd]. f_equal. f_equal. by case_bool_decide.
  - done.
Qed.

End ElicitationFlow.

Section ElicitationFlowExamples.
Import Elicitation Permission Promises McpSession Fixtures.

Lemma waiting_elicitation_is_declined_by_reset_witness :
  ∃ handler' handler'',
    permissionHandler
      (elicitation_request style_both 10
         {| codex_elicitation := "exec-approval";
            codex_mcp_tool_call_id := None; codex_event_id := None;
            codex_call_id := Some "call-1" |}
         None "uuid" (λ _, "ls")
         {| execPolicyAmendments := ∅;
            permissionHandler := Some test_handler |}).1
    = Some handler'
    ∧ elicitation_reply style_both 0%nat handler' = None
    ∧ reset 2 20 handler' = Some handler''
    ∧ elicitation_reply style_both 0%nat handler''
      = Some {| resp_action := decline;
                Elicitation.resp_decision := Some (ReviewTag denied);
                resp_content := Some tt |}.
Proof.
  apply (waiting_elicitation_is_declined_by_reset style_both 10
           {| codex_elicitation := "exec-approval";
              codex_mcp_tool_call_id := None; codex_event_id := None;
              codex_call_id := Some "call-1" |}
           None "uuid" (λ _, "ls")
           {| execPolicyAmendments := ∅;
              permissionHandler := Some test_handler |}
           test_handler).
  - reflexivity.
  - apply reach_new.
  - vm_compute. reflexivity.
Defined.

Lemma waiting_elicitation_is_answered_by_response_witness :
  ∃ handler' handler'' answer,
    permissionHandler
      (elicitation_request style_decision 10
         {| codex_elicitation := "exec-approval";
            codex_mcp_tool_call_id := None; codex_event_id := None;
            codex_call_id := Some "exec-1" |}
         None "uuid" (λ _, "yarn dev")
         {| execPolicyAmendments := ∅;
            permissionHandler := Some test_handler |}).1
    = Some handler'
    ∧ permission_rpc 0 20 amendment_response handler' = Some (handler'', false)
    ∧ elicitation_reply style_decision 0%nat handler'' = Some answer
    ∧ answer
      = reply style_decision (Resolved (result_of_response amendment_response))
    ∧ resp_action answer = accept.
Proof.
  apply (waiting_elicitation_is_answered_by_response style_decision 10
           {| codex_elicitation := "exec-approval";
              codex_mcp_tool_call_id := None; codex_event_id := None;
              codex_call_id := Some "exec-1" |}
           None "uuid" (λ _, "yarn dev")
           {| execPolicyAmendments := ∅;
              permissionHandler := Some test_handler |}
           test_handler _ 0%nat 0%nat 20 amendment_response).
  - reflexivity.
  - apply reach_new.
  - vm_compute. reflexivity.
  - reflexivity.
Defined.

Lemma elicitation_request_auto_accepts_witness :
  ∃ handler',
    elicitation_request style_both 10
      {| codex_elicitation := "patch-approval";
         codex_mcp_tool_call_id := None; codex_event_id := Some "event-3";
         codex_call_id := None |}
      None "uuid" (λ _, "{}")
      {| execPolicyAmendments := ∅;
         permissionHandler := Some (setPermissionMode mode_yolo test_handler) |}
    = ({| execPolicyAmendments := ∅; permissionHandler := Some handler' |},
       Replied {| resp_action := accept;
                  Elicitation.resp_decision :=
                    Some (ReviewTag approved_for_session);
                  resp_content := Some tt |})
    ∧ pendingRequests handler' = []
    ∧ events handler' = [].
Proof.
  refine (elicitation_request_auto_accepts style_both 10
            {| codex_elicitation := "patch-approval";
               codex_mcp_tool_call_id := None; codex_event_id := Some "event-3";
               codex_call_id := None |}
            None "uuid" (λ _, "{}")
            {| execPolicyAmendments := ∅;
               permissionHandler := Some (setPermissionMode mode_yolo test_handler) |}
            (setPermissionMode mode_yolo test_handler) _ _).
  - reflexivity.
  - left. reflexivity.
Defined.

(** X23.  Over the life of a handler no promise is settled twice, a pending
    request is never settled already, and a warning timer is armed for
    exactly the pending requests. *)
Theorem no_promise_is_settled_twice st :
  reachable st →
  NoDup (settled_handles (events st))
  ∧ NoDup (pending_handles st)
  ∧ (∀ h, h ∈ pending_handles st → await h (events st) = None)
  ∧ (∀ id, is_Some (pendingWarningTimers st !! id)
           ↔ is_Some (map_get id (pendingRequests st))).
Proof.
  intros Hreach.
  destruct (reachable_well_tracked st Hreach) as (Hnd & Hsnd & Hpend & _ & Ht).
  destruct (reachable_consistent st Hreach) as (_ & _ & Hall).
  split; [done|]. split; [done|]. split.
  - intros h Hin. apply await_unsettled. by apply Hpend.
  - intros id. split; [apply Ht|]. intros [p Hp]. by apply (Hall id p).
Qed.

Lemma no_promise_is_settled_twice_witness :
  NoDup (settled_handles (events handler_awaiting_exec_1))
  ∧ NoDup (pending_handles handler_awaiting_exec_1)
  ∧ (∀ h, h ∈ pending_handles handler_awaiting_exec_1 →
       await h (events handler_awaiting_exec_1) = None)
  ∧ (∀ id, is_Some (pendingWarningTimers handler_awaiting_exec_1 !! id)
           ↔ is_Some (map_get id (pendingRequests handler_awaiting_exec_1))).
Proof.
  apply (no_promise_is_settled_twice handler_awaiting_exec_1).
  apply reach_handleToolCall, reach_new.
Defined.

End ElicitationFlowExamples.
